(** * Protokoll: JARM response validation and JOSE key material

    A shallow embedding of

    - [packages/jarm/src/jarm-auth-response/jarm-auth-response.ts]
      ([parseJarmAuthResponseParams], [decryptJarmAuthResponse],
      [jarmAuthResponseDirectPostJwtValidate]) and of the state check
      [jarmAuthResponseEncryptedValidate];
    - the crypto package's PEM export ([genericExport], [toSPKI], [toPKCS8]),
      its ASN.1 walk ([parseElement], [getElement], [spkiFromX509]), its
      key generation ([getModulusLengthOption], [generateKeyPair],
      [generateSecret]) and its PEM import ([findOid], [getNamedCurve],
      [genericImport], [fromPKCS8], [fromSPKI], [getSPKI], [fromX509]).

    JavaScript values are modelled as a tagged sum, thrown exceptions as the
    left summand of a result, and the calls a function makes to its injected
    context are recorded in a trace, so that "is never invoked" is a statement
    about that trace. *)

From Stdlib Require Import QArith Ascii.
From Stdlib.Strings Require Byte.
From stdpp Require Import base strings gmap list option pretty.

Close Scope Q_scope.
Set Warnings "-register-all".

(** ** JavaScript values *)

Module JS.

(** An IEEE double, as far as comparisons see it. *)
Inductive jsnumber :=
| Finite (q : Q)
| NaN
| PosInfinity
| NegInfinity.

Inductive jsval :=
| JUndefined
| JNull
| JBool (b : bool)
| JNum (n : jsnumber)
| JStr (s : string)
| JArr (items : list jsval)
| JObj (fields : gmap string jsval).

Definition number_of_N (n : N) : jsnumber := Finite (inject_Z (Z.of_N n)).

(** [typeof v] *)
Definition typeof (v : jsval) : string :=
  match v with
  | JUndefined => "undefined"
  | JNull => "object"
  | JBool _ => "boolean"
  | JNum _ => "number"
  | JStr _ => "string"
  | JArr _ => "object"
  | JObj _ => "object"
  end.

(** [a ?? b] picks [b] exactly when [a] is [undefined] or [null]. *)
Definition nullish (v : jsval) : bool :=
  match v with
  | JUndefined | JNull => true
  | _ => false
  end.

Definition coalesce (a b : jsval) : jsval := if nullish a then b else a.

(** ToBoolean, the test behind [!v] and [v || w]. *)
Definition truthy (v : jsval) : bool :=
  match v with
  | JUndefined | JNull => false
  | JBool b => b
  | JNum (Finite q) => negb (Qeq_bool q 0)
  | JNum NaN => false
  | JNum _ => true
  | JStr s => negb (String.eqb s "")
  | JArr _ | JObj _ => true
  end.

(** [x < y] on numbers; every comparison with NaN is false. *)
Definition number_lt (x y : jsnumber) : bool :=
  match x, y with
  | NaN, _ | _, NaN => false
  | NegInfinity, NegInfinity => false
  | NegInfinity, _ => true
  | _, NegInfinity => false
  | PosInfinity, _ => false
  | Finite _, PosInfinity => true
  | Finite p, Finite q => negb (Qle_bool q p)
  end.

Definition number_equal (x y : jsnumber) : bool :=
  match x, y with
  | Finite p, Finite q => Qeq_bool p q
  | PosInfinity, PosInfinity | NegInfinity, NegInfinity => true
  | _, _ => false
  end.

(** [a === b].  Arrays and objects compare by reference; the two operands
    compared in this development never alias, so they come out unequal. *)
Definition strict_equal (a b : jsval) : bool :=
  match a, b with
  | JUndefined, JUndefined | JNull, JNull => true
  | JBool x, JBool y => Bool.eqb x y
  | JNum x, JNum y => number_equal x y
  | JStr x, JStr y => String.eqb x y
  | _, _ => false
  end.

(** The own index properties of an array, keyed by their decimal spelling. *)
Definition index_props (items : list jsval) : gmap string jsval :=
  list_to_map (imap (λ i x, (pretty i, x)) items).

(** [v[k]] for a value that is not [undefined] or [null]: a missing property
    reads as [undefined]. *)
Definition prop (v : jsval) (k : string) : jsval :=
  match v with
  | JObj fields => default JUndefined (fields !! k)
  | JArr items =>
      if String.eqb k "length" then JNum (number_of_N (N.of_nat (length items)))
      else default JUndefined (index_props items !! k)
  | _ => JUndefined
  end.

(** How a template literal [`${v}`] spells a string that may be absent. *)
Definition template (v : jsval) (render : jsval → string) : string :=
  match v with
  | JUndefined => "undefined"
  | JNull => "null"
  | JStr s => s
  | JBool true => "true"
  | JBool false => "false"
  | _ => render v
  end.

End JS.
Import JS.

(** ** Exceptions and the call trace *)

Inductive Error :=
| JarmAuthResponseValidationError (message : string)
| JarmReceivedErrorResponse (code message : string)
| ValiError
| TypeError (message : string)
| PlainError (message : string)
| Thrown (what : string).

Abbreviation Result A := (Error + A)%type.

#[global] Instance Result_ret : MRet (sum Error) := λ A a, inr a.

#[global] Instance Result_bind : MBind (sum Error) := λ A B f r,
  match r with
  | inl e => inl e
  | inr a => f a
  end.

(** ** The part of valibot the response schemas use

    [v.string], [v.number], [v.unknown], [v.optional], [v.nonOptional] for
    members and [v.looseObject] for the object around them, with the entry
    transformers [v.pick], [v.omit], [v.partial], [v.required] and object
    spread.  Every entry's schema is run on [input[key]], which is
    [undefined] for a member that is absent. *)

Module Valibot.

Inductive schema :=
| v_string
| v_number
| v_unknown
| v_optional (wrapped : schema)
| v_nonOptional (wrapped : schema).

Record object_schema := v_looseObject { entries : gmap string schema }.

Fixpoint run (s : schema) (v : jsval) : bool :=
  match s with
  | v_string => match v with JStr _ => true | _ => false end
  | v_number => match v with JNum NaN => false | JNum _ => true | _ => false end
  | v_unknown => true
  | v_optional w => match v with JUndefined => true | _ => run w v end
  | v_nonOptional w => match v with JUndefined => false | _ => run w v end
  end.

(** [v.is(schema, input)] *)
Definition v_is (s : object_schema) (input : jsval) : bool :=
  match input with
  | JObj _ | JArr _ =>
      bool_decide (map_Forall (λ k w, run w (prop input k) = true) (entries s))
  | _ => false
  end.

(** What a successful parse of a loose object returns: the members of the
    input, known and unknown alike. *)
Definition output (s : object_schema) (input : jsval) : jsval :=
  match input with
  | JArr items =>
      JObj (index_props items ∪
            (if bool_decide (is_Some (entries s !! "length"))
             then {["length" := prop input "length"]} else ∅))
  | _ => input
  end.

(** [v.parse(schema, input)] throws a [ValiError] when the input does not
    match. *)
Definition v_parse (s : object_schema) (input : jsval) : Result jsval :=
  if v_is s input then inr (output s input) else inl ValiError.

Definition v_pick (s : object_schema) (keys : list string) : object_schema :=
  v_looseObject (filter (λ kw, kw.1 ∈ keys) (entries s)).

Definition v_omit (s : object_schema) (keys : list string) : object_schema :=
  v_looseObject (filter (λ kw, kw.1 ∉ keys) (entries s)).

Definition v_partial (s : object_schema) : object_schema :=
  v_looseObject (v_optional <$> entries s).

(** [v.required(schema, keys)] wraps the listed entries of the schema in
    [nonOptional]; a listed key the schema does not have is ignored. *)
Definition v_required (s : object_schema) (keys : list string) : object_schema :=
  v_looseObject
    (map_imap (λ k w, Some (if bool_decide (k ∈ keys) then v_nonOptional w else w))
              (entries s)).

(** [{ ...a, ...b }]: the members of [b] win. *)
Definition spread (a b : gmap string schema) : gmap string schema := b ∪ a.

End Valibot.
Import Valibot.

(** ** Calls and the monad that records them

    A computation yields the list of calls it made, in order, and then either
    the exception it threw or its value.  The trace survives a throw. *)

Record Jwk := { jwk_kid : jsval; jwk_kty : string }.

Inductive Call :=
| Call_decryptCompact (jwe : string) (jwk : Jwk)
| Call_verifyJwt (jws : string) (jwk : Jwk)
| Call_getParams (responseParams : jsval)
| Call_v_parse (schema : object_schema) (input : jsval)
| Call_validateParams (authRequestParams authResponseParams : jsval).

Definition Traced (C A : Type) : Type := (list C * Result A)%type.

Definition throw {C A} (e : Error) : Traced C A := ([], inl e).

(** A step that leaves no trace: an imported pure helper that may throw. *)
Definition lift {C A} (r : Result A) : Traced C A := ([], r).

(** A recorded call with its outcome. *)
Definition call {C A} (c : C) (r : Result A) : Traced C A := ([c], r).

#[global] Instance Traced_ret {C} : MRet (Traced C) := λ A a, ([], inr a).

#[global] Instance Traced_bind {C} : MBind (Traced C) := λ A B f m,
  match m with
  | (t, inl e) => (t, inl e)
  | (t, inr a) => let '(t', r) := f a in (t ++ t', r)
  end.

Definition trace {C A} (m : Traced C A) : list C := m.1.
Definition outcome {C A} (m : Traced C A) : Result A := m.2.

(** [never p t]: no call in the trace [t] satisfies [p]. *)
Definition never {C} (p : C → bool) (t : list C) : Prop :=
  Forall (λ c, p c = false) t.

Abbreviation M := (Traced Call).

Definition is_decryptCompact (c : Call) : bool :=
  match c with Call_decryptCompact _ _ => true | _ => false end.
Definition is_verifyJwt (c : Call) : bool :=
  match c with Call_verifyJwt _ _ => true | _ => false end.
Definition is_getParams (c : Call) : bool :=
  match c with Call_getParams _ => true | _ => false end.
Definition is_v_parse (c : Call) : bool :=
  match c with Call_v_parse _ _ => true | _ => false end.
Definition is_validateParams (c : Call) : bool :=
  match c with Call_validateParams _ _ => true | _ => false end.

(** The two exceptions that report a failed parse: valibot's own, and the
    one [parseJarmAuthResponseParams] throws with code [PARSE_ERROR]. *)
Definition is_parse_error (e : Error) : bool :=
  match e with
  | ValiError => true
  | JarmReceivedErrorResponse code _ => String.eqb code "PARSE_ERROR"
  | _ => false
  end.

(** ** What the JARM package imports

    The four helpers of [@protokoll/jose], the two [JSON] builtins, the two
    schema constants declared in [v-jarm-auth-response-params.ts] and
    [v-jarm-auth-response.ts], and the two imports from
    [v-jarm-direct-post-jwt-auth-response-params.ts] (the schema of the
    response parameters and the check of the response against the request)
    are interfaces: the functions below are stated over any implementation
    of them. *)

Class JoseImports := {
  isJwe : string → bool;
  isJws : string → bool;
  decodeProtectedHeader : string → Result jsval;
  decodeJwt : string → Result jsval;
}.

Class JsonBuiltins := {
  JSON_parse : string → Result jsval;
  JSON_stringify : jsval → string;
  js_toString : jsval → string;
}.

Class JarmSchemas := {
  vJarmAuthResponseErrorParams : object_schema;
  vJarmAuthResponse : object_schema;
}.

Class DirectPostImports := {
  vJarmDirectPostJwtParams : object_schema;
  jarmAuthResponseDirectPostValidateParams : jsval → jsval → Result unit;
}.

(** [JarmDirectPostJwtAuthResponseValidationContext]: the capabilities the
    host injects. *)
Record JarmDirectPostJwtAuthResponseValidationContext := {
  jose_jwe_decryptCompact : string → Jwk → Result string;
  jose_jws_verifyJwt : string → Jwk → Result unit;
  openid4vp_authRequest_getParams : jsval → Result jsval;
}.

Record JarmDirectPostJwtAuthResponseValidation := { response : string }.

Inductive ResponseType := signed_encrypted | encrypted | signed.

Definition ResponseType_string (t : ResponseType) : string :=
  match t with
  | signed_encrypted => "signed encrypted"
  | encrypted => "encrypted"
  | signed => "signed"
  end.

Record ValidationResult := {
  authRequestParams : jsval;
  authResponseParams : jsval;
  type : ResponseType;
}.

Section Jarm.
Context `{JoseImports} `{JsonBuiltins} `{JarmSchemas} `{DirectPostImports}.

(** [vJarmAuthResponseEncrypted]: the members of [vJarmAuthResponse] with
    [iss], [aud] and [exp] made optional, and the three OpenID4VP members. *)
Definition vJarmAuthResponseEncrypted : object_schema :=
  v_looseObject
    (<["nonce" := v_optional v_string]>
       (<["presentation_submission" := v_unknown]>
          (<["vp_token" := v_string]>
             (spread
                (entries (v_omit vJarmAuthResponse ["iss"; "aud"; "exp"]))
                (entries (v_partial (v_pick vJarmAuthResponse ["iss"; "aud"; "exp"]))))))).

Definition StateMismatch (authRequest_state : jsval) : Error :=
  JarmAuthResponseValidationError
    ("State missmatch between auth request '"
       +:+ template authRequest_state js_toString
       +:+ "' and the jarm-auth-response.").

(** [jarmAuthResponseEncryptedValidate] *)
Definition jarmAuthResponseEncryptedValidate
    (authRequest authResponse : jsval) : Result unit :=
  if negb (strict_equal (prop authRequest "state") (prop authResponse "state"))
  then inl (StateMismatch (prop authRequest "state"))
  else inr ().

Definition ReceivedErrorResponse (responseParams : jsval) : Error :=
  JarmReceivedErrorResponse "PARSE_ERROR"
    ("Received error response from authorization server. '"
       +:+ JSON_stringify responseParams +:+ "'").

(** [parseJarmAuthResponseParams] *)
Definition parseJarmAuthResponseParams
    (schema : object_schema) (responseParams : jsval) : M jsval :=
  if v_is vJarmAuthResponseErrorParams responseParams
  then throw (ReceivedErrorResponse responseParams)
  else call (Call_v_parse schema responseParams) (v_parse schema responseParams).

Definition MissingKidJwe : Error :=
  JarmAuthResponseValidationError
    "Jarm JWE is missing the protected header field 'kid'.".

Definition MissingKidJws : Error :=
  JarmAuthResponseValidationError
    "Jarm JWS is missing the protected header field 'kid'.".

Definition NotSignedOrEncrypted : Error :=
  JarmAuthResponseValidationError
    "Jarm Auth Response must be either encrypted, signed, or signed and encrypted.".

(** [decryptJarmAuthResponse] *)
Definition decryptJarmAuthResponse
    (input : JarmDirectPostJwtAuthResponseValidation)
    (ctx : JarmDirectPostJwtAuthResponseValidationContext) : M string :=
  let response := response input in
  responseProtectedHeader ← lift (decodeProtectedHeader response);
  if negb (truthy (prop responseProtectedHeader "kid")) then throw MissingKidJwe
  else
    let jwk := {| jwk_kid := prop responseProtectedHeader "kid"; jwk_kty := "auto" |} in
    plaintext ← call (Call_decryptCompact response jwk)
                     (jose_jwe_decryptCompact ctx response jwk);
    mret plaintext.

(** [jarmAuthResponseDirectPostJwtValidate] *)
Definition jarmAuthResponseDirectPostJwtValidate
    (input : JarmDirectPostJwtAuthResponseValidation)
    (ctx : JarmDirectPostJwtAuthResponseValidationContext) : M ValidationResult :=
  let response := response input in
  let responseIsEncrypted := isJwe response in
  decryptedResponse ←
    (if responseIsEncrypted then decryptJarmAuthResponse input ctx else mret response);
  let responseIsSigned := isJws decryptedResponse in
  if negb responseIsEncrypted && negb responseIsSigned then throw NotSignedOrEncrypted
  else
    params ←
      (if responseIsSigned then
         jwsProtectedHeader ← lift (decodeProtectedHeader decryptedResponse);
         jwsPayload ← lift (decodeJwt decryptedResponse);
         let schema := v_required vJarmDirectPostJwtParams ["iss"; "aud"; "exp"] in
         responseParams ← parseJarmAuthResponseParams schema jwsPayload;
         authRequestParams ←
           call (Call_getParams responseParams)
                (openid4vp_authRequest_getParams ctx responseParams);
         if negb (truthy (prop jwsProtectedHeader "kid")) then throw MissingKidJws
         else
           let jwk := {| jwk_kid := prop jwsProtectedHeader "kid"; jwk_kty := "auto" |} in
           _ ← call (Call_verifyJwt decryptedResponse jwk)
                    (jose_jws_verifyJwt ctx decryptedResponse jwk);
           mret (authRequestParams, responseParams)
       else
         jsonResponse ← lift (JSON_parse decryptedResponse);
         authResponseParams ←
           parseJarmAuthResponseParams vJarmDirectPostJwtParams jsonResponse;
         authRequestParams ←
           call (Call_getParams authResponseParams)
                (openid4vp_authRequest_getParams ctx authResponseParams);
         mret (authRequestParams, authResponseParams));
    _ ← call (Call_validateParams params.1 params.2)
             (jarmAuthResponseDirectPostValidateParams params.1 params.2);
    let type :=
      if responseIsSigned && responseIsEncrypted then signed_encrypted
      else if responseIsEncrypted then encrypted
      else signed in
    mret {| authRequestParams := params.1; authResponseParams := params.2; type := type |}.

(** The three stages of [jarmAuthResponseDirectPostJwtValidate], named so
    that statements can refer to them: the [decryptedResponse] constant, and
    the two arms of [if (responseIsSigned)].  Lemma [validate_stages] shows
    that the function is their composition. *)
Definition decryptedResponse
    (input : JarmDirectPostJwtAuthResponseValidation)
    (ctx : JarmDirectPostJwtAuthResponseValidationContext) : M string :=
  if isJwe (response input) then decryptJarmAuthResponse input ctx
  else mret (response input).

Definition signed_arm
    (ctx : JarmDirectPostJwtAuthResponseValidationContext)
    (decryptedResponse : string) : M (jsval * jsval) :=
  jwsProtectedHeader ← lift (decodeProtectedHeader decryptedResponse);
  jwsPayload ← lift (decodeJwt decryptedResponse);
  let schema := v_required vJarmDirectPostJwtParams ["iss"; "aud"; "exp"] in
  responseParams ← parseJarmAuthResponseParams schema jwsPayload;
  authRequestParams ←
    call (Call_getParams responseParams)
         (openid4vp_authRequest_getParams ctx responseParams);
  if negb (truthy (prop jwsProtectedHeader "kid")) then throw MissingKidJws
  else
    let jwk := {| jwk_kid := prop jwsProtectedHeader "kid"; jwk_kty := "auto" |} in
    _ ← call (Call_verifyJwt decryptedResponse jwk)
             (jose_jws_verifyJwt ctx decryptedResponse jwk);
    mret (authRequestParams, responseParams).

Definition plain_arm
    (ctx : JarmDirectPostJwtAuthResponseValidationContext)
    (decryptedResponse : string) : M (jsval * jsval) :=
  jsonResponse ← lift (JSON_parse decryptedResponse);
  authResponseParams ←
    parseJarmAuthResponseParams vJarmDirectPostJwtParams jsonResponse;
  authRequestParams ←
    call (Call_getParams authResponseParams)
         (openid4vp_authRequest_getParams ctx authResponseParams);
  mret (authRequestParams, authResponseParams).

End Jarm.

(** ** String helpers of the crypto package *)

(** The one-character string holding a double quote. *)
Definition dquote : string := String (Ascii.ascii_of_nat 34) EmptyString.

Definition toUpperCase_ascii (c : ascii) : ascii :=
  let n := Ascii.nat_of_ascii c in
  if (97 <=? n)%nat && (n <=? 122)%nat then Ascii.ascii_of_nat (n - 32) else c.

(** [s.toUpperCase()] on the ASCII range. *)
Definition toUpperCase (s : string) : string :=
  String.string_of_list_ascii (toUpperCase_ascii <$> String.list_ascii_of_string s).

(** [s.slice(-n)]: the last [n] characters, the whole string if it is shorter. *)
Definition slice_last (n : nat) (s : string) : string :=
  let cs := String.list_ascii_of_string s in
  String.string_of_list_ascii (drop (length cs - n) cs).

Definition digit_of_ascii (c : ascii) : option Z :=
  let n := Ascii.nat_of_ascii c in
  if (48 <=? n)%nat && (n <=? 57)%nat then Some (Z.of_nat (n - 48)) else None.

Fixpoint parse_digits (cs : list ascii) (acc : option Z) : option Z :=
  match cs with
  | c :: cs' =>
      match digit_of_ascii c with
      | Some d => parse_digits cs' (Some (10 * default 0%Z acc + d)%Z)
      | None => acc
      end
  | [] => acc
  end.

(** [parseInt(s, 10)] on a string without leading white space: an optional
    sign and the longest run of decimal digits; [None] stands for NaN. *)
Definition parseInt10 (s : string) : option Z :=
  match String.list_ascii_of_string s with
  | "-"%char :: cs => Z.opp <$> parse_digits cs None
  | "+"%char :: cs => parse_digits cs None
  | cs => parse_digits cs None
  end.

(** [x || d] for a number [x]: NaN and zero are falsy. *)
Definition number_or (x : option Z) (d : Z) : Z :=
  match x with
  | Some 0%Z | None => d
  | Some z => z
  end.

(** ** PEM export: [genericExport], [toSPKI], [toPKCS8] *)

Abbreviation byte := Byte.byte.

#[global] Instance byte_eq_decision : EqDecision byte := Byte.byte_eq_dec.

Inductive KeyType := public | private | secret.

Definition KeyType_string (t : KeyType) : string :=
  match t with
  | public => "public"
  | private => "private"
  | secret => "secret"
  end.

Inductive KeyFormat := spki | pkcs8.

Record CryptoKey := {
  key_type : KeyType;
  key_extractable : bool;
  key_algorithm : string;
  key_usages : list string;
}.

(** What a caller hands over where a [CryptoKey] is expected. *)
Inductive KeyInput :=
| a_CryptoKey (key : CryptoKey)
| not_a_CryptoKey (value : jsval).

(** The type guard of [webcrypto.js]. *)
Definition isCryptoKey (key : KeyInput) : bool :=
  match key with
  | a_CryptoKey _ => true
  | not_a_CryptoKey _ => false
  end.

Inductive KeyGenAlgorithm :=
| RsaHashedKeyGenParams (name hash : string) (publicExponent : list byte) (modulusLength : jsval)
| EcKeyGenParams (name namedCurve : string)
| KeyAlgorithm (name : string).

Record CryptoKeyPair := { publicKey : CryptoKey; privateKey : CryptoKey }.

(** [ctx.crypto.subtle], as far as these functions use it. *)
Record CryptoContext := {
  subtle_exportKey : KeyFormat → CryptoKey → Result (list byte);
  subtle_generateKey : KeyGenAlgorithm → bool → list string → Result CryptoKeyPair;
}.

Inductive CryptoCall :=
| Call_exportKey (keyFormat : KeyFormat) (key : CryptoKey)
| Call_generateKey (algorithm : KeyGenAlgorithm) (extractable : bool) (keyUsages : list string).

Definition is_exportKey (c : CryptoCall) : bool :=
  match c with Call_exportKey _ _ => true | _ => false end.
Definition is_generateKey (c : CryptoCall) : bool :=
  match c with Call_generateKey _ _ _ => true | _ => false end.

(** The helpers the crypto package imports from [@protokoll/core] and from
    its own modules [format-pem], [invalid-key-input] and [c-crypto], kept
    abstract. *)
Class CryptoImports := {
  uint8ArrayToBase64 : list byte → string;
  formatPEM : string → string → string;
  invalidKeyInput : jsval → list string → string;
  withCryptoContext : option CryptoContext → CryptoContext;
}.

Section PemExport.
Context `{CryptoImports}.

(** [genericExport] *)
Definition genericExport
    (keyType : KeyType) (keyFormat : KeyFormat) (key : KeyInput)
    (_ctx : option CryptoContext) : Traced CryptoCall string :=
  match key with
  | not_a_CryptoKey value => throw (TypeError (invalidKeyInput value ["CryptoKey"]))
  | a_CryptoKey key =>
      if negb (key_extractable key) then throw (TypeError "CryptoKey is not extractable")
      else if negb (String.eqb (KeyType_string (key_type key)) (KeyType_string keyType))
      then throw (TypeError ("key is not a " +:+ KeyType_string keyType +:+ " key"))
      else
        let ctx := withCryptoContext _ctx in
        exported ← call (Call_exportKey keyFormat key) (subtle_exportKey ctx keyFormat key);
        mret (formatPEM (uint8ArrayToBase64 exported)
                        (toUpperCase (KeyType_string keyType) +:+ " KEY"))
  end.

(** [toSPKI] *)
Definition toSPKI (key : KeyInput) (ctx : option CryptoContext) : Traced CryptoCall string :=
  genericExport public spki key ctx.

(** [toPKCS8] *)
Definition toPKCS8 (key : KeyInput) (ctx : option CryptoContext) : Traced CryptoCall string :=
  genericExport public pkcs8 key ctx.

End PemExport.

(** ** Key generation: [getModulusLengthOption], [generateKeyPair] *)

Record GenerateKeyPairOptions := {
  crv : option string;
  extractable : option bool;
  modulusLength : jsval;
}.

Record GenerateKeyPairInput := {
  alg : string;
  options : GenerateKeyPairOptions;
}.

Definition InvalidModulusLength : Error :=
  PlainError
    "Invalid or unsupported modulusLength option provided, 2048 bits or larger keys must be used".

(** [v < n] once [typeof v] is known to be ["number"]. *)
Definition less_than (v : jsval) (n : jsnumber) : bool :=
  match v with
  | JNum x => number_lt x n
  | _ => false
  end.

(** [getModulusLengthOption] *)
Definition getModulusLengthOption (options : option GenerateKeyPairOptions) : Result jsval :=
  let modulusLength :=
    coalesce (from_option modulusLength JUndefined options) (JNum (number_of_N 2048)) in
  if negb (String.eqb (typeof modulusLength) "number")
     || less_than modulusLength (number_of_N 2048)
  then inl InvalidModulusLength
  else inr modulusLength.

(** The algorithms for which [generateKeyPair] reads the modulus length. *)
Definition rsa_algorithms : list string :=
  ["PS256"; "PS384"; "PS512"; "RS256"; "RS384"; "RS512";
   "RSA-OAEP"; "RSA-OAEP-256"; "RSA-OAEP-384"; "RSA-OAEP-512"].

Definition publicExponent_65537 : list byte := [Byte.x01; Byte.x00; Byte.x01].

Section KeyGeneration.
Context `{CryptoImports}.

(** [generateKeyPair] *)
Definition generateKeyPair
    (input : GenerateKeyPairInput) (_ctx : option CryptoContext)
    : Traced CryptoCall CryptoKeyPair :=
  let alg := alg input in
  let extractable := extractable (options input) in
  prepared ← lift (
    if bool_decide (alg ∈ ["PS256"; "PS384"; "PS512"]) then
      modulusLength ← getModulusLengthOption (Some (options input));
      inr (RsaHashedKeyGenParams "RSA-PSS" ("SHA-" +:+ slice_last 3 alg)
             publicExponent_65537 modulusLength,
           ["sign"; "verify"])
    else if bool_decide (alg ∈ ["RS256"; "RS384"; "RS512"]) then
      modulusLength ← getModulusLengthOption (Some (options input));
      inr (RsaHashedKeyGenParams "RSASSA-PKCS1-v1_5" ("SHA-" +:+ slice_last 3 alg)
             publicExponent_65537 modulusLength,
           ["sign"; "verify"])
    else if bool_decide (alg ∈ ["RSA-OAEP"; "RSA-OAEP-256"; "RSA-OAEP-384"; "RSA-OAEP-512"]) then
      modulusLength ← getModulusLengthOption (Some (options input));
      inr (RsaHashedKeyGenParams "RSA-OAEP"
             ("SHA-" +:+ pretty (number_or (parseInt10 (slice_last 3 alg)) 1))
             publicExponent_65537 modulusLength,
           ["decrypt"; "unwrapKey"; "encrypt"; "wrapKey"])
    else if bool_decide (alg = "ES256") then
      inr (EcKeyGenParams "ECDSA" "P-256", ["sign"; "verify"])
    else if bool_decide (alg = "ES384") then
      inr (EcKeyGenParams "ECDSA" "P-384", ["sign"; "verify"])
    else if bool_decide (alg = "ES512") then
      inr (EcKeyGenParams "ECDSA" "P-521", ["sign"; "verify"])
    else if bool_decide (alg = "EdDSA") then
      let crv := default "Ed25519" (crv (options input)) in
      if bool_decide (crv ∈ ["Ed25519"; "Ed448"]) then
        inr (KeyAlgorithm crv, ["sign"; "verify"])
      else inl (PlainError "Invalid or unsupported crv option provided")
    else if bool_decide (alg ∈ ["ECDH-ES"; "ECDH-ES+A128KW"; "ECDH-ES+A192KW"; "ECDH-ES+A256KW"]) then
      let crv := default "P-256" (crv (options input)) in
      if bool_decide (crv ∈ ["P-256"; "P-384"; "P-521"]) then
        inr (EcKeyGenParams "ECDH" crv, ["deriveKey"; "deriveBits"])
      else if bool_decide (crv ∈ ["X25519"; "X448"]) then
        inr (KeyAlgorithm crv, ["deriveKey"; "deriveBits"])
      else
        inl (PlainError
               "Invalid or unsupported crv option provided, supported values are P-256, P-384, P-521, X25519, and X448")
    else
      inl (PlainError
             ("Invalid or unsupported JWK " +:+ dquote +:+ "alg" +:+ dquote
                +:+ " (Algorithm) Parameter value")));
  let '(algorithm, keyUsages) := prepared in
  let ctx := withCryptoContext _ctx in
  call (Call_generateKey algorithm (default false extractable) keyUsages)
       (subtle_generateKey ctx algorithm (default false extractable) keyUsages).

End KeyGeneration.

(** ** The ASN.1 walk: [parseElement], [getElement], [spkiFromX509]

    A [Uint8Array] is a list of bytes.  Reading past its end gives
    [undefined], which the arithmetic of the source turns into 0 under [&]
    and into NaN under [+] and [*]; a NaN is [None] here.

    The numbers of the source are IEEE doubles.  An index into the array
    stays below the length of the array, which is below [2 ^ 53], so that
    counting it up is exact: a [nat].  A length that the octets of an
    element spell is not bounded by the array: it is a binary number, and
    it is rounded to the nearest double, as the source rounds it, whenever
    it is added to. *)

Module Asn1.

(** The double nearest to a natural number, ties to the even significand:
    below [2 ^ 53] the number itself, above it the number rounded to its 53
    leading bits.  (The numbers met here stay below [2 ^ 1024].) *)
Definition round_double (n : N) : N :=
  if (n <? 9007199254740992)%N then n
  else
    let k := (N.log2 n - 52)%N in
    let q := N.shiftr n k in
    let r := N.land n (N.ones k) in
    let half := N.shiftl 1 (k - 1) in
    let up := (half <? r)%N || ((r =? half)%N && N.odd q) in
    N.shiftl (if up then N.succ q else q) k.

(** [x + y] on doubles that are natural numbers *)
Definition double_add (x y : N) : N := round_double (x + y).

(** What an array can hold: fewer than [2 ^ 53] bytes. *)
Definition fits (n : nat) : bool := (N.of_nat n <? 9007199254740992)%N.

(** [bytes[i]] *)
Definition at_ (bytes : list byte) (i : nat) : option nat :=
  Byte.to_nat <$> bytes !! i.

(** [x < n] for a byte that may be [undefined]: [undefined < n] is false. *)
Definition less (x : option nat) (n : nat) : bool :=
  from_option (λ b, b <? n) false x.

(** [bytes.subarray(begin, end)]: both ends are clamped to the array, and a
    NaN end counts as 0. *)
Definition subarray (bytes : list byte) (begin : nat) (end_ : option nat) : list byte :=
  take (default 0 end_ - begin) (drop begin bytes).

(** An end that was computed from such a length, as an index: [subarray]
    clamps it to the array. *)
Definition clamped (bytes : list byte) (end_ : option N) : option nat :=
  (λ e, N.to_nat (N.min e (N.of_nat (length bytes)))) <$> end_.

Record Element := {
  byteLength : option N;
  contents : list byte;
  raw : list byte;
}.

(** The loop [while (bytes[position] >= 0x80)] of a multi-byte tag, run over
    the bytes from [position] on. *)
Fixpoint tag_loop (rest : list byte) (tag : option Z) (position : nat) : option Z * nat :=
  match rest with
  | b :: rest' =>
      if 0x80 <=? Byte.to_nat b
      then tag_loop rest' ((λ t, t * 128 + Z.of_nat (Byte.to_nat b) - 0x80)%Z <$> tag)
                    (S position)
      else (tag, position)
  | [] => (tag, position)
  end.

(** The tag part of [parseElement]: the tag number and the position after it.
    The tag number is computed and then never used. *)
Definition parse_tag (bytes : list byte) : option Z * nat :=
  let tag := Z.of_nat (Nat.land (default 0 (at_ bytes 0)) 0x1f) in
  let position := 1 in
  if bool_decide (tag = 0x1f%Z) then
    let '(tag, position) := tag_loop (drop position bytes) (Some 0%Z) position in
    let tag := (t ← tag; b ← at_ bytes position; Some (t * 128 + Z.of_nat b - 0x80)%Z) in
    (tag, S position)
  else (Some tag, position).

(** The loop [for (let i = 0; i < numberOfDigits; i++)] of a long-form
    length: [length = length * 256 + bytes[position]], where the product is
    exact and the sum is rounded. *)
Fixpoint length_loop (numberOfDigits : nat) (bytes : list byte)
    (length : option N) (position : nat) : option N * nat :=
  match numberOfDigits with
  | 0 => (length, position)
  | S n =>
      length_loop n bytes
        (l ← length; b ← at_ bytes position; Some (double_add (l * 256) (N.of_nat b)))
        (S position)
  end.

(** The loop of the indefinite form, which looks for two zero bytes and
    throws once [length] exceeds the array; at most [byteLength + 2] rounds. *)
Fixpoint indefinite_loop (rounds : nat) (bytes : list byte) (position length : nat)
    : Result nat :=
  if bool_decide (at_ bytes (position + length) ≠ Some 0
                  ∨ at_ bytes (position + length + 1) ≠ Some 0)
  then
    if bool_decide (Datatypes.length bytes < length)
    then inl (TypeError "invalid indefinite form length")
    else
      match rounds with
      | 0 => inl (Thrown "parseElement: out of rounds")
      | S rounds' => indefinite_loop rounds' bytes position (S length)
      end
  else inr length.

(** [parseElement] *)
Definition parseElement (bytes : list byte) : Result Element :=
  let '(_, position) := parse_tag bytes in
  let length := 0 in
  if less (at_ bytes position) 0x80 then
    let length := N.of_nat (default 0 (at_ bytes position)) in
    let position := S position in
    let byteLength := double_add (N.of_nat position) length in
    inr {| byteLength := Some byteLength;
           contents := subarray bytes position (clamped bytes (Some byteLength));
           raw := subarray bytes 0 (clamped bytes (Some byteLength)) |}
  else if bool_decide (length = 0x80) then
    length ← indefinite_loop (Datatypes.length bytes + 2) bytes position 0;
    let byteLength := position + length + 2 in
    inr {| byteLength := Some (N.of_nat byteLength);
           contents := subarray bytes position (Some (position + length));
           raw := subarray bytes 0 (Some byteLength) |}
  else
    let numberOfDigits := Nat.land (default 0 (at_ bytes position)) 0x7f in
    let position := S position in
    let '(length, position) := length_loop numberOfDigits bytes (Some 0%N) position in
    let byteLength := (λ l, double_add (N.of_nat position) l) <$> length in
    inr {| byteLength := byteLength;
           contents := subarray bytes position (clamped bytes byteLength);
           raw := subarray bytes 0 (clamped bytes byteLength) |}.

(** The loop of [getElement].  Every element is at least two bytes long, so
    [length seq] rounds are enough (lemma [getElement_rounds] below); a NaN
    [next] ends the loop, as [NaN < seq.length] is false.  [next] is an
    index as long as the loop runs; the sum that takes it to [2 ^ 53] or
    beyond ends the loop whether it is rounded or not (lemma
    [next_sum_rounding] below), so it is kept as it is. *)
Fixpoint getElement_loop (rounds : nat) (seq : list byte) (next : N)
    (result : list Element) : Result (list Element) :=
  if (next <? N.of_nat (length seq))%N then
    match rounds with
    | 0 => inl (Thrown "getElement: out of rounds")
    | S rounds' =>
        nextPart ← parseElement (drop (N.to_nat next) seq);
        match byteLength nextPart with
        | Some n => getElement_loop rounds' seq (next + n)%N (result ++ [nextPart])
        | None => inr (result ++ [nextPart])
        end
    end
  else inr result.

(** [getElement] *)
Definition getElement (seq : list byte) : Result (list Element) :=
  getElement_loop (length seq) seq 0%N [].

Definition undefined_property (name : string) : Error :=
  TypeError ("Cannot read properties of undefined (reading '" +:+ name +:+ "')").

Section X509.
Context `{CryptoImports}.

(** [spkiFromX509] *)
Definition spkiFromX509 (buf : list byte) : Result string :=
  outer ← parseElement buf;
  elements ← getElement (contents outer);
  match elements !! 0 with
  | None => inl (undefined_property "contents")
  | Some element =>
      tbsCertificate ← getElement (contents element);
      match tbsCertificate !! 0 with
      | None => inl (undefined_property "raw")
      | Some first =>
          let index := if bool_decide (at_ (raw first) 0 = Some 0xa0) then 6 else 5 in
          match tbsCertificate !! index with
          | None => inl (undefined_property "raw")
          | Some subjectPublicKeyInfo => inr (uint8ArrayToBase64 (raw subjectPublicKeyInfo))
          end
      end
  end.

End X509.

End Asn1.

(** ** Definite-length encodings, against which the ASN.1 walk is stated

    A TLV as it lies on the wire: identifier octets, length octets (one
    octet below 128, or [0x80 + k] followed by [k] big-endian digits) and the
    value.  DER is the special case that takes the shortest length octets. *)

Module Der.

Inductive LengthForm :=
| short
| long (digits : list byte).

Record Tlv := {
  identifier : list byte;
  form : LengthForm;
  value : list byte;
}.

Definition byte_of_nat (n : nat) : byte := default Byte.x00 (Byte.of_nat n).

(** The number a run of big-endian base-256 digits spells. *)
Definition be_value (digits : list byte) : nat :=
  foldl (λ acc d, acc * 256 + Byte.to_nat d) 0 digits.

Definition length_octets (e : Tlv) : list byte :=
  match form e with
  | short => [byte_of_nat (length (value e))]
  | long digits => byte_of_nat (0x80 + length digits) :: digits
  end.

Definition encode (e : Tlv) : list byte :=
  identifier e ++ length_octets e ++ value e.

(** One identifier octet whose low five bits are not all set, or the
    high-tag-number form: a first octet with the five bits set, then octets
    with the top bit set, then one without. *)
Definition wf_identifier (octets : list byte) : bool :=
  match octets with
  | [] => false
  | [b] => negb (Nat.land (Byte.to_nat b) 0x1f =? 0x1f)
  | b :: more =>
      (Nat.land (Byte.to_nat b) 0x1f =? 0x1f)
      && forallb (λ m, 0x80 <=? Byte.to_nat m) (removelast more)
      && (Byte.to_nat (List.last more Byte.x00) <? 0x80)
  end.

Definition wf_length (e : Tlv) : bool :=
  match form e with
  | short => length (value e) <? 0x80
  | long digits => (length digits <? 0x80) && (be_value digits =? length (value e))
  end.

(** A TLV is well-formed when its identifier and its length octets are, and
    its encoding is one an array can hold. *)
Definition wf (e : Tlv) : bool :=
  wf_identifier (identifier e) && wf_length e && Asn1.fits (length (encode e)).

(** What [parseElement] is expected to make of an encoded TLV. *)
Definition element_of (e : Tlv) : Asn1.Element := {|
  Asn1.byteLength := Some (N.of_nat (length (encode e)));
  Asn1.contents := value e;
  Asn1.raw := encode e;
|}.

(** The base-256 digits of [n], most significant first; [rounds] bounds the
    number of digits. *)
Fixpoint digits_of (rounds n : nat) (acc : list byte) : list byte :=
  match rounds with
  | 0 => acc
  | S rounds' =>
      if n =? 0 then acc
      else digits_of rounds' (n / 256) (byte_of_nat (n `mod` 256) :: acc)
  end.

(** The length form DER prescribes: the short one below 128, else the
    long one with the fewest digits. *)
Definition der_form (n : nat) : LengthForm :=
  if n <? 0x80 then short else long (digits_of n n []).

Definition der (identifier value : list byte) : Tlv :=
  {| identifier := identifier; form := der_form (length value); value := value |}.

(** A stand-in for a certificate: [tbsCertificate] with an explicit version,
    six more fields of which the last one, 143 bytes long, plays the
    SubjectPublicKeyInfo, then the signature algorithm and the signature. *)
Definition SEQUENCE : list byte := [Byte.x30].

Definition sample_version : Tlv := der [Byte.xa0] [Byte.x02; Byte.x01; Byte.x02].
Definition sample_spki : Tlv := der SEQUENCE (Byte.x03 :: replicate 139 Byte.x5a).

Definition sample_fields : list Tlv :=
  [sample_version; der [Byte.x02] [Byte.x2a]; der SEQUENCE []; der SEQUENCE [];
   der SEQUENCE []; der SEQUENCE []; sample_spki; der [Byte.xa3] [Byte.x30; Byte.x00]].

Definition sample_others : list Tlv :=
  [der SEQUENCE []; der [Byte.x03] [Byte.x00; Byte.xff]].

Definition sample_tbs : Tlv := der SEQUENCE (concat (encode <$> sample_fields)).

Definition sample_certificate : Tlv :=
  der SEQUENCE (encode sample_tbs ++ concat (encode <$> sample_others)).

(** The same without the version: a version 1 certificate. *)
Definition sample_tbs_v1 : Tlv := der SEQUENCE (concat (encode <$> drop 1 sample_fields)).

Definition sample_certificate_v1 : Tlv :=
  der SEQUENCE (encode sample_tbs_v1 ++ concat (encode <$> sample_others)).

End Der.

(** ** A test double of the imports and of the host

    Concrete stand-ins on which the functions can be run.  The compact
    serialisations are told apart by their number of dot-separated segments;
    headers, payloads and plaintexts are looked up in small tables, the way
    the test suite resolves its keys. *)

Module Fixture.

Fixpoint segments_from (cs : list ascii) (current : list ascii) : list string :=
  match cs with
  | [] => [String.string_of_list_ascii (reverse current)]
  | c :: cs' =>
      if Ascii.eqb c "."%char
      then String.string_of_list_ascii (reverse current) :: segments_from cs' []
      else segments_from cs' (c :: current)
  end.

(** [s.split('.')] *)
Definition segments (s : string) : list string :=
  segments_from (String.list_ascii_of_string s) [].

(** Modelled from the spec: [isJwe] and [isJws] of [@protokoll/jose], "5
    base64url segments → JWE", "3 base64url segments → JWS". *)
Definition spec_isJwe (s : string) : bool := bool_decide (length (segments s) = 5).
Definition spec_isJws (s : string) : bool := bool_decide (length (segments s) = 3).

Definition obj (members : list (string * jsval)) : jsval := JObj (list_to_map members).

Definition header_with_kid : jsval := obj [("alg", JStr "ES256"); ("kid", JStr "rp-key")].
Definition header_without_kid : jsval := obj [("alg", JStr "ES256")].
Definition jwe_header : jsval :=
  obj [("alg", JStr "ECDH-ES"); ("enc", JStr "A256GCM"); ("kid", JStr "reader-key")].

Definition mdl_response : list (string * jsval) :=
  [("vp_token", JStr "o2d2ZXJzaW9uYzEuMA"); ("presentation_submission", obj []);
   ("state", JStr "s-1")].

Definition jwt_claims : list (string * jsval) :=
  [("iss", JStr "https://example-issuer.com");
   ("aud", JStr "https://example-relying-party.com");
   ("exp", JNum (number_of_N 9999999999))].

Definition payload_full : jsval := obj (jwt_claims ++ mdl_response).
Definition payload_plain : jsval := obj mdl_response.
Definition payload_no_iss : jsval := obj (drop 1 jwt_claims ++ mdl_response).
Definition payload_other_state : jsval :=
  obj (jwt_claims ++ [("vp_token", JStr "o2d2"); ("presentation_submission", obj []);
                      ("state", JStr "s-2")]).
Definition payload_error : jsval :=
  obj [("error", JStr "access_denied"); ("state", JStr "s-1")].

Definition first_segment (s : string) : string := default "" (segments s !! 0).
Definition second_segment (s : string) : string := default "" (segments s !! 1).

Definition jose : JoseImports := {|
  isJwe := spec_isJwe;
  isJws := spec_isJws;
  decodeProtectedHeader s :=
    if String.eqb (first_segment s) "hK" then inr header_with_kid
    else if String.eqb (first_segment s) "hN" then inr header_without_kid
    else if String.eqb (first_segment s) "hE" then inr jwe_header
    else inl (Thrown "Invalid Token or Protected Header formatting");
  decodeJwt s :=
    if String.eqb (second_segment s) "pF" then inr payload_full
    else if String.eqb (second_segment s) "pI" then inr payload_no_iss
    else if String.eqb (second_segment s) "pS" then inr payload_other_state
    else if String.eqb (second_segment s) "pX" then inr payload_error
    else inl (Thrown "Invalid JWT");
|}.

Definition json : JsonBuiltins := {|
  JSON_parse s :=
    if String.eqb s "{plain}" then inr payload_plain
    else if String.eqb s "{error}" then inr payload_error
    else inl (Thrown "SyntaxError");
  JSON_stringify _ := "{...}";
  js_toString _ := "[object Object]";
|}.

(** Modelled from the spec: the two schema constants.  [vJarmAuthResponse]
    carries the request/response binding members "state, iss, aud, exp";
    the error shape carries "error, error_description, …". *)
Definition schemas : JarmSchemas := {|
  vJarmAuthResponseErrorParams :=
    v_looseObject (list_to_map
      [("error", v_string); ("state", v_optional v_string);
       ("error_description", v_optional v_string);
       ("error_uri", v_optional v_string)]);
  vJarmAuthResponse :=
    v_looseObject (list_to_map
      [("state", v_optional v_string); ("iss", v_string);
       ("exp", v_number); ("aud", v_string)]);
|}.

Definition jwe_signed : string := "hE.k.iv.signed.tag".
Definition jwe_plain : string := "hE.k.iv.plain.tag".
Definition jws_ok : string := "hK.pF.sig".
Definition jws_no_kid : string := "hN.pS.sig".
Definition jws_other_state : string := "hK.pS.sig".
Definition jws_no_iss : string := "hK.pI.sig".
Definition jws_error : string := "hK.pX.sig".

(** The host: one decryption key, one verification key, one pending request
    whose [state] is ["s-1"]. *)
Definition auth_request : jsval :=
  obj [("state", JStr "s-1"); ("client_id", JStr "rp"); ("response_type", JStr "vp_token")].

Definition ctx : JarmDirectPostJwtAuthResponseValidationContext := {|
  jose_jwe_decryptCompact jwe jwk :=
    if strict_equal (jwk_kid jwk) (JStr "reader-key") && String.eqb (jwk_kty jwk) "auto"
    then
      if String.eqb jwe jwe_signed then inr jws_ok
      else if String.eqb jwe jwe_plain then inr "{plain}"
      else inl (Thrown "decryption failed")
    else inl (PlainError "Received an invalid jwk.");
  jose_jws_verifyJwt jws jwk :=
    if strict_equal (jwk_kid jwk) (JStr "rp-key") && String.eqb (jwk_kty jwk) "auto"
    then inr ()
    else inl (PlainError "Received an invalid jwk.");
  openid4vp_authRequest_getParams _ := inr auth_request;
|}.

(** Modelled from the spec: the two imports from
    [v-jarm-direct-post-jwt-auth-response-params.ts].  The spec has the
    plain-JSON path parse the parameters without the strict [iss], [aud],
    [exp], and has the validation enforce "authRequest.state ===
    authResponse.state (mismatch → StateMismatch)": these are the schema
    [vJarmAuthResponseEncrypted] and the check
    [jarmAuthResponseEncryptedValidate] of the sources. *)
Definition direct_post : DirectPostImports := {|
  vJarmDirectPostJwtParams := @vJarmAuthResponseEncrypted schemas;
  jarmAuthResponseDirectPostValidateParams := @jarmAuthResponseEncryptedValidate json;
|}.

(** The schema of the signed path. *)
Definition strict : object_schema :=
  v_required (@vJarmAuthResponseEncrypted schemas) ["iss"; "aud"; "exp"].

Definition validate (response : string) : M ValidationResult :=
  @jarmAuthResponseDirectPostJwtValidate jose json schemas direct_post
    {| response := response |} ctx.

(** A run at a glance: the names of the calls, and the returned [type] or the
    exception. *)
Definition call_name (c : Call) : string :=
  match c with
  | Call_decryptCompact _ _ => "decryptCompact"
  | Call_verifyJwt _ _ => "verifyJwt"
  | Call_getParams _ => "getParams"
  | Call_v_parse _ _ => "v.parse"
  | Call_validateParams _ _ => "validateParams"
  end.

Definition summary (run : M ValidationResult) : list string * Result string :=
  (call_name <$> trace run,
   match outcome run with
   | inl e => inl e
   | inr r => inr (ResponseType_string (type r))
   end).

End Fixture.

(** ** Stand-ins for the helpers the crypto package imports *)

Module CryptoFixture.

Definition base64_alphabet : list ascii :=
  String.list_ascii_of_string
    "ABCDEFGHIJKLMNOPQRSTUVWXYZabcdefghijklmnopqrstuvwxyz0123456789+/".

Definition sextet (n : nat) : ascii := default "="%char (base64_alphabet !! n).

Fixpoint base64_chars (bytes : list nat) : list ascii :=
  match bytes with
  | [] => []
  | [a] => [sextet (a / 4); sextet (a `mod` 4 * 16); "="%char; "="%char]
  | [a; b] =>
      [sextet (a / 4); sextet (a `mod` 4 * 16 + b / 16); sextet (b `mod` 16 * 4); "="%char]
  | a :: b :: c :: rest =>
      sextet (a / 4) :: sextet (a `mod` 4 * 16 + b / 16)
        :: sextet (b `mod` 16 * 4 + c / 64) :: sextet (c `mod` 64)
        :: base64_chars rest
  end.

(** Modelled from the spec: [uint8ArrayToBase64] of [@protokoll/core], the
    standard base64 alphabet with padding. *)
Definition base64 (bytes : list byte) : string :=
  String.string_of_list_ascii (base64_chars (Byte.to_nat <$> bytes)).

Definition newline : string := String (Ascii.ascii_of_nat 10) EmptyString.

Definition imports : CryptoImports := {|
  uint8ArrayToBase64 := base64;
  formatPEM b64 descriptor :=
    "-----BEGIN " +:+ descriptor +:+ "-----" +:+ newline +:+ b64 +:+ newline
      +:+ "-----END " +:+ descriptor +:+ "-----";
  invalidKeyInput _ types := "Key must be of type " +:+ default "" (types !! 0) +:+ ".";
  withCryptoContext ctx :=
    default {| subtle_exportKey _ _ := inl (Thrown "NotSupportedError");
               subtle_generateKey _ _ _ := inl (Thrown "NotSupportedError") |} ctx;
|}.

Definition rsa_private (extractable : bool) : CryptoKey := {|
  key_type := private;
  key_extractable := extractable;
  key_algorithm := "RSASSA-PKCS1-v1_5";
  key_usages := ["sign"];
|}.

Definition rsa_public : CryptoKey := {|
  key_type := public;
  key_extractable := true;
  key_algorithm := "RSASSA-PKCS1-v1_5";
  key_usages := ["verify"];
|}.

(** A [subtle] that exports three bytes for any key and hands out the same
    key pair for any algorithm. *)
Definition ctx : CryptoContext := {|
  subtle_exportKey _ _ := inr [Byte.x30; Byte.x82; Byte.x01];
  subtle_generateKey _ _ _ :=
    inr {| publicKey := rsa_public; privateKey := rsa_private false |};
|}.

Definition rs256 (modulusLength : jsval) : GenerateKeyPairInput := {|
  alg := "RS256";
  options := {| crv := None; extractable := None; modulusLength := modulusLength |};
|}.

End CryptoFixture.

(** ** PEM import: [findOid], [getNamedCurve], [genericImport], [fromPKCS8],
    [fromSPKI], [getSPKI], [fromX509] *)

Module PemImport.

(** [keyData.indexOf(x, from)]: the first index from [from] on that holds
    [x]; an [undefined] [x] is found nowhere. *)
Definition indexOf (keyData : list byte) (x : option nat) (from : nat) : option nat :=
  found ← list_find (λ b, Some (Byte.to_nat b) = x) (drop from keyData);
  Some (from + found.1).

(** [findOid], with the number of recursive calls bounded by [rounds]; each
    call starts its search behind the index the previous one found, so
    [keyData.length] rounds are never used up (theorem [findOid_occurs]).
    The call with [from === 0] prepends the tag [0x06] and the length to
    [oid]; the recursive calls, with [from > 0], see that longer array. *)
Fixpoint findOid_rounds (rounds : nat) (keyData : list byte) (oid : list nat) (from : nat)
    : bool :=
  let oid := if bool_decide (from = 0) then 0x06 :: length oid :: oid else oid in
  match indexOf keyData (oid !! 0) from with
  | None => false
  | Some i =>
      let sub := Asn1.subarray keyData i (Some (i + length oid)) in
      if negb (length sub =? length oid) then false
      else
        bool_decide (Byte.to_nat <$> sub = oid)
        || match rounds with
           | 0 => false
           | S rounds' => findOid_rounds rounds' keyData oid (i + 1)
           end
  end.

Definition findOid (keyData : list byte) (oid : list nat) : bool :=
  findOid_rounds (length keyData) keyData oid 0.

(** Against which [findOid] is stated: the DER encoding of an object
    identifier, and its occurrence as a run of consecutive bytes. *)
Definition der_oid (oid : list nat) : list nat := 0x06 :: length oid :: oid.

Definition occurs (pattern : list nat) (keyData : list byte) : Prop :=
  ∃ before after, Byte.to_nat <$> keyData = before ++ pattern ++ after.

(** The pattern matches at index [i]. *)
Definition match_at (keyData : list byte) (i : nat) (pattern : list nat) : Prop :=
  Byte.to_nat <$> take (length pattern) (drop i keyData) = pattern.

(** The curves [getNamedCurve] knows, with their object identifiers, in the
    order of its [case]s. *)
Definition named_curves : list (string * list nat) :=
  [("P-256", [0x2a; 0x86; 0x48; 0xce; 0x3d; 0x03; 0x01; 0x07]);
   ("P-384", [0x2b; 0x81; 0x04; 0x00; 0x22]);
   ("P-521", [0x2b; 0x81; 0x04; 0x00; 0x23]);
   ("X25519", [0x2b; 0x65; 0x6e]);
   ("X448", [0x2b; 0x65; 0x6f]);
   ("Ed25519", [0x2b; 0x65; 0x70]);
   ("Ed448", [0x2b; 0x65; 0x71])].

(** [getNamedCurve]: the cases of [switch (true)] are tried in order. *)
Definition getNamedCurve (keyData : list byte) : Result string :=
  if findOid keyData [0x2a; 0x86; 0x48; 0xce; 0x3d; 0x03; 0x01; 0x07] then inr "P-256"
  else if findOid keyData [0x2b; 0x81; 0x04; 0x00; 0x22] then inr "P-384"
  else if findOid keyData [0x2b; 0x81; 0x04; 0x00; 0x23] then inr "P-521"
  else if findOid keyData [0x2b; 0x65; 0x6e] then inr "X25519"
  else if findOid keyData [0x2b; 0x65; 0x6f] then inr "X448"
  else if findOid keyData [0x2b; 0x65; 0x70] then inr "Ed25519"
  else if findOid keyData [0x2b; 0x65; 0x71] then inr "Ed448"
  else inl (PlainError "Invalid or unsupported EC Key Curve or OKP Key Sub Type").

(** [\s] on code units below 256: tab, line feed, vertical tab, form feed,
    carriage return, space and no-break space. *)
Definition is_space (c : ascii) : bool :=
  let n := Ascii.nat_of_ascii c in
  ((9 <=? n) && (n <=? 13)) || (n =? 32) || (n =? 160).

Definition BEGIN (label : string) : string := "-----BEGIN " +:+ label +:+ "-----".
Definition END_ (label : string) : string := "-----END " +:+ label +:+ "-----".

(** The scan of [.replace(/(?:-----(?:BEGIN|END) LABEL-----|\s)/g, '')]:
    at each position a marker is dropped whole, else a white-space character
    is dropped, else the character is kept; [skip] counts the characters of
    a marker that are still to be dropped. *)
Fixpoint strip_from (label : string) (s : string) (skip : nat) : string :=
  match s with
  | EmptyString => EmptyString
  | String c s' =>
      match skip with
      | S skip' => strip_from label s' skip'
      | 0 =>
          if String.prefix (BEGIN label) s
          then strip_from label s' (String.length (BEGIN label) - 1)
          else if String.prefix (END_ label) s
          then strip_from label s' (String.length (END_ label) - 1)
          else if is_space c then strip_from label s' 0
          else String c (strip_from label s' 0)
      end
  end.

(** [pem.replace(/(?:-----(?:BEGIN|END) LABEL-----|\s)/g, '')] *)
Definition strip (label : string) (pem : string) : string := strip_from label pem 0.

(** Against which [strip] is stated: the string without its white space. *)
Fixpoint remove_space (s : string) : string :=
  match s with
  | EmptyString => EmptyString
  | String c s' => if is_space c then remove_space s' else String c (remove_space s')
  end.

#[global] Instance KeyFormat_eq_decision : EqDecision KeyFormat.
Proof. solve_decision. Defined.

Inductive ImportAlgorithm :=
| RsaHashedImportParams (name hash : string)
| EcKeyAlgorithm (name namedCurve : string)
| Algorithm (name : string).

(** [ctx.crypto.subtle.importKey] *)
Record ImportContext := {
  subtle_importKey :
    KeyFormat → list byte → ImportAlgorithm → bool → list string → Result CryptoKey;
}.

Inductive ImportCall :=
| Call_importKey (keyFormat : KeyFormat) (keyData : list byte)
    (algorithm : ImportAlgorithm) (extractable : bool) (keyUsages : list string).

(** The builtin [atob], [base64ToUint8Array] of [@protokoll/core], and
    [withCryptoContext] on the [importKey] side, kept abstract. *)
Class ImportImports := {
  atob : string → Result string;
  base64ToUint8Array : string → Result (list byte);
  withImportContext : option ImportContext → ImportContext;
}.

(** [binary.split('').map(c => c.charCodeAt(0))] into a [Uint8Array] *)
Definition charCodes (binary : string) : list byte :=
  Ascii.byte_of_ascii <$> String.list_ascii_of_string binary.

Definition UnsupportedAlg : Error :=
  PlainError ("Invalid or unsupported " +:+ dquote +:+ "alg" +:+ dquote
                +:+ " (Algorithm) value").

(** Against which [genericImport] is stated: the [case] labels of its
    [switch], those of them that read the curve off the key data, and the
    key usages a public and a private key can be imported with. *)
Definition import_algorithms : list string :=
  ["PS256"; "PS384"; "PS512"; "RS256"; "RS384"; "RS512";
   "RSA-OAEP"; "RSA-OAEP-256"; "RSA-OAEP-384"; "RSA-OAEP-512";
   "ES256"; "ES384"; "ES512";
   "ECDH-ES"; "ECDH-ES+A128KW"; "ECDH-ES+A192KW"; "ECDH-ES+A256KW"; "EdDSA"].

Definition curve_algorithms : list string :=
  ["ECDH-ES"; "ECDH-ES+A128KW"; "ECDH-ES+A192KW"; "ECDH-ES+A256KW"; "EdDSA"].

Definition public_usages : list string := ["verify"; "encrypt"; "wrapKey"].
Definition private_usages : list string := ["sign"; "decrypt"; "unwrapKey"; "deriveBits"].

Definition usages_of (keyFormat : KeyFormat) : list string :=
  match keyFormat with spki => public_usages | pkcs8 => private_usages end.

(** [s.startsWith('P-')] *)
Definition startsWith_P (s : string) : bool := String.prefix "P-" s.

Record ImportInput := {
  pem : string;
  alg : string;
  extractable : option bool;
}.

Section Importing.
Context `{ImportImports}.

(** [genericImport]; [replace] is the label inside the regular expression. *)
Definition genericImport
    (input : ImportInput) (replace : string) (keyFormat : KeyFormat)
    (_ctx : option ImportContext) : Traced ImportCall CryptoKey :=
  let alg := alg input in
  binary ← lift (atob (strip replace (pem input)));
  let keyData := charCodes binary in
  let isPublic := bool_decide (keyFormat = spki) in
  prepared ← lift (
    if bool_decide (alg ∈ ["PS256"; "PS384"; "PS512"]) then
      inr (RsaHashedImportParams "RSA-PSS" ("SHA-" +:+ slice_last 3 alg),
           if isPublic then ["verify"] else ["sign"])
    else if bool_decide (alg ∈ ["RS256"; "RS384"; "RS512"]) then
      inr (RsaHashedImportParams "RSASSA-PKCS1-v1_5" ("SHA-" +:+ slice_last 3 alg),
           if isPublic then ["verify"] else ["sign"])
    else if bool_decide (alg ∈ ["RSA-OAEP"; "RSA-OAEP-256"; "RSA-OAEP-384"; "RSA-OAEP-512"]) then
      inr (RsaHashedImportParams "RSA-OAEP"
             ("SHA-" +:+ pretty (number_or (parseInt10 (slice_last 3 alg)) 1)),
           if isPublic then ["encrypt"; "wrapKey"] else ["decrypt"; "unwrapKey"])
    else if bool_decide (alg = "ES256") then
      inr (EcKeyAlgorithm "ECDSA" "P-256", if isPublic then ["verify"] else ["sign"])
    else if bool_decide (alg = "ES384") then
      inr (EcKeyAlgorithm "ECDSA" "P-384", if isPublic then ["verify"] else ["sign"])
    else if bool_decide (alg = "ES512") then
      inr (EcKeyAlgorithm "ECDSA" "P-521", if isPublic then ["verify"] else ["sign"])
    else if bool_decide (alg ∈ ["ECDH-ES"; "ECDH-ES+A128KW"; "ECDH-ES+A192KW"; "ECDH-ES+A256KW"]) then
      namedCurve ← getNamedCurve keyData;
      inr (if startsWith_P namedCurve then EcKeyAlgorithm "ECDH" namedCurve
           else Algorithm namedCurve,
           if isPublic then [] else ["deriveBits"])
    else if bool_decide (alg = "EdDSA") then
      namedCurve ← getNamedCurve keyData;
      inr (Algorithm namedCurve, if isPublic then ["verify"] else ["sign"])
    else inl UnsupportedAlg);
  let '(algorithm, keyUsages) := prepared in
  let ctx := withImportContext _ctx in
  call (Call_importKey keyFormat keyData algorithm (default false (extractable input)) keyUsages)
       (subtle_importKey ctx keyFormat keyData algorithm
          (default false (extractable input)) keyUsages).

(** [fromPKCS8] *)
Definition fromPKCS8 (input : ImportInput) (ctx : option ImportContext)
    : Traced ImportCall CryptoKey :=
  genericImport input "PRIVATE KEY" pkcs8 ctx.

(** [fromSPKI] *)
Definition fromSPKI (input : ImportInput) (ctx : option ImportContext)
    : Traced ImportCall CryptoKey :=
  genericImport input "PUBLIC KEY" spki ctx.

Context `{CryptoImports}.

(** [getSPKI] *)
Definition getSPKI (x509 : string) : Result string :=
  let pem := strip "CERTIFICATE" x509 in
  raw ← base64ToUint8Array pem;
  subjectPublicKeyInfo ← Asn1.spkiFromX509 raw;
  inr (formatPEM subjectPublicKeyInfo "PUBLIC KEY").

(** What [fromX509] throws from its [catch]:
    [new Error('Failed to parse the X.509 certificate', { cause })]. *)
Record ParseFailure := FailedToParse { cause : Error }.

Definition ParseFailure_message (_ : ParseFailure) : string :=
  "Failed to parse the X.509 certificate".

(** [fromX509]: the left summand is the exception of the [catch]; what
    [fromSPKI] throws is not caught. *)
Definition fromX509 (input : ImportInput) (ctx : option ImportContext)
    : ParseFailure + Traced ImportCall CryptoKey :=
  match getSPKI (pem input) with
  | inl cause => inl (FailedToParse cause)
  | inr spkiPem =>
      inr (fromSPKI {| pem := spkiPem; alg := alg input; extractable := extractable input |}
                    ctx)
  end.

End Importing.

End PemImport.

(** ** Secrets: [generateSecret] *)

Module Secret.

Inductive SecretAlgorithm :=
| HmacKeyGenParams (name hash : string) (length : option Z)
| AesKeyGenParams (name : string) (length : option Z).

(** [ctx.crypto.subtle.generateKey] for a secret key, and the global
    [crypto.getRandomValues]. *)
Record SecretContext := {
  subtle_generateKey : SecretAlgorithm → bool → list string → Result CryptoKey;
}.

Class GlobalCrypto := {
  getRandomValues : list byte → list byte;
}.

Inductive SecretCall :=
| Call_generateKey (algorithm : SecretAlgorithm) (extractable : bool) (keyUsages : list string)
| Call_getRandomValues (array : list byte).

Definition is_generateKey (c : SecretCall) : bool :=
  match c with Call_generateKey _ _ _ => true | _ => false end.

Inductive SecretValue :=
| random_bytes (bytes : list byte)
| secret_key (key : CryptoKey).

(** [s.slice(1, 4)] *)
Definition slice_1_4 (s : string) : string := String.substring 1 3 s.

(** How a template literal spells a number; [None] is NaN. *)
Definition number_template (x : option Z) : string := from_option pretty "NaN" x.

(** [x >> 3] as an array length; NaN shifts to 0. *)
Definition shift_right_3 (x : option Z) : nat := Z.to_nat (Z.shiftr (default 0%Z x) 3).

Record SecretInput := {
  alg : string;
  extractable : option bool;
}.

Definition UnsupportedJwkAlg : Error :=
  PlainError ("Invalid or unsupported JWK " +:+ dquote +:+ "alg" +:+ dquote
                +:+ " (Algorithm) Parameter value").

(** Against which [generateSecret] is stated: the [case] labels of its
    [switch], and the number of random bytes of the three that return
    bytes. *)
Definition secret_algorithms : list string :=
  ["HS256"; "HS384"; "HS512";
   "A128CBC-HS256"; "A192CBC-HS384"; "A256CBC-HS512";
   "A128KW"; "A192KW"; "A256KW";
   "A128GCMKW"; "A192GCMKW"; "A256GCMKW"; "A128GCM"; "A192GCM"; "A256GCM"].

Definition cbc_key_bytes : list (string * nat) :=
  [("A128CBC-HS256", 32); ("A192CBC-HS384", 48); ("A256CBC-HS512", 64)].

Section Secrets.
Context `{GlobalCrypto}.

(** [generateSecret] *)
Definition generateSecret (input : SecretInput) (ctx : SecretContext)
    : Traced SecretCall SecretValue :=
  let alg := alg input in
  let generate algorithm keyUsages : Traced SecretCall SecretValue :=
    key ← call (Call_generateKey algorithm (default false (extractable input)) keyUsages)
               (subtle_generateKey ctx algorithm (default false (extractable input))
                  keyUsages);
    mret (secret_key key) in
  if bool_decide (alg ∈ ["HS256"; "HS384"; "HS512"]) then
    let length := parseInt10 (slice_last 3 alg) in
    generate (HmacKeyGenParams "HMAC" ("SHA-" +:+ number_template length) length)
             ["sign"; "verify"]
  else if bool_decide (alg ∈ ["A128CBC-HS256"; "A192CBC-HS384"; "A256CBC-HS512"]) then
    let length := parseInt10 (slice_last 3 alg) in
    let array := replicate (shift_right_3 length) Byte.x00 in
    call (Call_getRandomValues array) (inr (random_bytes (getRandomValues array)))
  else if bool_decide (alg ∈ ["A128KW"; "A192KW"; "A256KW"]) then
    let length := parseInt10 (slice_1_4 alg) in
    generate (AesKeyGenParams "AES-KW" length) ["wrapKey"; "unwrapKey"]
  else if bool_decide (alg ∈ ["A128GCMKW"; "A192GCMKW"; "A256GCMKW";
                               "A128GCM"; "A192GCM"; "A256GCM"]) then
    let length := parseInt10 (slice_1_4 alg) in
    generate (AesKeyGenParams "AES-GCM" length) ["encrypt"; "decrypt"]
  else throw UnsupportedJwkAlg.

End Secrets.

End Secret.

(** ** Stand-ins for the builtins of the import and of the secrets *)

Module ImportFixture.

Import PemImport.

Definition sextet_of (c : ascii) : option nat :=
  fst <$> list_find (λ x, Ascii.eqb x c = true) CryptoFixture.base64_alphabet.

(** Base64 with padding, four characters at a time; [rounds] bounds the
    number of groups. *)
Fixpoint decode_chars (rounds : nat) (cs : list ascii) : option (list nat) :=
  match rounds, cs with
  | _, [] => Some []
  | S rounds', a :: b :: c :: d :: rest =>
      x ← sextet_of a;
      y ← sextet_of b;
      if Ascii.eqb c "=" then
        if Ascii.eqb d "=" && bool_decide (rest = []) then Some [x * 4 + y / 16] else None
      else
        z ← sextet_of c;
        if Ascii.eqb d "=" then
          if bool_decide (rest = [])
          then Some [x * 4 + y / 16; y `mod` 16 * 16 + z / 4]
          else None
        else
          w ← sextet_of d;
          tail ← decode_chars rounds' rest;
          Some (x * 4 + y / 16 :: y `mod` 16 * 16 + z / 4 :: z `mod` 4 * 64 + w :: tail)
  | _, _ => None
  end.

Definition decode (s : string) : Result (list byte) :=
  match decode_chars (String.length s) (String.list_ascii_of_string s) with
  | Some bytes => inr (Der.byte_of_nat <$> bytes)
  | None => inl (Thrown "InvalidCharacterError")
  end.

Definition public_key : CryptoKey := {|
  key_type := public;
  key_extractable := false;
  key_algorithm := "imported";
  key_usages := [];
|}.

Definition private_key : CryptoKey := {|
  key_type := private;
  key_extractable := false;
  key_algorithm := "imported";
  key_usages := [];
|}.

(** A [subtle] that imports any key data. *)
Definition ctx : ImportContext := {|
  subtle_importKey keyFormat _ _ _ _ :=
    inr (match keyFormat with spki => public_key | pkcs8 => private_key end);
|}.

(** Modelled from the spec: "strip header/footer and whitespace,
    base64-decode".  The builtin [atob] and [base64ToUint8Array] of
    [@protokoll/core] decode the standard base64 alphabet with padding;
    [atob] gives the bytes as a binary string. *)
Definition imports : ImportImports := {|
  atob s :=
    bytes ← decode s;
    inr (String.string_of_list_ascii (Ascii.ascii_of_byte <$> bytes));
  base64ToUint8Array := decode;
  withImportContext := default ctx;
|}.

(** The sample certificate of [Der] as a PEM text. *)
Definition certificate_pem : string :=
  @formatPEM CryptoFixture.imports
    (CryptoFixture.base64 (Der.encode Der.sample_certificate)) "CERTIFICATE".

(** A certificate whose [tbsCertificate] ends behind its fourth field. *)
Definition short_fields : list Der.Tlv := take 4 Der.sample_fields.

Definition short_tbs : Der.Tlv :=
  Der.der Der.SEQUENCE (concat (Der.encode <$> short_fields)).

Definition short_certificate : Der.Tlv :=
  Der.der Der.SEQUENCE (Der.encode short_tbs ++ concat (Der.encode <$> Der.sample_others)).

Definition short_pem : string :=
  @formatPEM CryptoFixture.imports
    (CryptoFixture.base64 (Der.encode short_certificate)) "CERTIFICATE".

Definition es256 (pem : string) : ImportInput :=
  {| pem := pem; alg := "ES256"; extractable := None |}.

(** The key data of an Ed25519 public key: the SPKI of RFC 8410 around 32
    zero bytes. *)
Definition ed25519_spki : list byte :=
  [Byte.x30; Byte.x2a; Byte.x30; Byte.x05; Byte.x06; Byte.x03; Byte.x2b; Byte.x65;
   Byte.x70; Byte.x03; Byte.x21; Byte.x00] ++ replicate 32 Byte.x00.

(** The object identifier of P-256 in DER, as it lies inside the key data
    of a P-256 key. *)
Definition p256_oid : list byte :=
  [Byte.x06; Byte.x08; Byte.x2a; Byte.x86; Byte.x48; Byte.xce; Byte.x3d; Byte.x03;
   Byte.x01; Byte.x07].

Definition input_of (keyData : list byte) (alg : string) : ImportInput := {|
  pem := @formatPEM CryptoFixture.imports (CryptoFixture.base64 keyData) "PUBLIC KEY";
  alg := alg;
  extractable := None;
|}.

End ImportFixture.

Module SecretFixture.

Import Secret.

(** A [getRandomValues] that fills the array with [0x2a]. *)
Definition global : GlobalCrypto := {|
  getRandomValues array := replicate (length array) Byte.x2a;
|}.

Definition ctx : SecretContext := {|
  subtle_generateKey algorithm extractable keyUsages :=
    inr {| key_type := secret;
           key_extractable := extractable;
           key_algorithm :=
             match algorithm with
             | HmacKeyGenParams name _ _ | AesKeyGenParams name _ => name
             end;
           key_usages := keyUsages |};
|}.

End SecretFixture.

(** ** The [case] labels of [generateKeyPair] *)

Definition ecdh_algorithms : list string :=
  ["ECDH-ES"; "ECDH-ES+A128KW"; "ECDH-ES+A192KW"; "ECDH-ES+A256KW"].

Definition key_pair_algorithms : list string :=
  rsa_algorithms ++ ["ES256"; "ES384"; "ES512"; "EdDSA"] ++ ecdh_algorithms.

Definition UnsupportedKeyPairAlg : Error :=
  PlainError ("Invalid or unsupported JWK " +:+ dquote +:+ "alg" +:+ dquote
                +:+ " (Algorithm) Parameter value").

Definition UnsupportedCurve : Error :=
  PlainError
    "Invalid or unsupported crv option provided, supported values are P-256, P-384, P-521, X25519, and X448".

(** ** How the JARM validation resolves its keys *)

Section KeyLookup.
Context `{JoseImports} `{DirectPostImports}.

(** The key of a call is named by the [kid] of the token's own protected
    header, which is truthy, and by the type ["auto"]. *)
Definition resolved_by_kid (token : string) (jwk : Jwk) : Prop :=
  jwk_kty jwk = "auto"
  ∧ truthy (jwk_kid jwk) = true
  ∧ ∃ header, decodeProtectedHeader token = inr header
              ∧ jwk_kid jwk = prop header "kid".

Definition call_resolved_by_kid (response : string) (c : Call) : Prop :=
  match c with
  | Call_decryptCompact jwe jwk => jwe = response ∧ resolved_by_kid jwe jwk
  | Call_verifyJwt jws jwk => isJws jws = true ∧ resolved_by_kid jws jwk
  | _ => True
  end.

(** The schema of the signed path. *)
Definition strict_schema : object_schema :=
  v_required vJarmDirectPostJwtParams ["iss"; "aud"; "exp"].

End KeyLookup.

(** * Properties of the JARM response validation *)

Section TracedLemmas.
Context {C : Type}.

Lemma bind_value {A B} (t : list C) (a : A) (f : A → Traced C B) :
  ((t, inr a) : Traced C A) ≫= f = (t ++ (f a).1, (f a).2).
Proof. unfold mbind, Traced_bind. by destruct (f a). Qed.

Lemma bind_thrown {A B} (t : list C) (e : Error) (f : A → Traced C B) :
  ((t, inl e) : Traced C A) ≫= f = (t, inl e).
Proof. reflexivity. Qed.

Lemma bind_ret {A B} (a : A) (f : A → Traced C B) :
  (mret a : Traced C A) ≫= f = f a.
Proof. unfold mbind, mret, Traced_bind, Traced_ret. by destruct (f a). Qed.

Lemma never_nil (p : C → bool) : never p [].
Proof. constructor. Qed.

Lemma never_app (p : C → bool) (t1 t2 : list C) :
  never p t1 → never p t2 → never p (t1 ++ t2).
Proof. unfold never. rewrite Forall_app. tauto. Qed.

Lemma never_cons (p : C → bool) (c : C) (t : list C) :
  p c = false → never p t → never p (c :: t).
Proof. unfold never. by constructor. Qed.

End TracedLemmas.

Create HintDb trace.
#[local] Hint Resolve never_nil never_app never_cons : trace.

Section JarmProperties.
Context `{JoseImports} `{JsonBuiltins} `{JarmSchemas} `{DirectPostImports}.

Implicit Types (input : JarmDirectPostJwtAuthResponseValidation).
Implicit Types (ctx : JarmDirectPostJwtAuthResponseValidationContext).

(** [jarmAuthResponseDirectPostJwtValidate] is the composition of its three
    stages. *)
Lemma validate_stages input ctx :
  jarmAuthResponseDirectPostJwtValidate input ctx =
    (d ← decryptedResponse input ctx;
     if negb (isJwe (response input)) && negb (isJws d) then throw NotSignedOrEncrypted
     else
       params ← (if isJws d then signed_arm ctx d else plain_arm ctx d);
       _ ← call (Call_validateParams params.1 params.2)
                (jarmAuthResponseDirectPostValidateParams params.1 params.2);
       mret {| authRequestParams := params.1;
               authResponseParams := params.2;
               type := if isJws d && isJwe (response input) then signed_encrypted
                       else if isJwe (response input) then encrypted
                       else signed |}).
Proof. reflexivity. Qed.

(** The only call [decryptedResponse] can make is the decryption. *)
Lemma decryptedResponse_trace input ctx :
  trace (decryptedResponse input ctx) = []
  ∨ ∃ jwk, trace (decryptedResponse input ctx) = [Call_decryptCompact (response input) jwk].
Proof.
  unfold decryptedResponse, decryptJarmAuthResponse.
  destruct (isJwe _); [|by left].
  destruct (decodeProtectedHeader _) as [e|h]; [by left|]. simpl.
  destruct (truthy _); simpl; [|by left].
  right. eexists. unfold mbind, Traced_bind, call.
  by destruct (jose_jwe_decryptCompact _ _ _).
Qed.

Lemma decryptedResponse_quiet input ctx (p : Call → bool) :
  (∀ jwe jwk, p (Call_decryptCompact jwe jwk) = false) →
  never p (trace (decryptedResponse input ctx)).
Proof.
  intros Hp. destruct (decryptedResponse_trace input ctx) as [->|[jwk ->]];
    auto with trace.
Qed.

(** C2: a response that is neither a JWE nor a JWS is rejected with the
    error "Jarm Auth Response must be either encrypted, signed, or signed and
    encrypted."; the trace is empty, so neither decryption nor signature
    verification nor any parameter validation was called. *)
Theorem neither_jwe_nor_jws_rejected input ctx :
  isJwe (response input) = false →
  isJws (response input) = false →
  jarmAuthResponseDirectPostJwtValidate input ctx =
    ([], inl (JarmAuthResponseValidationError
                "Jarm Auth Response must be either encrypted, signed, or signed and encrypted.")).
Proof.
  intros Hjwe Hjws. rewrite validate_stages. unfold decryptedResponse.
  rewrite Hjwe, bind_ret, Hjws. reflexivity.
Qed.

(** C3: a returned [type] is "signed encrypted" for a JWE whose decrypted
    plaintext is a JWS, "encrypted" for a JWE whose plaintext is not a JWS,
    and "signed" for a bare JWS; there is no other case. *)
Theorem returned_type input ctx r :
  outcome (jarmAuthResponseDirectPostJwtValidate input ctx) = inr r →
  (isJwe (response input) = true
   ∧ ∃ plaintext,
       outcome (decryptJarmAuthResponse input ctx) = inr plaintext
       ∧ ((isJws plaintext = true ∧ type r = signed_encrypted
           ∧ ResponseType_string (type r) = "signed encrypted")
          ∨ (isJws plaintext = false ∧ type r = encrypted
             ∧ ResponseType_string (type r) = "encrypted")))
  ∨ (isJwe (response input) = false ∧ isJws (response input) = true
     ∧ type r = signed ∧ ResponseType_string (type r) = "signed").
Proof.
  rewrite validate_stages. unfold decryptedResponse.
  destruct (isJwe (response input)) eqn:Hjwe.
  - destruct (decryptJarmAuthResponse input ctx) as [t0 [e|d]] eqn:Hd;
      [rewrite bind_thrown; discriminate|].
    rewrite bind_value. simpl. intros Hr. left. split; [done|]. exists d.
    split; [done|].
    destruct (isJws d) eqn:Hjws.
    + destruct (signed_arm ctx d) as [t1 [e|p]]; [discriminate|].
      rewrite bind_value in Hr. simpl in Hr.
      destruct (jarmAuthResponseDirectPostValidateParams _ _) as [e|[]];
        [discriminate|].
      simpl in Hr. injection Hr as <-. by left.
    + destruct (plain_arm ctx d) as [t1 [e|p]]; [discriminate|].
      rewrite bind_value in Hr. simpl in Hr.
      destruct (jarmAuthResponseDirectPostValidateParams _ _) as [e|[]];
        [discriminate|].
      simpl in Hr. injection Hr as <-. by right.
  - rewrite bind_ret.
    destruct (isJws (response input)) eqn:Hjws; simpl; [|discriminate].
    intros Hr. right. split; [done|]. split; [done|].
    destruct (signed_arm ctx _) as [t1 [e|p]]; [discriminate|].
    rewrite bind_value in Hr. simpl in Hr.
    destruct (jarmAuthResponseDirectPostValidateParams _ _) as [e|[]];
      [discriminate|].
    simpl in Hr. by injection Hr as <-.
Qed.

Lemma parse_value schema payload params :
  outcome (parseJarmAuthResponseParams schema payload) = inr params →
  parseJarmAuthResponseParams schema payload = ([Call_v_parse schema payload], inr params).
Proof.
  unfold parseJarmAuthResponseParams.
  destruct (v_is vJarmAuthResponseErrorParams payload); [discriminate|].
  unfold call, outcome. simpl. by intros ->.
Qed.

(** C5: when the protected header of a JWE has no [kid],
    [decryptJarmAuthResponse] throws "Jarm JWE is missing the protected header
    field 'kid'." with an empty trace: [ctx.jose.jwe.decryptCompact] was not
    invoked.  The validation of such a JWE fails the same way. *)
Theorem jwe_without_kid_not_decrypted input ctx header :
  decodeProtectedHeader (response input) = inr (JObj header) →
  header !! "kid" = None →
  decryptJarmAuthResponse input ctx =
    ([], inl (JarmAuthResponseValidationError
                "Jarm JWE is missing the protected header field 'kid'."))
  ∧ never is_decryptCompact (trace (decryptJarmAuthResponse input ctx))
  ∧ (isJwe (response input) = true →
     jarmAuthResponseDirectPostJwtValidate input ctx =
       ([], inl (JarmAuthResponseValidationError
                   "Jarm JWE is missing the protected header field 'kid'."))).
Proof.
  intros Hh Hkid.
  assert (decryptJarmAuthResponse input ctx = ([], inl MissingKidJwe)) as Hd.
  { unfold decryptJarmAuthResponse, lift. rewrite Hh, bind_value. simpl.
    by rewrite Hkid. }
  split; [exact Hd|]. split; [rewrite Hd; apply never_nil|].
  intros Hjwe. rewrite validate_stages. unfold decryptedResponse.
  by rewrite Hjwe, Hd.
Qed.


(** C4: parameters that match the error shape make
    [parseJarmAuthResponseParams] throw [JarmReceivedErrorResponse] with an
    empty trace, whatever the schema: [v.parse] was not called.  When they
    are what a response carries (the payload of its JWS, or the JSON a JWE
    decrypts to), the validation throws that error, and parses, fetches,
    verifies and validates nothing. *)
Theorem error_response_surfaces input ctx t0 d params :
  decryptedResponse input ctx = (t0, inr d) →
  (isJws d = true ∧ (∃ header, decodeProtectedHeader d = inr header)
   ∧ decodeJwt d = inr params)
  ∨ (isJws d = false ∧ isJwe (response input) = true ∧ JSON_parse d = inr params) →
  v_is vJarmAuthResponseErrorParams params = true →
  (∀ schema,
     parseJarmAuthResponseParams schema params =
       ([], inl (JarmReceivedErrorResponse "PARSE_ERROR"
                   ("Received error response from authorization server. '"
                      +:+ JSON_stringify params +:+ "'"))))
  ∧ jarmAuthResponseDirectPostJwtValidate input ctx =
      (t0, inl (JarmReceivedErrorResponse "PARSE_ERROR"
                  ("Received error response from authorization server. '"
                     +:+ JSON_stringify params +:+ "'")))
  ∧ never is_v_parse (trace (jarmAuthResponseDirectPostJwtValidate input ctx))
  ∧ never is_getParams (trace (jarmAuthResponseDirectPostJwtValidate input ctx))
  ∧ never is_verifyJwt (trace (jarmAuthResponseDirectPostJwtValidate input ctx))
  ∧ never is_validateParams (trace (jarmAuthResponseDirectPostJwtValidate input ctx)).
Proof.
  intros Hd Hpath Herr.
  assert (∀ schema, parseJarmAuthResponseParams schema params
                    = ([], inl (ReceivedErrorResponse params))) as Hparse.
  { intros schema. unfold parseJarmAuthResponseParams. by rewrite Herr. }
  assert (jarmAuthResponseDirectPostJwtValidate input ctx
          = (t0, inl (ReceivedErrorResponse params))) as Hrun.
  { rewrite validate_stages, Hd, bind_value.
    destruct Hpath as [(Hjws & [header Hh] & Hp)|(Hjws & Hjwe & Hp)].
    - rewrite Hjws, andb_false_r. unfold signed_arm, lift.
      rewrite Hh, bind_value, Hp, bind_value, Hparse. simpl.
      by rewrite app_nil_r.
    - rewrite Hjws, Hjwe. unfold plain_arm, lift.
      rewrite Hp, bind_value, Hparse. simpl. by rewrite app_nil_r. }
  split; [exact Hparse|]. split; [exact Hrun|].
  rewrite Hrun. change (trace (t0, _)) with t0.
  change t0 with (trace (t0, (inr d : Result string))). rewrite <- Hd.
  repeat split; by apply decryptedResponse_quiet.
Qed.

(** C1, as the code has it.  Take the imported check of the response
    against the request to be the state check of
    [jarmAuthResponseEncryptedValidate].  Then a returned result always has
    matching states, so a response whose state differs from the request's
    returns nothing; the error is the state mismatch whenever the steps in
    front of the comparison succeed, which on a signed path means that the
    JWS header has a [kid] and [verifyJwt] accepts the signature; and
    [jarmAuthResponseEncryptedValidate] itself throws the state mismatch on
    every differing pair. *)
Theorem state_mismatch_refused input ctx :
  (∀ authRequest authResponse,
     jarmAuthResponseDirectPostValidateParams authRequest authResponse
       = jarmAuthResponseEncryptedValidate authRequest authResponse) →
  (∀ r, outcome (jarmAuthResponseDirectPostJwtValidate input ctx) = inr r →
        strict_equal (prop (authRequestParams r) "state")
                     (prop (authResponseParams r) "state") = true)
  ∧ (∀ t0 jws header payload params authRequest,
       decryptedResponse input ctx = (t0, inr jws) →
       isJws jws = true →
       decodeProtectedHeader jws = inr header →
       decodeJwt jws = inr payload →
       outcome (parseJarmAuthResponseParams
                  (v_required vJarmDirectPostJwtParams ["iss"; "aud"; "exp"]) payload)
         = inr params →
       openid4vp_authRequest_getParams ctx params = inr authRequest →
       strict_equal (prop authRequest "state") (prop params "state") = false →
       truthy (prop header "kid") = true →
       jose_jws_verifyJwt ctx jws {| jwk_kid := prop header "kid"; jwk_kty := "auto" |}
         = inr () →
       outcome (jarmAuthResponseDirectPostJwtValidate input ctx)
         = inl (JarmAuthResponseValidationError
                  ("State missmatch between auth request '"
                     +:+ template (prop authRequest "state") js_toString
                     +:+ "' and the jarm-auth-response.")))
  ∧ (∀ t0 plaintext json params authRequest,
       decryptedResponse input ctx = (t0, inr plaintext) →
       isJwe (response input) = true →
       isJws plaintext = false →
       JSON_parse plaintext = inr json →
       outcome (parseJarmAuthResponseParams vJarmDirectPostJwtParams json) = inr params →
       openid4vp_authRequest_getParams ctx params = inr authRequest →
       strict_equal (prop authRequest "state") (prop params "state") = false →
       outcome (jarmAuthResponseDirectPostJwtValidate input ctx)
         = inl (JarmAuthResponseValidationError
                  ("State missmatch between auth request '"
                     +:+ template (prop authRequest "state") js_toString
                     +:+ "' and the jarm-auth-response.")))
  ∧ (∀ authRequest authResponse,
       strict_equal (prop authRequest "state") (prop authResponse "state") = false →
       jarmAuthResponseEncryptedValidate authRequest authResponse
         = inl (JarmAuthResponseValidationError
                  ("State missmatch between auth request '"
                     +:+ template (prop authRequest "state") js_toString
                     +:+ "' and the jarm-auth-response."))).
Proof.
  intros Hcheck. repeat split.
  - intros r. rewrite validate_stages.
    destruct (decryptedResponse input ctx) as [t0 [e|d]]; [discriminate|].
    rewrite bind_value.
    destruct (negb (isJwe (response input)) && negb (isJws d)); [discriminate|].
    destruct (if isJws d then signed_arm ctx d else plain_arm ctx d)
      as [t1 [e|p]]; [discriminate|].
    rewrite bind_value, Hcheck. unfold jarmAuthResponseEncryptedValidate, call.
    destruct (strict_equal _ _) eqn:Heq; [|discriminate]. simpl.
    by intros [= <-].
  - intros t0 jws header payload params authRequest
      Hd Hjws Hh Hp Hparse Hg Hne Hkid Hv.
    rewrite validate_stages, Hd, bind_value, Hjws, andb_false_r.
    unfold signed_arm, lift.
    rewrite Hh, bind_value, Hp, bind_value, (parse_value _ _ _ Hparse), bind_value, Hg.
    unfold call. rewrite bind_value, Hkid. simpl. rewrite Hv. simpl.
    rewrite Hcheck. unfold jarmAuthResponseEncryptedValidate. by rewrite Hne.
  - intros t0 plaintext json params authRequest Hd Hjwe Hjws Hj Hparse Hg Hne.
    rewrite validate_stages, Hd, bind_value, Hjws, Hjwe.
    unfold plain_arm, lift.
    rewrite Hj, bind_value, (parse_value _ _ _ Hparse), bind_value, Hg.
    unfold call. simpl.
    rewrite Hcheck. unfold jarmAuthResponseEncryptedValidate. by rewrite Hne.
  - intros authRequest authResponse Hne. unfold jarmAuthResponseEncryptedValidate.
    by rewrite Hne.
Qed.

End JarmProperties.

(** * Properties of the response schemas *)

Section SchemaProperties.

Lemma required_lookup (s : object_schema) (keys : list string) (k : string) :
  entries (v_required s keys) !! k =
    (λ w, if bool_decide (k ∈ keys) then v_nonOptional w else w) <$> entries s !! k.
Proof.
  unfold v_required. simpl. rewrite map_lookup_imap.
  by destruct (entries s !! k).
Qed.

Lemma v_is_member (s : object_schema) (input : jsval) (k : string) (w : schema) :
  v_is s input = true → entries s !! k = Some w → run w (prop input k) = true.
Proof.
  unfold v_is. destruct input; try discriminate;
    intros Hall%bool_decide_eq_true Hk; exact (Hall k w Hk).
Qed.

Lemma v_is_false (s : object_schema) (input : jsval) (k : string) (w : schema) :
  entries s !! k = Some w → run w (prop input k) = false → v_is s input = false.
Proof.
  intros Hk Hrun. destruct (v_is s input) eqn:His; [|done].
  by rewrite (v_is_member _ _ _ _ His Hk) in Hrun.
Qed.

Lemma v_is_object (s : object_schema) (fields : gmap string jsval) :
  (∀ k w, entries s !! k = Some w → run w (prop (JObj fields) k) = true) →
  v_is s (JObj fields) = true.
Proof. intros Hall. unfold v_is. by apply bool_decide_eq_true. Qed.

Context `{JarmSchemas}.

Lemma encrypted_lookup_claim (k : string) :
  k ∈ ["iss"; "aud"; "exp"] →
  entries vJarmAuthResponseEncrypted !! k = v_optional <$> entries vJarmAuthResponse !! k.
Proof.
  intros Hk. unfold vJarmAuthResponseEncrypted, spread. simpl.
  assert (k ≠ "nonce" ∧ k ≠ "presentation_submission" ∧ k ≠ "vp_token")
    as (? & ? & ?).
  { rewrite !elem_of_cons, elem_of_nil in Hk.
    repeat split; intros Heq; rewrite Heq in Hk; by destruct Hk as [|[|[|]]]. }
  rewrite !lookup_insert_ne by done.
  rewrite lookup_union, lookup_fmap, !map_lookup_filter.
  destruct (entries vJarmAuthResponse !! k) as [w|]; simpl; [|done].
  rewrite option_guard_True by done. rewrite option_guard_False by (simpl; tauto).
  reflexivity.
Qed.

(** The strict schema of the signed path rejects parameters that lack one of
    [iss], [aud], [exp], as soon as [vJarmAuthResponse] declares that member. *)
Lemma strict_rejects_absent (payload : jsval) (k : string) :
  k ∈ ["iss"; "aud"; "exp"] →
  is_Some (entries vJarmAuthResponse !! k) →
  prop payload k = JUndefined →
  v_is (v_required vJarmAuthResponseEncrypted ["iss"; "aud"; "exp"]) payload = false.
Proof.
  intros Hk [w Hw] Habsent.
  apply (v_is_false _ _ k (v_nonOptional (v_optional w))).
  - rewrite required_lookup, encrypted_lookup_claim, Hw by done. simpl.
    by rewrite bool_decide_eq_true_2.
  - by rewrite Habsent.
Qed.

(** The schema of the plain-JSON path accepts an object without [iss],
    [aud] and [exp] whenever it accepts the object with them. *)
Lemma encrypted_accepts_without_claims (fields : gmap string jsval) :
  v_is vJarmAuthResponseEncrypted (JObj fields) = true →
  v_is vJarmAuthResponseEncrypted
       (JObj (delete "iss" (delete "aud" (delete "exp" fields)))) = true.
Proof.
  intros His. apply v_is_object. intros k w Hk.
  destruct (decide (k ∈ ["iss"; "aud"; "exp"])) as [Hin|Hout].
  - rewrite encrypted_lookup_claim in Hk by done.
    destruct (entries vJarmAuthResponse !! k) as [w'|]; [|done].
    injection Hk as <-. simpl.
    assert ((delete "iss" (delete "aud" (delete "exp" fields)) : gmap string jsval) !! k
            = None) as ->; [|done].
    set_unfold in Hin. destruct Hin as [->|[->|[->|[]]]].
    + by rewrite lookup_delete_eq.
    + rewrite lookup_delete_ne by done. by rewrite lookup_delete_eq.
    + rewrite !lookup_delete_ne by done. by rewrite lookup_delete_eq.
  - pose proof (v_is_member _ _ _ _ His Hk) as Hrun. simpl in *.
    assert (k ≠ "iss" ∧ k ≠ "aud" ∧ k ≠ "exp") as (? & ? & ?).
    { repeat split; intros Heq; apply Hout; rewrite Heq; set_solver. }
    by rewrite !lookup_delete_ne by done.
Qed.

End SchemaProperties.

Section SignedPathSchema.
Context `{JoseImports} `{JsonBuiltins} `{JarmSchemas} `{DirectPostImports}.

(** C6: on a signed path the payload of the JWS is parsed with [iss], [aud]
    and [exp] required, and on the encrypted-only path it is not.  Take the
    imported schema of the response parameters to be
    [vJarmAuthResponseEncrypted].  On a signed path, when [vJarmAuthResponse]
    declares the three members and the payload lacks one of them, [v.parse]
    throws, and so does the validation, right after the parse and before
    anything is fetched or verified: a [ValiError], or the [PARSE_ERROR] of
    an error response when the payload has the error shape.  On the
    encrypted-only path, a JWE whose plaintext is no JWS, the validation
    parses the JSON of the plaintext with the schema as it is: an object the
    schema accepts is still accepted with the three members removed, the
    run goes on to fetch the auth request and to check the response against
    it, and it returns the object with the type "encrypted". *)
Theorem signed_path_requires_iss_aud_exp
    (input : JarmDirectPostJwtAuthResponseValidation)
    (ctx : JarmDirectPostJwtAuthResponseValidationContext)
    (t0 : list Call) (jws : string) (header payload : jsval) (key : string) :
  vJarmDirectPostJwtParams = vJarmAuthResponseEncrypted →
  (∀ k, k ∈ ["iss"; "aud"; "exp"] → is_Some (entries vJarmAuthResponse !! k)) →
  decryptedResponse input ctx = (t0, inr jws) →
  isJws jws = true →
  decodeProtectedHeader jws = inr header →
  decodeJwt jws = inr payload →
  key ∈ ["iss"; "aud"; "exp"] →
  prop payload key = JUndefined →
  v_parse (v_required vJarmDirectPostJwtParams ["iss"; "aud"; "exp"]) payload
    = inl ValiError
  ∧ jarmAuthResponseDirectPostJwtValidate input ctx =
      (if v_is vJarmAuthResponseErrorParams payload
       then (t0, inl (ReceivedErrorResponse payload))
       else (t0 ++ [Call_v_parse
                      (v_required vJarmDirectPostJwtParams ["iss"; "aud"; "exp"]) payload],
             inl ValiError))
  ∧ (∃ e, outcome (jarmAuthResponseDirectPostJwtValidate input ctx) = inl e
          ∧ is_parse_error e = true)
  ∧ (∀ (encrypted_input : JarmDirectPostJwtAuthResponseValidation)
       (host : JarmDirectPostJwtAuthResponseValidationContext)
       (decryption : list Call) (plaintext : string)
       (fields : gmap string jsval) (without : jsval) (authRequest : jsval),
       without = JObj (delete "iss" (delete "aud" (delete "exp" fields))) →
       v_parse vJarmDirectPostJwtParams (JObj fields) = inr (JObj fields) →
       decryptedResponse encrypted_input host = (decryption, inr plaintext) →
       isJwe (response encrypted_input) = true →
       isJws plaintext = false →
       JSON_parse plaintext = inr without →
       v_is vJarmAuthResponseErrorParams without = false →
       openid4vp_authRequest_getParams host without = inr authRequest →
       jarmAuthResponseDirectPostValidateParams authRequest without = inr () →
       jarmAuthResponseDirectPostJwtValidate encrypted_input host =
         (decryption ++ [Call_v_parse vJarmDirectPostJwtParams without;
                         Call_getParams without;
                         Call_validateParams authRequest without],
          inr {| authRequestParams := authRequest;
                 authResponseParams := without;
                 type := encrypted |})).
Proof.
  intros Hschema Hbase Hd Hjws Hh Hp Hkey Habsent.
  assert (v_parse (v_required vJarmDirectPostJwtParams ["iss"; "aud"; "exp"]) payload
          = inl ValiError) as Hparse.
  { unfold v_parse. rewrite Hschema.
    by rewrite (strict_rejects_absent payload key Hkey (Hbase key Hkey) Habsent). }
  assert (jarmAuthResponseDirectPostJwtValidate input ctx =
      (if v_is vJarmAuthResponseErrorParams payload
       then (t0, inl (ReceivedErrorResponse payload))
       else (t0 ++ [Call_v_parse
                      (v_required vJarmDirectPostJwtParams ["iss"; "aud"; "exp"]) payload],
             inl ValiError))) as Hrun.
  { rewrite validate_stages, Hd, bind_value, Hjws, andb_false_r.
    unfold signed_arm, lift. rewrite Hh, bind_value, Hp, bind_value.
    unfold parseJarmAuthResponseParams.
    destruct (v_is vJarmAuthResponseErrorParams payload); simpl.
    - by rewrite app_nil_r.
    - by rewrite Hparse. }
  split; [exact Hparse|]. split; [exact Hrun|]. split.
  - rewrite Hrun. destruct (v_is vJarmAuthResponseErrorParams payload); by eexists.
  - intros encrypted_input host decryption plaintext fields without authRequest
      -> Haccepted Hdecrypted Hjwe Hplain Hjson Hshape Hget Hcheck.
    assert (v_parse vJarmDirectPostJwtParams
                    (JObj (delete "iss" (delete "aud" (delete "exp" fields))))
            = inr (JObj (delete "iss" (delete "aud" (delete "exp" fields)))))
      as Hwithout.
    { revert Haccepted. unfold v_parse. rewrite Hschema.
      destruct (v_is vJarmAuthResponseEncrypted (JObj fields)) eqn:His; [|discriminate].
      intros _. by rewrite (encrypted_accepts_without_claims fields His). }
    rewrite validate_stages, Hdecrypted, bind_value, Hplain, Hjwe.
    unfold plain_arm, lift. rewrite Hjson, bind_value.
    unfold parseJarmAuthResponseParams. rewrite Hshape.
    unfold call. rewrite Hwithout, bind_value, Hget.
    cbn [fst snd app mbind Traced_bind mret Traced_ret negb andb].
    by rewrite Hcheck.
Qed.

End SignedPathSchema.

(** * The properties on the test double *)

Example run_encrypted :
  Fixture.summary (Fixture.validate Fixture.jwe_plain)
    = (["decryptCompact"; "v.parse"; "getParams"; "validateParams"], inr "encrypted").
Proof. vm_compute. reflexivity. Qed.

Example run_signed :
  Fixture.summary (Fixture.validate Fixture.jws_ok)
    = (["v.parse"; "getParams"; "verifyJwt"; "validateParams"], inr "signed").
Proof. vm_compute. reflexivity. Qed.

Example run_signed_encrypted :
  Fixture.summary (Fixture.validate Fixture.jwe_signed)
    = (["decryptCompact"; "v.parse"; "getParams"; "verifyJwt"; "validateParams"],
       inr "signed encrypted").
Proof. vm_compute. reflexivity. Qed.

Lemma neither_jwe_nor_jws_rejected_witness :
  Fixture.validate "not-a-token" =
    ([], inl (JarmAuthResponseValidationError
                "Jarm Auth Response must be either encrypted, signed, or signed and encrypted.")).
Proof.
  apply (@neither_jwe_nor_jws_rejected Fixture.jose Fixture.json Fixture.schemas Fixture.direct_post);
    reflexivity.
Defined.

Lemma returned_type_witness :
  ∃ r, outcome (Fixture.validate Fixture.jwe_plain) = inr r
       ∧ ResponseType_string (type r) = "encrypted".
Proof.
  destruct (outcome (Fixture.validate Fixture.jwe_plain)) as [e|r] eqn:Hr;
    [vm_compute in Hr; discriminate|].
  exists r. split; [reflexivity|].
  destruct (@returned_type Fixture.jose Fixture.json Fixture.schemas Fixture.direct_post
              {| response := Fixture.jwe_plain |} Fixture.ctx r Hr)
    as [(_ & plaintext & Hd & [(Hjws & _)|(_ & _ & Ht)])|(Hjwe & _)].
  - vm_compute in Hd. injection Hd as <-. vm_compute in Hjws. discriminate.
  - exact Ht.
  - vm_compute in Hjwe. discriminate.
Defined.

Lemma jwe_without_kid_not_decrypted_witness :
  @decryptJarmAuthResponse Fixture.jose {| response := "hN.k.iv.ct.tag" |} Fixture.ctx =
    ([], inl (JarmAuthResponseValidationError
                "Jarm JWE is missing the protected header field 'kid'.")).
Proof.
  apply (@jwe_without_kid_not_decrypted Fixture.jose Fixture.json Fixture.schemas Fixture.direct_post
           {| response := "hN.k.iv.ct.tag" |} Fixture.ctx
           (list_to_map [("alg", JStr "ES256")])); reflexivity.
Defined.


Lemma error_response_surfaces_witness :
  Fixture.validate Fixture.jws_error =
    ([], inl (JarmReceivedErrorResponse "PARSE_ERROR"
                "Received error response from authorization server. '{...}'")).
Proof.
  refine (proj1 (proj2 (@error_response_surfaces
            Fixture.jose Fixture.json Fixture.schemas Fixture.direct_post
            {| response := Fixture.jws_error |} Fixture.ctx [] Fixture.jws_error
            Fixture.payload_error _ _ _))).
  - reflexivity.
  - left. split; [reflexivity|]. split; [by eexists|reflexivity].
  - vm_compute. reflexivity.
Defined.

Lemma signed_path_requires_iss_aud_exp_witness :
  Fixture.validate Fixture.jws_no_iss =
    ([Call_v_parse Fixture.strict Fixture.payload_no_iss], inl ValiError)
  ∧ Fixture.validate Fixture.jwe_plain =
      ([Call_decryptCompact Fixture.jwe_plain
          {| jwk_kid := JStr "reader-key"; jwk_kty := "auto" |};
        Call_v_parse (@vJarmAuthResponseEncrypted Fixture.schemas) Fixture.payload_plain;
        Call_getParams Fixture.payload_plain;
        Call_validateParams Fixture.auth_request Fixture.payload_plain],
       inr {| authRequestParams := Fixture.auth_request;
              authResponseParams := Fixture.payload_plain;
              type := encrypted |}).
Proof.
  assert (∀ k, k ∈ ["iss"; "aud"; "exp"] →
               is_Some (entries (@vJarmAuthResponse Fixture.schemas) !! k)) as Hbase.
  { intros k Hk. rewrite !elem_of_cons, elem_of_nil in Hk.
    destruct Hk as [->|[->|[->|[]]]]; vm_compute; by eexists. }
  pose proof (@signed_path_requires_iss_aud_exp
                Fixture.jose Fixture.json Fixture.schemas Fixture.direct_post
                {| response := Fixture.jws_no_iss |} Fixture.ctx [] Fixture.jws_no_iss
                Fixture.header_with_kid Fixture.payload_no_iss "iss"
                eq_refl Hbase eq_refl eq_refl eq_refl eq_refl
                (list_elem_of_here _ _) eq_refl)
    as (_ & Hsigned & _ & Hencrypted).
  split; [exact Hsigned|].
  refine (Hencrypted {| response := Fixture.jwe_plain |} Fixture.ctx
            [Call_decryptCompact Fixture.jwe_plain
               {| jwk_kid := JStr "reader-key"; jwk_kty := "auto" |}]
            "{plain}" (list_to_map (Fixture.jwt_claims ++ Fixture.mdl_response))
            Fixture.payload_plain Fixture.auth_request _ _ _ _ _ _ _ _ _);
    vm_compute; reflexivity.
Defined.

Lemma state_mismatch_refused_witness :
  outcome (Fixture.validate Fixture.jws_other_state) =
    inl (JarmAuthResponseValidationError
           "State missmatch between auth request 's-1' and the jarm-auth-response.").
Proof.
  refine (proj1 (proj2 (@state_mismatch_refused
            Fixture.jose Fixture.json Fixture.schemas Fixture.direct_post
            {| response := Fixture.jws_other_state |} Fixture.ctx (λ _ _, eq_refl)))
            [] Fixture.jws_other_state Fixture.header_with_kid
            Fixture.payload_other_state Fixture.payload_other_state Fixture.auth_request
            _ _ _ _ _ _ _ _ _); vm_compute; reflexivity.
Defined.

(** C1 as stated fails on a signed response whose header has no [kid]: the
    state of the response (["s-2"]) has been recovered and the request
    (state ["s-1"]) fetched, the two differ, and the error thrown is the
    missing [kid], not the state mismatch. *)
Lemma state_mismatch_behind_kid_check :
  @decodeJwt Fixture.jose Fixture.jws_no_kid = inr Fixture.payload_other_state
  ∧ trace (Fixture.validate Fixture.jws_no_kid) =
      [Call_v_parse Fixture.strict Fixture.payload_other_state;
       Call_getParams Fixture.payload_other_state]
  ∧ openid4vp_authRequest_getParams Fixture.ctx Fixture.payload_other_state
      = inr Fixture.auth_request
  ∧ strict_equal (prop Fixture.auth_request "state")
                 (prop Fixture.payload_other_state "state") = false
  ∧ outcome (Fixture.validate Fixture.jws_no_kid) =
      inl (JarmAuthResponseValidationError
             "Jarm JWS is missing the protected header field 'kid'.")
  ∧ outcome (Fixture.validate Fixture.jws_no_kid) ≠
      inl (@StateMismatch Fixture.json (prop Fixture.auth_request "state")).
Proof.
  repeat split; try (vm_compute; reflexivity).
  vm_compute. discriminate.
Qed.


(** * Properties of the PEM export and of key generation *)

Section ExportProperties.
Context `{CryptoImports}.

(** C8, as the code has it: [toPKCS8] passes [keyType: 'public'] on.  For a
    private key it throws a [TypeError] and exports nothing; the message is
    "key is not a public key" when the key is extractable, and "CryptoKey is
    not extractable" when it is not, because that check comes first.  The
    only keys [toPKCS8] returns a PEM for are extractable public keys, whose
    [pkcs8] export the host has to accept, and the PEM is labelled
    [PUBLIC KEY]. *)
Theorem toPKCS8_refuses_private_keys (key : CryptoKey) (ctx : option CryptoContext) :
  key_type key = private →
  (key_extractable key = true →
   toPKCS8 (a_CryptoKey key) ctx = ([], inl (TypeError "key is not a public key")))
  ∧ (key_extractable key = false →
     toPKCS8 (a_CryptoKey key) ctx = ([], inl (TypeError "CryptoKey is not extractable")))
  ∧ (∃ message, toPKCS8 (a_CryptoKey key) ctx = ([], inl (TypeError message)))
  ∧ never is_exportKey (trace (toPKCS8 (a_CryptoKey key) ctx))
  ∧ (∀ input pem,
       outcome (toPKCS8 input ctx) = inr pem →
       ∃ key' exported,
         input = a_CryptoKey key'
         ∧ key_type key' = public
         ∧ key_extractable key' = true
         ∧ subtle_exportKey (withCryptoContext ctx) pkcs8 key' = inr exported
         ∧ pem = formatPEM (uint8ArrayToBase64 exported) "PUBLIC KEY").
Proof.
  intros Hprivate. unfold toPKCS8, genericExport. rewrite Hprivate.
  repeat split.
  - by intros ->.
  - by intros ->.
  - destruct (key_extractable key); by eexists.
  - destruct (key_extractable key); apply never_nil.
  - intros [key'|value] pem; [|discriminate].
    destruct (key_extractable key') eqn:Hext; [|discriminate].
    destruct (key_type key') eqn:Htype; try discriminate. simpl.
    destruct (subtle_exportKey _ _ _) as [e|exported] eqn:Hexp; simpl;
      [discriminate|].
    intros [= <-]. by exists key', exported.
Qed.

End ExportProperties.

Lemma toPKCS8_refuses_private_keys_witness :
  @toPKCS8 CryptoFixture.imports (a_CryptoKey (CryptoFixture.rsa_private true))
           (Some CryptoFixture.ctx)
    = ([], inl (TypeError "key is not a public key")).
Proof.
  apply (@toPKCS8_refuses_private_keys CryptoFixture.imports
           (CryptoFixture.rsa_private true) (Some CryptoFixture.ctx));
    reflexivity.
Defined.

(** C8 as stated fails on a private key that is not extractable: the
    [TypeError] it gets says "CryptoKey is not extractable". *)
Lemma toPKCS8_private_not_extractable :
  key_type (CryptoFixture.rsa_private false) = private
  ∧ @toPKCS8 CryptoFixture.imports (a_CryptoKey (CryptoFixture.rsa_private false))
             (Some CryptoFixture.ctx)
      = ([], inl (TypeError "CryptoKey is not extractable"))
  ∧ outcome (@toPKCS8 CryptoFixture.imports (a_CryptoKey (CryptoFixture.rsa_private false))
                      (Some CryptoFixture.ctx))
      ≠ inl (TypeError "key is not a public key").
Proof. repeat split. vm_compute. discriminate. Qed.

Section GenerateProperties.
Context `{CryptoImports}.

Lemma getModulusLengthOption_rejects (o : GenerateKeyPairOptions) :
  nullish (modulusLength o) = false →
  typeof (modulusLength o) ≠ "number" ∨ less_than (modulusLength o) (number_of_N 2048) = true →
  getModulusLengthOption (Some o) = inl InvalidModulusLength.
Proof.
  intros Hsupplied Hbad. unfold getModulusLengthOption, coalesce. simpl.
  rewrite Hsupplied.
  destruct Hbad as [Htype| ->]; [|by rewrite orb_true_r].
  destruct (String.eqb_spec (typeof (modulusLength o)) "number"); by simpl.
Qed.

Lemma getModulusLengthOption_default (o : GenerateKeyPairOptions) :
  nullish (modulusLength o) = true →
  getModulusLengthOption (Some o) = inr (JNum (number_of_N 2048)).
Proof.
  intros Habsent. unfold getModulusLengthOption, coalesce. simpl.
  by rewrite Habsent.
Qed.

(** C7, as the code has it: for every RSA algorithm, [generateKeyPair] throws
    on a [modulusLength] that is neither [undefined] nor [null] and either is
    not of type number or is smaller than 2048, without calling
    [generateKey]; for [undefined] and for [null] it asks [generateKey] for a
    modulus of 2048 bits. *)
Theorem rsa_modulus_length (input : GenerateKeyPairInput) (ctx : option CryptoContext) :
  alg input ∈ rsa_algorithms →
  (nullish (modulusLength (options input)) = false →
   typeof (modulusLength (options input)) ≠ "number"
   ∨ less_than (modulusLength (options input)) (number_of_N 2048) = true →
   generateKeyPair input ctx =
     ([], inl (PlainError
                 "Invalid or unsupported modulusLength option provided, 2048 bits or larger keys must be used")))
  ∧ (nullish (modulusLength (options input)) = true →
     ∃ name hash keyUsages,
       trace (generateKeyPair input ctx) =
         [Call_generateKey
            (RsaHashedKeyGenParams name hash publicExponent_65537 (JNum (number_of_N 2048)))
            (default false (extractable (options input))) keyUsages]
       ∧ outcome (generateKeyPair input ctx) =
           subtle_generateKey (withCryptoContext ctx)
             (RsaHashedKeyGenParams name hash publicExponent_65537 (JNum (number_of_N 2048)))
             (default false (extractable (options input))) keyUsages).
Proof.
  intros Halg. destruct input as [a o]. simpl in *.
  unfold rsa_algorithms in Halg. rewrite !elem_of_cons, elem_of_nil in Halg.
  split.
  - intros Hsupplied Hbad. unfold generateKeyPair. simpl.
    rewrite (getModulusLengthOption_rejects o Hsupplied Hbad).
    destruct Halg as [->|[->|[->|[->|[->|[->|[->|[->|[->|[->|[]]]]]]]]]]];
      reflexivity.
  - intros Habsent. unfold generateKeyPair. simpl.
    rewrite (getModulusLengthOption_default o Habsent).
    destruct Halg as [->|[->|[->|[->|[->|[->|[->|[->|[->|[->|[]]]]]]]]]]];
      by eexists _, _, _.
Qed.

End GenerateProperties.

Lemma rsa_modulus_length_witness :
  @generateKeyPair CryptoFixture.imports
     (CryptoFixture.rs256 (JNum (number_of_N 1024))) (Some CryptoFixture.ctx)
    = ([], inl (PlainError
                  "Invalid or unsupported modulusLength option provided, 2048 bits or larger keys must be used")).
Proof.
  apply (@rsa_modulus_length CryptoFixture.imports
           (CryptoFixture.rs256 (JNum (number_of_N 1024))) (Some CryptoFixture.ctx)).
  - vm_compute. do 4 constructor.
  - reflexivity.
  - right. reflexivity.
Defined.

(** C7 as stated fails on [null]: it is not a number, and it is not rejected
    but replaced by 2048. *)
Lemma null_modulus_length_accepted :
  typeof JNull ≠ "number"
  ∧ trace (@generateKeyPair CryptoFixture.imports (CryptoFixture.rs256 JNull)
                            (Some CryptoFixture.ctx))
      = [Call_generateKey
           (RsaHashedKeyGenParams "RSASSA-PKCS1-v1_5" "SHA-256" publicExponent_65537
              (JNum (number_of_N 2048)))
           false ["sign"; "verify"]]
  ∧ ∃ pair, outcome (@generateKeyPair CryptoFixture.imports (CryptoFixture.rs256 JNull)
                                      (Some CryptoFixture.ctx))
            = inr pair.
Proof. repeat split; [discriminate|]. by eexists. Qed.

(** * Properties of the ASN.1 walk *)

Section Asn1Properties.

Import Asn1 Der.

Implicit Types (bytes rest tail pre : list byte) (e : Tlv).

(** Below [2 ^ 53] the arithmetic of doubles is that of natural numbers. *)
Lemma round_double_exact (n : N) :
  (n < 9007199254740992)%N → round_double n = n.
Proof. intros Hn. unfold round_double. by rewrite (proj2 (N.ltb_lt _ _) Hn). Qed.

Lemma round_double_nonzero (n : N) : n ≠ 0%N → round_double n ≠ 0%N.
Proof.
  intros Hn. unfold round_double.
  destruct (N.ltb_spec n 9007199254740992) as [|Hbig]; [done|]. cbn zeta.
  rewrite N.shiftl_eq_0_iff.
  assert (N.shiftr n (N.log2 n - 52) ≠ 0%N) as Hq.
  { rewrite N.shiftr_eq_0_iff. intros [?|[_ Hlog]]; lia. }
  destruct (_ || _); lia.
Qed.

Lemma fits_lt (n : nat) : fits n = true ↔ (N.of_nat n < 9007199254740992)%N.
Proof. unfold fits. apply N.ltb_lt. Qed.

Lemma fits_le (m n : nat) : m ≤ n → fits n = true → fits m = true.
Proof. rewrite !fits_lt. lia. Qed.

Lemma double_add_exact (x y : nat) :
  fits (x + y) = true → double_add (N.of_nat x) (N.of_nat y) = N.of_nat (x + y).
Proof.
  intros Hfits%fits_lt. unfold double_add.
  rewrite round_double_exact by lia. lia.
Qed.

Lemma double_add_pos (x y : N) : (1 ≤ x)%N → (1 ≤ double_add x y)%N.
Proof.
  intros Hx. unfold double_add.
  pose proof (round_double_nonzero (x + y) ltac:(lia)). lia.
Qed.

(** From [2 ^ 53] on a number rounds to a double that is no smaller than
    [2 ^ 53]. *)
Lemma round_double_large (n : N) :
  (9007199254740992 ≤ n)%N → (9007199254740992 ≤ round_double n)%N.
Proof.
  intros Hn. unfold round_double.
  destruct (N.ltb_spec n 9007199254740992) as [|_]; [lia|]. cbn zeta.
  assert (53 ≤ N.log2 n)%N as Hlog.
  { change 53%N with (N.log2 9007199254740992). by apply N.log2_le_mono. }
  set (k := (N.log2 n - 52)%N).
  assert (2 ^ 52 ≤ N.shiftr n k)%N as Hq.
  { rewrite N.shiftr_div_pow2. apply N.div_le_lower_bound; [by apply N.pow_nonzero|].
    rewrite <- N.pow_add_r. replace (k + 52)%N with (N.log2 n) by lia.
    apply N.log2_spec. lia. }
  assert (2 ^ 53 ≤ N.shiftl (N.shiftr n k) k)%N as Hdown.
  { rewrite N.shiftl_mul_pow2.
    transitivity (2 ^ 52 * 2 ^ k)%N; [|by apply N.mul_le_mono_r].
    rewrite <- N.pow_add_r. apply N.pow_le_mono_r; lia. }
  change 9007199254740992%N with (2 ^ 53)%N.
  destruct (_ || _); [|done].
  etransitivity; [exact Hdown|].
  rewrite !N.shiftl_mul_pow2. apply N.mul_le_mono_r. lia.
Qed.

(** [next += nextPart.byteLength] in [getElement]: on an array, which has
    fewer than [2 ^ 53] bytes, the rounded sum passes the test
    [next < seq.length] exactly when the sum does, and then it is the sum.
    This is why [getElement_loop] can keep the sum as it is. *)
Lemma next_sum_rounding (seq : list byte) (next n : N) :
  fits (length seq) = true →
  (double_add next n <? N.of_nat (length seq))%N = (next + n <? N.of_nat (length seq))%N
  ∧ ((next + n < N.of_nat (length seq))%N → double_add next n = (next + n)%N).
Proof.
  intros Hfits%fits_lt. unfold double_add.
  destruct (N.lt_ge_cases (next + n) 9007199254740992) as [Hsmall|Hbig].
  - by rewrite round_double_exact.
  - pose proof (round_double_large _ Hbig). split; [|lia].
    destruct (N.ltb_spec (round_double (next + n)) (N.of_nat (length seq)));
      destruct (N.ltb_spec (next + n) (N.of_nat (length seq))); lia.
Qed.

(** An end inside or behind the array clamps to what [take] takes. *)
Lemma subarray_clamped bytes (begin end_ : nat) :
  subarray bytes begin (clamped bytes (Some (N.of_nat end_)))
    = subarray bytes begin (Some end_).
Proof.
  unfold subarray, clamped. cbn [fmap option_fmap option_map default].
  unfold id. rewrite N2Nat.inj_min, !Nat2N.id.
  destruct (Nat.min_spec end_ (length bytes)) as [[_ ->]|[Hle ->]]; [done|].
  rewrite !take_ge; [done|rewrite length_drop; lia|rewrite length_drop; lia].
Qed.

Lemma to_nat_byte_of_nat (n : nat) : n ≤ 255 → Byte.to_nat (byte_of_nat n) = n.
Proof.
  intros Hn. unfold byte_of_nat.
  destruct (Byte.of_nat n) as [b|] eqn:Hb; simpl.
  - by apply Byte.to_of_nat.
  - apply Byte.of_nat_None_iff in Hb. lia.
Qed.

Lemma at_app_r pre bytes (i : nat) :
  at_ (pre ++ bytes) (length pre + i) = at_ bytes i.
Proof.
  unfold at_. rewrite lookup_app_r by lia. do 2 f_equal. lia.
Qed.

Lemma at_app_here pre (b : byte) tail :
  at_ (pre ++ b :: tail) (length pre) = Some (Byte.to_nat b).
Proof.
  rewrite <- (Nat.add_0_r (length pre)) at 1. by rewrite at_app_r.
Qed.

Lemma subarray_contents pre (value : list byte) rest :
  subarray (pre ++ value ++ rest) (length pre) (Some (length pre + length value)) = value.
Proof.
  unfold subarray. simpl. rewrite drop_app_length.
  replace (length pre + length value - length pre) with (length value) by lia.
  by rewrite take_app_length.
Qed.

Lemma subarray_raw (whole : list byte) rest :
  subarray (whole ++ rest) 0 (Some (length whole)) = whole.
Proof.
  unfold subarray. change (default 0 (Some (length whole))) with (length whole).
  by rewrite Nat.sub_0_r, drop_0, take_app_length.
Qed.

(** The tag loop steps over the continuation octets and stops at the last. *)
Lemma tag_loop_position (middle : list byte) (last : byte) tail
    (tag : option Z) (position : nat) :
  forallb (λ m, 0x80 <=? Byte.to_nat m) middle = true →
  Byte.to_nat last < 0x80 →
  (tag_loop (middle ++ last :: tail) tag position).2 = position + length middle.
Proof.
  revert tag position.
  induction middle as [|m middle IH]; intros tag position Hmiddle Hlast;
    cbn [tag_loop app length].
  - destruct (Nat.leb_spec 0x80 (Byte.to_nat last)); [lia|]. cbn [snd]. lia.
  - cbn [forallb] in Hmiddle. apply andb_true_iff in Hmiddle as [Hm Hmiddle].
    rewrite Hm. rewrite IH by done. lia.
Qed.

Lemma parse_tag_position (octets : list byte) tail :
  wf_identifier octets = true →
  (parse_tag (octets ++ tail)).2 = length octets.
Proof.
  unfold parse_tag, wf_identifier.
  destruct octets as [|b more]; [done|].
  change (at_ ((b :: more) ++ tail) 0) with (Some (Byte.to_nat b)). simpl default.
  destruct more as [|m more'].
  - intros Hb%negb_true_iff%Nat.eqb_neq.
    rewrite bool_decide_eq_false_2 by lia. done.
  - destruct (exists_last (l := m :: more') ltac:(done)) as (middle & last & Heq).
    rewrite Heq. clear Heq m more'. rewrite removelast_last, last_last.
    intros [[Hb%Nat.eqb_eq Hmiddle]%andb_true_iff Hlast%Nat.ltb_lt]%andb_true_iff.
    rewrite bool_decide_eq_true_2 by lia.
    change (drop 1 ((b :: middle ++ [last]) ++ tail))
      with ((middle ++ [last]) ++ tail).
    rewrite <- app_assoc. cbn [app].
    pose proof (tag_loop_position _ _ tail (Some 0%Z) 1 Hmiddle Hlast) as Hpos.
    destruct (tag_loop _ _ _) as [tag position]. cbn [snd] in *. subst position.
    cbn [length]. rewrite length_app. cbn [length]. lia.
Qed.

Lemma foldl_digits_ge (acc : nat) (digits : list byte) :
  acc ≤ foldl (λ a d, a * 256 + Byte.to_nat d) acc digits.
Proof.
  revert acc. induction digits as [|d digits IH]; intros acc; cbn [foldl]; [done|].
  etransitivity; [|apply IH]. lia.
Qed.

(** The digit loop reads the big-endian digits and ends behind them; no sum
    is rounded when the number they spell is below [2 ^ 53]. *)
Lemma length_loop_digits pre (digits : list byte) tail (acc : nat) :
  fits (foldl (λ a d, a * 256 + Byte.to_nat d) acc digits) = true →
  length_loop (length digits) (pre ++ digits ++ tail) (Some (N.of_nat acc)) (length pre)
    = (Some (N.of_nat (foldl (λ a d, a * 256 + Byte.to_nat d) acc digits)),
       length pre + length digits).
Proof.
  revert pre acc. induction digits as [|d digits IH]; intros pre acc Hfits;
    cbn [length length_loop foldl app] in *.
  - by rewrite Nat.add_0_r.
  - rewrite at_app_here. cbn [mbind option_bind].
    replace (N.of_nat acc * 256)%N with (N.of_nat (acc * 256)) by lia.
    rewrite double_add_exact by (eapply fits_le; [apply foldl_digits_ge|done]).
    replace (pre ++ d :: digits ++ tail) with ((pre ++ [d]) ++ digits ++ tail)
      by by rewrite <- app_assoc.
    replace (S (length pre)) with (length (pre ++ [d])).
    2:{ rewrite length_app. cbn [length]. lia. }
    rewrite IH by done. rewrite length_app. cbn [length]. f_equal. lia.
Qed.

Lemma land_long_form (k : nat) : k < 0x80 → Nat.land (0x80 + k) 0x7f = k.
Proof.
  intros Hk. transitivity ((k + 1 * 128) `mod` 2 ^ 7).
  - replace (0x80 + k) with (k + 1 * 128) by lia.
    exact (Nat.land_ones (k + 1 * 128) 7).
  - change (2 ^ 7) with 128. rewrite Nat.Div0.mod_add. by apply Nat.mod_small.
Qed.

Lemma encode_length e :
  length (encode e) = length (identifier e) + length (length_octets e) + length (value e).
Proof. unfold encode. rewrite !length_app. lia. Qed.

(** [parseElement] reads a well-formed TLV back, whatever follows it. *)
Lemma parseElement_encode e rest :
  wf e = true → parseElement (encode e ++ rest) = inr (element_of e).
Proof.
  intros [[Hident Hlen]%andb_true_iff Hfits]%andb_true_iff.
  rewrite encode_length in Hfits.
  unfold parseElement, element_of.
  pose proof (parse_tag_position (identifier e) (length_octets e ++ value e ++ rest) Hident)
    as Hpos.
  rewrite encode_length. unfold encode. rewrite <- !app_assoc.
  destruct (parse_tag _) as [tag position]. cbn [snd] in Hpos. subst position.
  unfold wf_length, length_octets in *.
  destruct (form e) as [|digits].
  - apply Nat.ltb_lt in Hlen. cbn [app].
    rewrite at_app_here. unfold less. cbn [from_option default]. unfold id.
    rewrite to_nat_byte_of_nat by lia.
    destruct (Nat.ltb_spec (length (value e)) 0x80) as [_|?]; [|lia].
    rewrite double_add_exact
      by (eapply fits_le; [|exact Hfits]; cbn [length]; lia).
    rewrite !subarray_clamped.
    f_equal. f_equal.
    + cbn [length]. f_equal. lia.
    + replace (identifier e ++ byte_of_nat (length (value e)) :: value e ++ rest)
        with ((identifier e ++ [byte_of_nat (length (value e))]) ++ value e ++ rest)
        by by rewrite <- app_assoc.
      replace (S (length (identifier e)))
        with (length (identifier e ++ [byte_of_nat (length (value e))]))
        by (rewrite length_app; cbn [length]; lia).
      apply subarray_contents.
    + replace (identifier e ++ byte_of_nat (length (value e)) :: value e ++ rest)
        with ((identifier e ++ [byte_of_nat (length (value e))] ++ value e) ++ rest)
        by by rewrite <- !app_assoc.
      replace (S (length (identifier e)) + length (value e))
        with (length (identifier e ++ [byte_of_nat (length (value e))] ++ value e))
        by (rewrite !length_app; cbn [length]; lia).
      apply subarray_raw.
  - apply andb_true_iff in Hlen as [Hk%Nat.ltb_lt Hvalue%Nat.eqb_eq]. cbn [app].
    rewrite at_app_here. unfold less. cbn [from_option default]. unfold id.
    rewrite to_nat_byte_of_nat by lia.
    destruct (Nat.ltb_spec (0x80 + length digits) 0x80) as [?|_]; [lia|].
    rewrite bool_decide_eq_false_2 by lia.
    rewrite land_long_form by done.
    replace (identifier e ++ byte_of_nat (0x80 + length digits) :: digits ++ value e ++ rest)
      with ((identifier e ++ [byte_of_nat (0x80 + length digits)])
              ++ digits ++ value e ++ rest)
      by by rewrite <- app_assoc.
    replace (S (length (identifier e)))
      with (length (identifier e ++ [byte_of_nat (0x80 + length digits)]))
      by (rewrite length_app; cbn [length]; lia).
    change (Some 0%N) with (Some (N.of_nat 0)).
    rewrite length_loop_digits
      by (fold (be_value digits); rewrite Hvalue; eapply fits_le; [|exact Hfits]; lia).
    fold (be_value digits). rewrite Hvalue.
    cbn [fmap option_fmap option_map].
    rewrite double_add_exact
      by (eapply fits_le; [|exact Hfits]; rewrite length_app; cbn [length]; lia).
    rewrite !subarray_clamped.
    f_equal. f_equal.
    + rewrite length_app. cbn [length]. f_equal. lia.
    + rewrite (app_assoc _ digits). rewrite <- length_app.
      apply subarray_contents.
    + set (whole := identifier e ++ byte_of_nat (0x80 + length digits) :: digits ++ value e).
      replace ((identifier e ++ [byte_of_nat (0x80 + length digits)])
                 ++ digits ++ value e ++ rest)
        with (whole ++ rest)
        by (unfold whole; rewrite <- !app_assoc; cbn [app];
            by rewrite <- ?app_assoc).
      replace (length (identifier e ++ [byte_of_nat (0x80 + length digits)])
               + length digits + length (value e))
        with (length whole)
        by (unfold whole; rewrite !length_app; cbn [length]; rewrite length_app; lia).
      apply subarray_raw.
Qed.

Lemma encode_nonempty e : wf e = true → 0 < length (encode e).
Proof.
  intros [[Hident _]%andb_true_iff _]%andb_true_iff. rewrite encode_length.
  destruct (identifier e); [done|]. cbn [length]. lia.
Qed.

(** On a run of well-formed TLVs the loop of [getElement] yields one element
    per TLV, and its rounds suffice. *)
Lemma getElement_loop_encoded (es : list Tlv) pre (result : list Element) (rounds : nat) :
  forallb wf es = true →
  length (concat (encode <$> es)) ≤ rounds →
  getElement_loop rounds (pre ++ concat (encode <$> es)) (N.of_nat (length pre)) result
    = inr (result ++ (element_of <$> es)).
Proof.
  revert pre result rounds.
  induction es as [|e es IH]; intros pre result rounds Hwf Hrounds.
  - cbn [fmap list_fmap concat]. rewrite !app_nil_r.
    destruct rounds; cbn [getElement_loop];
      by destruct (N.ltb_spec (N.of_nat (length pre)) (N.of_nat (length pre))); [lia|].
  - cbn [forallb] in Hwf. apply andb_true_iff in Hwf as [He Hes].
    cbn [fmap list_fmap concat] in *. rewrite length_app in Hrounds.
    pose proof (encode_nonempty e He) as Hpos.
    destruct rounds as [|rounds]; [lia|]. cbn [getElement_loop].
    destruct (N.ltb_spec (N.of_nat (length pre))
                (N.of_nat (length (pre ++ encode e ++ concat (encode <$> es)))))
      as [_|Hge]; [|rewrite !length_app in Hge; lia].
    rewrite Nat2N.id, drop_app_length, parseElement_encode by done.
    cbn [mbind Result_bind element_of byteLength].
    replace (N.of_nat (length pre) + N.of_nat (length (encode e)))%N
      with (N.of_nat (length (pre ++ encode e))) by (rewrite length_app; lia).
    rewrite app_assoc.
    rewrite IH by (done || lia).
    by rewrite <- app_assoc.
Qed.

Lemma getElement_encoded (es : list Tlv) :
  forallb wf es = true →
  getElement (concat (encode <$> es)) = inr (element_of <$> es).
Proof.
  intros Hwf. unfold getElement.
  exact (getElement_loop_encoded es [] [] _ Hwf (le_n _)).
Qed.

Lemma byte_of_to_nat (b c : byte) : Byte.to_nat b = Byte.to_nat c → b = c.
Proof.
  intros Heq. pose proof (Byte.of_to_nat b) as Hb. rewrite Heq, Byte.of_to_nat in Hb.
  by injection Hb.
Qed.

Lemma at_head bytes (c : byte) :
  at_ bytes 0 = Some (Byte.to_nat c) ↔ head bytes = Some c.
Proof.
  unfold at_. destruct bytes as [|b bytes]; simpl; [done|].
  split; intros [= Heq]; f_equal; [by apply byte_of_to_nat|by subst].
Qed.

(** ** [parseElement] and [getElement] never throw

    The indefinite-form arm of [parseElement] tests the variable [length],
    which is still 0, so it is never taken; and the rounds given to the loop
    of [getElement] are never used up. *)

Lemma tag_loop_position_ge rest (tag : option Z) (position : nat) :
  position ≤ (tag_loop rest tag position).2.
Proof.
  revert tag position. induction rest as [|b rest IH]; intros tag position;
    cbn [tag_loop]; [done|].
  destruct (0x80 <=? Byte.to_nat b); [|done].
  etransitivity; [|apply IH]. lia.
Qed.

Lemma parse_tag_position_ge bytes : 1 ≤ (parse_tag bytes).2.
Proof.
  unfold parse_tag. case_bool_decide; [|done].
  pose proof (tag_loop_position_ge (drop 1 bytes) (Some 0%Z) 1) as Hge.
  destruct (tag_loop _ _ _) as [tag position]. cbn [snd] in *. lia.
Qed.

Lemma length_loop_position (n : nat) bytes (l : option N) (position : nat) :
  (length_loop n bytes l position).2 = position + n.
Proof.
  revert l position. induction n as [|n IH]; intros l position; cbn [length_loop].
  - cbn [snd]. lia.
  - rewrite IH. lia.
Qed.

Lemma parseElement_total bytes :
  ∃ el, parseElement bytes = inr el ∧ ∀ n, byteLength el = Some n → (1 ≤ n)%N.
Proof.
  unfold parseElement. pose proof (parse_tag_position_ge bytes) as Hge.
  destruct (parse_tag bytes) as [tag position]. cbn [snd] in Hge.
  destruct (less _ _).
  - eexists. split; [done|]. cbn [byteLength]. intros n [= <-].
    apply double_add_pos. lia.
  - rewrite bool_decide_eq_false_2 by lia.
    pose proof (length_loop_position
                  (Nat.land (default 0 (at_ bytes position)) 0x7f) bytes (Some 0%N)
                  (S position)) as Hpos.
    destruct (length_loop _ _ _ _) as [l position']. cbn [snd] in Hpos.
    eexists. split; [done|]. cbn [byteLength].
    destruct l as [l|]; cbn [fmap option_fmap option_map]; [|done].
    intros n [= <-]. apply double_add_pos. lia.
Qed.

Lemma getElement_loop_total (rounds : nat) (seq : list byte) (next : N)
    (result : list Element) :
  length seq - N.to_nat next ≤ rounds →
  ∃ elements, getElement_loop rounds seq next result = inr elements.
Proof.
  revert next result. induction rounds as [|rounds IH]; intros next result Hrounds;
    cbn [getElement_loop]; destruct (N.ltb_spec next (N.of_nat (length seq)));
    try lia; try by eexists.
  destruct (parseElement_total (drop (N.to_nat next) seq)) as (el & -> & Hel).
  cbn [mbind Result_bind].
  destruct (byteLength el) as [n|] eqn:Hn; [|by eexists].
  specialize (Hel n eq_refl). apply IH. lia.
Qed.

Lemma getElement_rounds (seq : list byte) : ∃ elements, getElement seq = inr elements.
Proof. apply getElement_loop_total. lia. Qed.

(** ** The DER length form is well-formed *)

Lemma foldl_digits (acc : nat) (digits : list byte) :
  foldl (λ a d, a * 256 + Byte.to_nat d) acc digits
    = acc * 256 ^ length digits + be_value digits.
Proof.
  unfold be_value. revert acc.
  induction digits as [|d digits IH]; intros acc; cbn [foldl length].
  - rewrite Nat.pow_0_r. lia.
  - rewrite IH, (IH (0 * 256 + Byte.to_nat d)), Nat.pow_succ_r'. lia.
Qed.

Lemma digits_of_value (rounds n : nat) (acc : list byte) :
  n ≤ rounds →
  be_value (digits_of rounds n acc) = n * 256 ^ length acc + be_value acc.
Proof.
  revert n acc. induction rounds as [|rounds IH]; intros n acc Hn; cbn [digits_of].
  - replace n with 0 by lia. lia.
  - destruct (Nat.eqb_spec n 0) as [->|Hpos]; [lia|].
    pose proof (Nat.div_lt n 256 ltac:(lia) ltac:(lia)).
    rewrite IH by lia. cbn [length].
    unfold be_value at 1. cbn [foldl]. rewrite foldl_digits.
    pose proof (Nat.mod_upper_bound n 256 ltac:(lia)).
    rewrite to_nat_byte_of_nat by lia. rewrite Nat.pow_succ_r'.
    rewrite (Nat.div_mod_eq n 256) at 3. lia.
Qed.

Lemma digits_of_length (rounds n k : nat) (acc : list byte) :
  n < 256 ^ k →
  length (digits_of rounds n acc) ≤ k + length acc.
Proof.
  revert n k acc. induction rounds as [|rounds IH]; intros n k acc Hn; cbn [digits_of];
    [lia|].
  destruct (Nat.eqb_spec n 0) as [->|Hpos]; [lia|].
  destruct k as [|k]; [rewrite Nat.pow_0_r in Hn; lia|].
  rewrite Nat.pow_succ_r' in Hn.
  etransitivity; [apply (IH _ k)|cbn [length]; lia].
  apply Nat.Div0.div_lt_upper_bound. lia.
Qed.

(** Every TLV built the DER way that an array can hold is well-formed, so
    the results above cover DER. *)
Lemma der_wf (octets value : list byte) :
  wf_identifier octets = true →
  fits (length (encode (der octets value))) = true →
  wf (der octets value) = true.
Proof.
  intros Hident Hfits. unfold wf. rewrite Hfits, andb_true_r.
  assert (length value < 256 ^ 127) as Hbound.
  { rewrite encode_length in Hfits. apply fits_lt in Hfits.
    cbn [Der.value der] in Hfits.
    assert (256 ^ 7 ≤ 256 ^ 127) as Hpow by (apply Nat.pow_le_mono_r; lia).
    assert (N.of_nat (256 ^ 7) = 72057594037927936%N) as Hseven
      by (rewrite Nat2N.inj_pow; reflexivity).
    lia. }
  unfold der, wf_length, der_form. cbn [identifier form Der.value].
  rewrite Hident. cbn [andb].
  destruct (Nat.ltb_spec (length value) 0x80) as [Hshort|Hlong].
  - done.
  - apply andb_true_iff. split.
    + apply Nat.ltb_lt.
      pose proof (digits_of_length (length value) (length value) 127 [] Hbound).
      cbn [length] in *. lia.
    + apply Nat.eqb_eq. rewrite digits_of_value by done.
      cbn [length]. rewrite Nat.pow_0_r. unfold be_value. cbn [foldl]. lia.
Qed.

End Asn1Properties.


Section X509Properties.
Context `{CryptoImports}.

Import Asn1 Der.

(** C9: a certificate is a TLV whose value starts with the TLV of
    [tbsCertificate]; the value of that one is the run of its fields.  When
    all of them are well-formed definite-length encodings, as in DER, each
    of fewer than 2^53 bytes as every encoding in an array is,
    [spkiFromX509] returns the base64 of the raw bytes of field 6 if the
    first raw byte of field 0 is [0xA0], and of field 5 otherwise. *)
Theorem spkiFromX509_index
    (certificate tbsCertificate : Tlv) (fields others : list Tlv)
    (trailing : list byte) (first subjectPublicKeyInfo : Tlv) :
  wf certificate = true →
  wf tbsCertificate = true →
  forallb wf fields = true →
  forallb wf others = true →
  value certificate = encode tbsCertificate ++ concat (encode <$> others) →
  value tbsCertificate = concat (encode <$> fields) →
  fields !! 0 = Some first →
  fields !! (if bool_decide (head (encode first) = Some Byte.xa0) then 6 else 5)
    = Some subjectPublicKeyInfo →
  spkiFromX509 (encode certificate ++ trailing)
    = inr (uint8ArrayToBase64 (encode subjectPublicKeyInfo)).
Proof.
  intros Hcert Htbs Hfields Hothers Hvalue Htbsvalue Hfirst Hspki.
  unfold spkiFromX509.
  rewrite parseElement_encode by done. cbn [mbind Result_bind element_of contents].
  rewrite Hvalue.
  change (encode tbsCertificate ++ concat (encode <$> others))
    with (concat (encode <$> tbsCertificate :: others)).
  rewrite getElement_encoded by (cbn [forallb]; by rewrite Htbs, Hothers).
  cbn [mbind Result_bind fmap list_fmap lookup list_lookup element_of contents].
  rewrite Htbsvalue, getElement_encoded by done.
  cbn [mbind Result_bind]. rewrite !list_lookup_fmap, Hfirst.
  cbn [fmap option_fmap option_map element_of raw].
  change 0xa0 with (Byte.to_nat Byte.xa0).
  rewrite (bool_decide_ext _ _ (at_head (encode first) Byte.xa0)).
  rewrite list_lookup_fmap, Hspki. reflexivity.
Qed.

End X509Properties.

Lemma spkiFromX509_index_witness :
  @Asn1.spkiFromX509 CryptoFixture.imports (Der.encode Der.sample_certificate)
    = inr (CryptoFixture.base64 (Der.encode Der.sample_spki)).
Proof.
  rewrite <- (app_nil_r (Der.encode Der.sample_certificate)).
  apply (@spkiFromX509_index CryptoFixture.imports
           Der.sample_certificate Der.sample_tbs Der.sample_fields Der.sample_others []
           Der.sample_version Der.sample_spki);
    vm_compute; reflexivity.
Defined.

(** A version 1 certificate has no version field, and the key is field 5. *)
Example spkiFromX509_version_1 :
  head (Der.encode (Der.der [Byte.x02] [Byte.x2a])) ≠ Some Byte.xa0
  ∧ @Asn1.spkiFromX509 CryptoFixture.imports (Der.encode Der.sample_certificate_v1)
      = inr (CryptoFixture.base64 (Der.encode Der.sample_spki)).
Proof. split; [discriminate|]. vm_compute. reflexivity. Qed.

(** A sequence that ends inside its length octets parses to one element
    with a NaN length and no bytes, and the walk stops there. *)
Example getElement_truncated :
  Asn1.getElement [Byte.x30; Byte.x82; Byte.x00]
    = inr [{| Asn1.byteLength := None; Asn1.contents := []; Asn1.raw := [] |}].
Proof. reflexivity. Qed.

(** * Properties of the PEM import *)

(** Membership in a list of string literals. *)
Ltac cases_of H :=
  rewrite ?elem_of_cons, ?elem_of_nil in H;
  repeat match type of H with _ ∨ _ => destruct H as [H|H] end;
  try contradiction.

Ltac known_member H := cases_of H; rewrite H; repeat constructor.

Ltac other_member H H' :=
  cases_of H; rewrite H in H'; unfold PemImport.curve_algorithms in H'; cases_of H'; discriminate.

Ltac positive tac :=
  match goal with
  | Hp : _ ∈ _ |- _ => solve [tac Hp]
  | Hp : _ = _ |- _ => solve [tac Hp]
  end.

Ltac sublist :=
  let x := fresh "x" in
  let Hx := fresh "Hx" in
  intros x Hx; cases_of Hx; rewrite Hx; repeat constructor.

Ltac no_member H :=
  unfold PemImport.import_algorithms in H; cases_of H;
  match goal with
  | Hn : _ |- _ => solve [exfalso; apply Hn; rewrite H; first [reflexivity|repeat constructor]]
  end.

(** One case per label of a [switch] that is modelled as nested tests. *)
Ltac switch_cases :=
  repeat match goal with
         | |- context [lift (if bool_decide ?P then _ else _)] =>
             let Halg := fresh "Halg" in
             destruct (decide P) as [Halg|Halg];
             [rewrite (bool_decide_eq_true_2 P Halg)
             |rewrite (bool_decide_eq_false_2 P Halg)]
         end.

Section FindOid.

Import PemImport.

Implicit Types (keyData : list byte) (pattern oid : list nat).

Lemma occurs_match_at keyData pattern :
  occurs pattern keyData ↔ ∃ i, match_at keyData i pattern.
Proof.
  unfold occurs, match_at. split.
  - intros (before & after & Heq). exists (length before).
    rewrite fmap_take, fmap_drop, Heq.
    rewrite drop_app_length'; [|done]. by rewrite take_app_length.
  - intros (i & Hi). exists (Byte.to_nat <$> take i keyData),
      (Byte.to_nat <$> drop (length pattern) (drop i keyData)).
    rewrite <- (take_drop i keyData) at 1. rewrite fmap_app. f_equal.
    rewrite <- (take_drop (length pattern) (drop i keyData)) at 1.
    rewrite fmap_app. by rewrite Hi.
Qed.

Lemma match_at_head keyData (i p : nat) pattern :
  match_at keyData i (p :: pattern) →
  ∃ b, keyData !! i = Some b ∧ Byte.to_nat b = p.
Proof.
  unfold match_at. cbn [length]. intros Heq.
  destruct (drop i keyData) as [|b rest] eqn:Hdrop; [done|].
  cbn in Heq. injection Heq as Hb _. exists b. split; [|done].
  by rewrite <- (Nat.add_0_r i), <- lookup_drop, Hdrop.
Qed.

Lemma match_at_length keyData (i : nat) pattern :
  match_at keyData i pattern → i + length pattern ≤ length keyData ∨ pattern = [].
Proof.
  unfold match_at. intros Heq. apply (f_equal length) in Heq.
  rewrite length_fmap, length_take, length_drop in Heq.
  destruct pattern; [by right|left]. cbn [length] in *. lia.
Qed.

Lemma indexOf_Some keyData (x : option nat) (from i : nat) :
  indexOf keyData x from = Some i ↔
  from ≤ i ∧ (∃ b, keyData !! i = Some b ∧ Some (Byte.to_nat b) = x)
  ∧ ∀ j b, from ≤ j → j < i → keyData !! j = Some b → Some (Byte.to_nat b) ≠ x.
Proof.
  unfold indexOf. split.
  - destruct (list_find _ _) as [[k b]|] eqn:Hfind; [|done].
    cbn. intros [= <-]. apply list_find_Some in Hfind as (Hk & Hb & Hfirst).
    rewrite lookup_drop in Hk. split; [lia|]. split; [by exists b|].
    intros j c Hj Hji Hc. apply (Hfirst (j - from) c); [|lia].
    rewrite lookup_drop. by replace (from + (j - from)) with j by lia.
  - intros (Hle & (b & Hb & Hx) & Hfirst).
    assert (list_find (λ b, Some (Byte.to_nat b) = x) (drop from keyData)
            = Some (i - from, b)) as ->.
    { apply list_find_Some. split; [|split; [done|]].
      - rewrite lookup_drop. by replace (from + (i - from)) with i by lia.
      - intros j c Hc Hj. rewrite lookup_drop in Hc.
        apply (Hfirst (from + j) c); [lia|lia|done]. }
    cbn. f_equal. lia.
Qed.

Lemma indexOf_None keyData (x : option nat) (from : nat) :
  indexOf keyData x from = None ↔
  ∀ j b, from ≤ j → keyData !! j = Some b → Some (Byte.to_nat b) ≠ x.
Proof.
  unfold indexOf. split.
  - destruct (list_find _ _) as [[k b]|] eqn:Hfind; [done|]. intros _.
    pose proof (proj1 (list_find_None _ _) Hfind) as Hall.
    intros j c Hj Hc. rewrite Forall_forall in Hall. apply Hall.
    apply list_elem_of_lookup. exists (j - from).
    rewrite lookup_drop. by replace (from + (j - from)) with j by lia.
  - intros Hnone.
    destruct (list_find _ _) as [[k b]|] eqn:Hfind; [|done].
    apply list_find_Some in Hfind as (Hk & Hb & _). rewrite lookup_drop in Hk.
    by destruct (Hnone (from + k) b ltac:(lia) Hk).
Qed.

Lemma findOid_rounds_unfold (rounds : nat) keyData oid (from : nat) :
  findOid_rounds rounds keyData oid from =
    let oid := if bool_decide (from = 0) then 0x06 :: length oid :: oid else oid in
    match indexOf keyData (oid !! 0) from with
    | None => false
    | Some i =>
        let sub := Asn1.subarray keyData i (Some (i + length oid)) in
        if negb (length sub =? length oid) then false
        else
          bool_decide (Byte.to_nat <$> sub = oid)
          || match rounds with
             | 0 => false
             | S rounds' => findOid_rounds rounds' keyData oid (i + 1)
             end
    end.
Proof. by destruct rounds. Qed.

Lemma subarray_take keyData (i n : nat) :
  Asn1.subarray keyData i (Some (i + n)) = take n (drop i keyData).
Proof.
  unfold Asn1.subarray. change (default 0 (Some (i + n))) with (i + n).
  by replace (i + n - i) with n by lia.
Qed.

(** The search from [from] on finds the pattern exactly when it matches at
    some index from [from] on, provided the rounds cover the rest of the
    array. *)
Lemma findOid_rounds_spec keyData (rounds : nat) :
  ∀ (from : nat) oid,
    (if bool_decide (from = 0) then der_oid oid else oid) ≠ [] →
    length keyData - from ≤ rounds →
    findOid_rounds rounds keyData oid from = true ↔
    ∃ i, from ≤ i
         ∧ match_at keyData i (if bool_decide (from = 0) then der_oid oid else oid).
Proof.
  induction rounds as [|rounds IH]; intros from oid;
    rewrite findOid_rounds_unfold; fold (der_oid oid);
    set (pattern := if bool_decide (from = 0) then der_oid oid else oid);
    cbn zeta; intros Hpattern Hrounds;
    (destruct pattern as [|p rest] eqn:Heq; [done|]); cbn [lookup list_lookup];
    rewrite <- Heq; clear Hpattern.
  all: destruct (indexOf keyData (Some p) from) as [i|] eqn:Hindex.
  all: try (apply indexOf_None in Hindex; split; [done|];
            intros (j & Hj & Hmatch); rewrite Heq in Hmatch;
            apply match_at_head in Hmatch as (b & Hb & Hp);
            destruct (Hindex j b Hj Hb); by rewrite Hp).
  all: try (pose proof (proj1 (indexOf_None _ _ _) Hindex) as Hnone; split; [done|];
            intros (j & Hj & Hmatch); rewrite Heq in Hmatch;
            apply match_at_head in Hmatch as (b & Hb & Hp);
            destruct (Hnone j b Hj Hb); by rewrite Hp).
  all: pose proof (proj1 (indexOf_Some _ _ _ _) Hindex) as (Hle & (b & Hb & Hp) & Hfirst).
  all: pose proof (lookup_lt_Some _ _ _ Hb) as Hlt.
  all: rewrite subarray_take.
  all: assert (∀ j, from ≤ j → match_at keyData j pattern → i ≤ j) as Hge by
      (intros j Hj Hmatch; rewrite Heq in Hmatch;
       apply match_at_head in Hmatch as (c & Hc & Hcp);
       destruct (decide (i ≤ j)); [done|];
       destruct (Hfirst j c Hj ltac:(lia) Hc); by rewrite Hcp).
  all: destruct (Nat.eqb_spec (length (take (length pattern) (drop i keyData)))
                              (length pattern)) as [Hlen|Hlen]; cbn [negb].
  all: try (split; [done|]; intros (j & Hj & Hmatch);
            pose proof (Hge j Hj Hmatch);
            apply match_at_length in Hmatch as [Hfit|Hnil]; [|by rewrite Heq in Hnil];
            rewrite length_take, length_drop in Hlen; lia).
  - lia.
  - case_bool_decide as Hsub; cbn [orb].
    + split; [|done]. intros _. by exists i.
    + rewrite IH; [| |lia].
      * rewrite bool_decide_eq_false_2 by lia. split.
        -- intros (j & Hj & Hmatch). exists j. split; [lia|done].
        -- intros (j & Hj & Hmatch). exists j. split; [|done].
           pose proof (Hge j Hj Hmatch).
           destruct (decide (j = i)) as [->|]; [done|lia].
      * rewrite bool_decide_eq_false_2 by lia. by rewrite Heq.
Qed.

Lemma findOid_iff_occurs keyData oid :
  findOid keyData oid = true ↔ occurs (der_oid oid) keyData.
Proof.
  unfold findOid. rewrite occurs_match_at.
  rewrite (findOid_rounds_spec keyData (length keyData) 0 oid); [|done|lia].
  rewrite bool_decide_eq_true_2 by done. split.
  - intros (i & _ & Hmatch). by exists i.
  - intros (i & Hmatch). exists i. split; [lia|done].
Qed.

(** X1: [findOid(keyData, oid)] is true exactly when the DER encoding of the
    object identifier, the tag [0x06], the length and the bytes of [oid],
    occurs in [keyData] as a run of consecutive bytes.  The bound on the
    recursion of the model is never what ends the search. *)
Theorem findOid_occurs keyData oid :
  findOid keyData oid = true ↔ occurs (der_oid oid) keyData.
Proof. apply findOid_iff_occurs. Qed.

Lemma findOid_false keyData oid :
  findOid keyData oid = false ↔ ¬ occurs (der_oid oid) keyData.
Proof. rewrite <- findOid_iff_occurs. by destruct (findOid keyData oid). Qed.

Ltac curve_cases H :=
  unfold getNamedCurve in H;
  repeat match type of H with
         | context [findOid ?k ?o] =>
             let Hf := fresh "Hoid" in
             destruct (findOid k o) eqn:Hf;
             [apply findOid_iff_occurs in Hf | apply findOid_false in Hf]
         end.

(** X2: [getNamedCurve] returns the first curve, in the order of its
    [case]s, whose object identifier occurs in the key data; no curve in
    front of it occurs. *)
Theorem getNamedCurve_first_match keyData (curve : string) :
  getNamedCurve keyData = inr curve ↔
  ∃ (i : nat) oid,
    named_curves !! i = Some (curve, oid)
    ∧ occurs (der_oid oid) keyData
    ∧ ∀ (j : nat) c o, j < i → named_curves !! j = Some (c, o) →
                       ¬ occurs (der_oid o) keyData.
Proof.
  split.
  - intros Hcurve. curve_cases Hcurve; [..|discriminate];
      injection Hcurve as <-;
      [exists 0|exists 1|exists 2|exists 3|exists 4|exists 5|exists 6];
      (eexists; split; [reflexivity|]; split; [eassumption|]);
      intros j c o Hj Hlook;
      do 7 (destruct j as [|j]; [try lia; injection Hlook as <- <-; assumption|]);
      lia.
  - intros (i & oid & Hlook & Hocc & Hfirst).
    assert (∀ (j : nat) c o, named_curves !! j = Some (c, o) → j < i →
                             findOid keyData o = false) as Hnone.
    { intros j c o Hj Hlt. apply findOid_false. by apply (Hfirst j c o). }
    apply findOid_iff_occurs in Hocc. unfold getNamedCurve.
    do 7 (destruct i as [|i];
          [injection Hlook as <- <-;
           try rewrite (Hnone 0 _ _ eq_refl) by lia;
           try rewrite (Hnone 1 _ _ eq_refl) by lia;
           try rewrite (Hnone 2 _ _ eq_refl) by lia;
           try rewrite (Hnone 3 _ _ eq_refl) by lia;
           try rewrite (Hnone 4 _ _ eq_refl) by lia;
           try rewrite (Hnone 5 _ _ eq_refl) by lia;
           by rewrite Hocc
          |]).
    done.
Qed.

Lemma getNamedCurve_unknown keyData :
  Forall (λ curve, ¬ occurs (der_oid curve.2) keyData) named_curves →
  getNamedCurve keyData
    = inl (PlainError "Invalid or unsupported EC Key Curve or OKP Key Sub Type").
Proof.
  intros Hnone. unfold named_curves in Hnone.
  rewrite !Forall_cons in Hnone. cbn [snd] in Hnone.
  destruct Hnone as (H0 & H1 & H2 & H3 & H4 & H5 & H6 & _).
  apply findOid_false in H0, H1, H2, H3, H4, H5, H6.
  unfold getNamedCurve. by rewrite H0, H1, H2, H3, H4, H5, H6.
Qed.

(** X3: [getNamedCurve] throws exactly when none of the seven object
    identifiers occurs in the key data, and then with the message "Invalid or
    unsupported EC Key Curve or OKP Key Sub Type". *)
Theorem getNamedCurve_error keyData (e : Error) :
  getNamedCurve keyData = inl e ↔
  e = PlainError "Invalid or unsupported EC Key Curve or OKP Key Sub Type"
  ∧ Forall (λ curve, ¬ occurs (der_oid curve.2) keyData) named_curves.
Proof.
  split.
  - intros Hcurve. curve_cases Hcurve; try discriminate.
    injection Hcurve as <-. split; [done|].
    unfold named_curves. repeat constructor; assumption.
  - intros [-> Hnone]. by apply getNamedCurve_unknown.
Qed.

End FindOid.

Section Strip.

Import PemImport.

Implicit Types (label body rest : string).

Lemma append_cons (c : ascii) (s rest : string) :
  String c s +:+ rest = String c (s +:+ rest).
Proof. reflexivity. Qed.

Lemma append_empty_r (s : string) : s +:+ EmptyString = s.
Proof. induction s as [|c s IH]; [done|]. by rewrite append_cons, IH. Qed.

Lemma strip_from_skip label (dropped rest : string) :
  strip_from label (dropped +:+ rest) (String.length dropped) = strip_from label rest 0.
Proof.
  induction dropped as [|c dropped IH]; [|exact IH].
  destruct rest; reflexivity.
Qed.

Lemma prefix_app (marker rest : string) : String.prefix marker (marker +:+ rest) = true.
Proof.
  induction marker as [|c marker IH]; [by destruct rest|].
  rewrite append_cons. cbn [String.prefix]. by destruct (ascii_dec c c).
Qed.

Lemma strip_from_BEGIN label rest :
  strip_from label (BEGIN label +:+ rest) 0 = strip_from label rest 0.
Proof.
  pose proof (prefix_app (BEGIN label) rest) as Hprefix.
  change (BEGIN label +:+ rest)
    with (String "-" (("----BEGIN " +:+ label +:+ "-----") +:+ rest)) in *.
  cbn [strip_from]. rewrite Hprefix.
  change (String.length (BEGIN label))
    with (S (String.length ("----BEGIN " +:+ label +:+ "-----"))).
  cbn [Nat.sub]. rewrite Nat.sub_0_r. apply strip_from_skip.
Qed.

Lemma strip_from_END label rest :
  strip_from label (END_ label +:+ rest) 0 = strip_from label rest 0.
Proof.
  pose proof (prefix_app (END_ label) rest) as Hprefix.
  assert (String.prefix (BEGIN label) (END_ label +:+ rest) = false) as Hbegin
    by reflexivity.
  change (END_ label +:+ rest)
    with (String "-" (("----END " +:+ label +:+ "-----") +:+ rest)) in *.
  cbn [strip_from]. rewrite Hbegin, Hprefix.
  change (String.length (END_ label))
    with (S (String.length ("----END " +:+ label +:+ "-----"))).
  cbn [Nat.sub]. rewrite Nat.sub_0_r. apply strip_from_skip.
Qed.

Lemma strip_from_plain label body rest :
  "-"%char ∉ String.list_ascii_of_string body →
  strip_from label (body +:+ rest) 0 = remove_space body +:+ strip_from label rest 0.
Proof.
  induction body as [|c body IH]; [done|].
  cbn [String.list_ascii_of_string]. rewrite not_elem_of_cons. intros [Hc Hbody].
  rewrite append_cons. cbn [strip_from remove_space].
  assert (∀ marker s, String.prefix (String "-" marker) (String c s) = false) as Hprefix.
  { intros marker s. cbn [String.prefix]. by destruct (ascii_dec "-" c). }
  change (BEGIN label) with (String "-" ("----BEGIN " +:+ label +:+ "-----")).
  change (END_ label) with (String "-" ("----END " +:+ label +:+ "-----")).
  rewrite !Hprefix, (IH Hbody). by destruct (is_space c).
Qed.

(** X4: what [fromSPKI], [fromPKCS8] and [getSPKI] strip off a PEM.  When
    the text in front of the [BEGIN] line, between the two marker lines and
    behind the [END] line holds no hyphen, as base64 never does, the result
    is that text without the two markers and without any white space. *)
Theorem strip_armor label (before body after : string) :
  "-"%char ∉ String.list_ascii_of_string before →
  "-"%char ∉ String.list_ascii_of_string body →
  "-"%char ∉ String.list_ascii_of_string after →
  strip label (before +:+ BEGIN label +:+ body +:+ END_ label +:+ after)
    = remove_space before +:+ remove_space body +:+ remove_space after.
Proof.
  intros Hbefore Hbody Hafter. unfold strip.
  rewrite (strip_from_plain _ _ _ Hbefore), strip_from_BEGIN.
  rewrite (strip_from_plain _ _ _ Hbody), strip_from_END.
  rewrite <- (append_empty_r after) at 1.
  rewrite (strip_from_plain _ _ _ Hafter). cbn [strip_from].
  by rewrite append_empty_r.
Qed.

Lemma strip_from_no_space label (pem : string) :
  ∀ skip : nat,
    Forall (λ c, is_space c = false)
           (String.list_ascii_of_string (strip_from label pem skip)).
Proof.
  induction pem as [|c pem IH]; intros skip; [constructor|].
  cbn [strip_from]. destruct skip; [|apply IH].
  repeat match goal with |- context [if ?b then _ else _] => destruct b eqn:? end;
    try apply IH.
  cbn [String.list_ascii_of_string]. by constructor.
Qed.

(** Whatever the PEM text, what is left of it after the replacement holds
    no white space. *)
Theorem strip_no_space label (pem : string) :
  Forall (λ c, is_space c = false) (String.list_ascii_of_string (strip label pem)).
Proof. apply strip_from_no_space. Qed.

End Strip.

Section ImportProperties.

Import PemImport.

Context `{ImportImports}.

Implicit Types (input : ImportInput) (ctx : option ImportContext).

Lemma bind_lift_value {C A B} (a : A) (f : A → Traced C B) :
  lift (inr a) ≫= f = f a.
Proof. apply bind_ret. Qed.

Lemma bind_lift_thrown {C A B} (e : Error) (f : A → Traced C B) :
  lift (inl e : Result A) ≫= f = ([], inl e).
Proof. reflexivity. Qed.

(** The two ways [genericImport] can end: with an error and no call, or
    with one call of [importKey], whose result is its own. *)
Lemma genericImport_cases input (replace : string) (keyFormat : KeyFormat) ctx :
  (∃ e, genericImport input replace keyFormat ctx = ([], inl e)
        ∧ (atob (strip replace (pem input)) = inl e
           ∨ ∃ binary,
               atob (strip replace (pem input)) = inr binary
               ∧ ((e = UnsupportedAlg ∧ alg input ∉ import_algorithms)
                  ∨ (alg input ∈ curve_algorithms
                     ∧ getNamedCurve (charCodes binary) = inl e))))
  ∨ (∃ binary algorithm keyUsages,
       atob (strip replace (pem input)) = inr binary
       ∧ alg input ∈ import_algorithms
       ∧ keyUsages ⊆ usages_of keyFormat
       ∧ (alg input ∈ curve_algorithms →
          ∃ namedCurve, getNamedCurve (charCodes binary) = inr namedCurve)
       ∧ genericImport input replace keyFormat ctx =
           ([Call_importKey keyFormat (charCodes binary) algorithm
               (default false (extractable input)) keyUsages],
            subtle_importKey (withImportContext ctx) keyFormat (charCodes binary) algorithm
              (default false (extractable input)) keyUsages)).
Proof.
  unfold genericImport.
  destruct (atob (strip replace (pem input))) as [e|binary] eqn:Hatob.
  { left. exists e. split; [done|by left]. }
  rewrite bind_lift_value.
  assert (∀ (a b : list string),
            a ⊆ usages_of spki → b ⊆ usages_of pkcs8 →
            (if bool_decide (keyFormat = spki) then a else b) ⊆ usages_of keyFormat)
    as Husages.
  { intros a b Ha Hb. by destruct keyFormat. }
  assert (∀ l : list string, alg input ∈ l → l ⊆ import_algorithms →
                             alg input ∈ import_algorithms) as Hknown.
  { intros l Hl Hsub. by apply Hsub. }
  repeat match goal with
         | |- context [lift (if bool_decide ?P then _ else _)] =>
             let Halg := fresh "Halg" in
             destruct (decide P) as [Halg|Halg];
             [rewrite (bool_decide_eq_true_2 P Halg)
             |rewrite (bool_decide_eq_false_2 P Halg)]
         end.
  1-6: rewrite bind_lift_value; right; eexists _, _, _;
    (split; [reflexivity|]); (split; [|split; [|split; [|reflexivity]]]);
    [positive known_member
    |apply Husages; sublist
    |intros Hcurve; positive ltac:(fun Hp => other_member Hp Hcurve)].
  1-2: destruct (getNamedCurve (charCodes binary)) as [e|namedCurve] eqn:Hcurve;
    [left; exists e; split; [done|]; right; exists binary; split; [done|];
     right; split; [positive known_member|done]
    |cbn [mbind Result_bind]; rewrite bind_lift_value; right; eexists _, _, _;
     (split; [reflexivity|]); (split; [|split; [|split; [|reflexivity]]]);
     [positive known_member
     |apply Husages; sublist
     |by exists namedCurve]].
  left. exists UnsupportedAlg. split; [done|]. right. exists binary.
  split; [done|]. left. split; [done|].
  intros Hin. no_member Hin.
Qed.

Lemma curve_algorithms_known (a : string) :
  a ∈ curve_algorithms → a ∈ import_algorithms.
Proof. intros Ha. unfold curve_algorithms in Ha. known_member Ha. Qed.

(** X6: a public key is only ever imported for [verify], [encrypt] or
    [wrapKey], and a private key only for [sign], [decrypt], [unwrapKey] or
    [deriveBits]: every [importKey] call of [fromSPKI] has the format [spki]
    and usages among the first three, every call of [fromPKCS8] the format
    [pkcs8] and usages among the other four. *)
Theorem import_key_usages input ctx :
  Forall (λ c, match c with
               | Call_importKey keyFormat _ _ _ keyUsages =>
                   keyFormat = spki ∧ keyUsages ⊆ public_usages
               end) (trace (fromSPKI input ctx))
  ∧ Forall (λ c, match c with
                 | Call_importKey keyFormat _ _ _ keyUsages =>
                     keyFormat = pkcs8 ∧ keyUsages ⊆ private_usages
                 end) (trace (fromPKCS8 input ctx)).
Proof.
  unfold fromSPKI, fromPKCS8. split.
  - destruct (genericImport_cases input "PUBLIC KEY" spki ctx)
      as [(e & -> & _)|(binary & algorithm & keyUsages & _ & _ & Hsub & _ & ->)];
      [constructor|constructor; [by split|constructor]].
  - destruct (genericImport_cases input "PRIVATE KEY" pkcs8 ctx)
      as [(e & -> & _)|(binary & algorithm & keyUsages & _ & _ & Hsub & _ & ->)];
      [constructor|constructor; [by split|constructor]].
Qed.

(** X7: an [alg] that is none of the [case] labels makes the import throw
    "Invalid or unsupported "alg" (Algorithm) value" without calling
    [importKey], once the PEM body has been decoded: the decoding comes
    first, and its error would be the one thrown. *)
Theorem import_unsupported_alg input (replace : string) (keyFormat : KeyFormat) ctx
    (binary : string) :
  atob (strip replace (pem input)) = inr binary →
  alg input ∉ import_algorithms →
  genericImport input replace keyFormat ctx = ([], inl UnsupportedAlg).
Proof.
  intros Hatob Halg.
  destruct (genericImport_cases input replace keyFormat ctx)
    as [(e & Hrun & [Herr|(b & _ & [[-> _]|[Hcurve _]])])
       |(b & algorithm & keyUsages & _ & Hknown & _)].
  - rewrite Hatob in Herr. discriminate.
  - exact Hrun.
  - destruct Halg. by apply curve_algorithms_known.
  - by destruct Halg.
Qed.

(** X8: [genericImport] either throws without having called [importKey], or
    calls it once, with the format it was given, with the char codes of the
    decoded PEM body as key data and with [extractable] false unless the
    caller said otherwise; what [importKey] returns or throws is then the
    result. *)
Theorem import_hands_over_key_data input (replace : string) (keyFormat : KeyFormat) ctx :
  (trace (genericImport input replace keyFormat ctx) = []
   ∧ ∃ e, outcome (genericImport input replace keyFormat ctx) = inl e)
  ∨ ∃ binary algorithm keyUsages,
      atob (strip replace (pem input)) = inr binary
      ∧ genericImport input replace keyFormat ctx =
          ([Call_importKey keyFormat (charCodes binary) algorithm
              (default false (extractable input)) keyUsages],
           subtle_importKey (withImportContext ctx) keyFormat (charCodes binary) algorithm
             (default false (extractable input)) keyUsages).
Proof.
  destruct (genericImport_cases input replace keyFormat ctx)
    as [(e & -> & _)|(binary & algorithm & keyUsages & Hatob & _ & _ & _ & Hrun)].
  - left. split; [done|by exists e].
  - right. by exists binary, algorithm, keyUsages.
Qed.

(** X9: for the ECDH-ES algorithms and for EdDSA the curve is read off the
    key data; when the key data holds none of the seven object identifiers,
    the import throws "Invalid or unsupported EC Key Curve or OKP Key Sub
    Type" and [importKey] is not called. *)
Theorem import_unknown_curve input (replace : string) (keyFormat : KeyFormat) ctx
    (binary : string) :
  atob (strip replace (pem input)) = inr binary →
  alg input ∈ curve_algorithms →
  Forall (λ curve, ¬ occurs (der_oid curve.2) (charCodes binary)) named_curves →
  genericImport input replace keyFormat ctx =
    ([], inl (PlainError "Invalid or unsupported EC Key Curve or OKP Key Sub Type")).
Proof.
  intros Hatob Halg Hnone. apply getNamedCurve_unknown in Hnone.
  destruct (genericImport_cases input replace keyFormat ctx)
    as [(e & Hrun & [Herr|(b & Hb & [[_ Hunknown]|[_ Hcurve]])])
       |(b & algorithm & keyUsages & Hb & _ & _ & Hcurve & _)].
  - rewrite Hatob in Herr. discriminate.
  - destruct Hunknown. by apply curve_algorithms_known.
  - rewrite Hatob in Hb. injection Hb as <-. rewrite Hnone in Hcurve.
    injection Hcurve as <-. exact Hrun.
  - rewrite Hatob in Hb. injection Hb as <-.
    destruct (Hcurve Halg) as [namedCurve Hnamed]. rewrite Hnone in Hnamed.
    discriminate.
Qed.

(** X5: for the ECDH-ES algorithms and for EdDSA, the algorithm handed to
    [importKey] is read off the key data alone: it is named by the first
    curve whose object identifier occurs there, as an ECDH key on that curve
    when [alg] is an ECDH-ES algorithm and the name starts with "P-", and by
    the bare curve name otherwise.  The curve is not checked against [alg]:
    EdDSA with the key data of a P-256 key asks [importKey] for a key of the
    algorithm "P-256". *)
Theorem import_curve_from_key_data input (replace : string) (keyFormat : KeyFormat) ctx
    (binary curve : string) :
  atob (strip replace (pem input)) = inr binary →
  alg input ∈ curve_algorithms →
  getNamedCurve (charCodes binary) = inr curve →
  trace (genericImport input replace keyFormat ctx) =
    [Call_importKey keyFormat (charCodes binary)
       (if bool_decide (alg input = "EdDSA") then Algorithm curve
        else if startsWith_P curve then EcKeyAlgorithm "ECDH" curve
        else Algorithm curve)
       (default false (extractable input))
       (if bool_decide (alg input = "EdDSA")
        then (if bool_decide (keyFormat = spki) then ["verify"] else ["sign"])
        else (if bool_decide (keyFormat = spki) then [] else ["deriveBits"]))].
Proof.
  intros Hatob Halg Hcurve. unfold genericImport.
  rewrite Hatob, bind_lift_value, Hcurve.
  unfold curve_algorithms in Halg. by cases_of Halg; rewrite Halg.
Qed.

End ImportProperties.

Lemma import_unsupported_alg_witness :
  @PemImport.fromSPKI ImportFixture.imports
     (ImportFixture.input_of ImportFixture.ed25519_spki "HS256") None
    = ([], inl PemImport.UnsupportedAlg).
Proof.
  eapply (@import_unsupported_alg ImportFixture.imports
            (ImportFixture.input_of ImportFixture.ed25519_spki "HS256")
            "PUBLIC KEY" spki None).
  - vm_compute. reflexivity.
  - intros Hin. unfold PemImport.import_algorithms in Hin.
    rewrite ?elem_of_cons, ?elem_of_nil in Hin.
    repeat (destruct Hin as [Hin|Hin]; [discriminate|]). exact Hin.
Defined.


Lemma import_unknown_curve_witness :
  @PemImport.fromSPKI ImportFixture.imports
     (ImportFixture.input_of [Byte.x01; Byte.x02; Byte.x03] "EdDSA") None
    = ([], inl (PlainError "Invalid or unsupported EC Key Curve or OKP Key Sub Type")).
Proof.
  eapply (@import_unknown_curve ImportFixture.imports
            (ImportFixture.input_of [Byte.x01; Byte.x02; Byte.x03] "EdDSA")
            "PUBLIC KEY" spki None).
  - vm_compute. reflexivity.
  - vm_compute. do 5 constructor.
  - repeat constructor; apply findOid_false; vm_compute; reflexivity.
Defined.

Lemma strip_armor_witness :
  PemImport.strip "PUBLIC KEY" (@formatPEM CryptoFixture.imports "AQID" "PUBLIC KEY")
    = "AQID".
Proof.
  apply (strip_armor "PUBLIC KEY" ""
           (CryptoFixture.newline +:+ "AQID" +:+ CryptoFixture.newline) "");
    apply (bool_decide_unpack _); vm_compute; exact I.
Defined.

Section X509Import.

Import Asn1 Der PemImport.

Context `{ImportImports} `{CryptoImports}.

Implicit Types (input : ImportInput) (ctx : option ImportContext).

(** [spkiFromX509] on a certificate whose TLVs are well-formed: the field
    it indexes, or the [TypeError] of reading [raw] off [undefined]. *)
Lemma spkiFromX509_fields
    (certificate tbsCertificate : Tlv) (fields others : list Tlv)
    (trailing : list byte) (first : Tlv) :
  wf certificate = true →
  wf tbsCertificate = true →
  forallb wf fields = true →
  forallb wf others = true →
  value certificate = encode tbsCertificate ++ concat (encode <$> others) →
  value tbsCertificate = concat (encode <$> fields) →
  fields !! 0 = Some first →
  spkiFromX509 (encode certificate ++ trailing) =
    match fields !! (if bool_decide (head (encode first) = Some Byte.xa0) then 6 else 5) with
    | Some subjectPublicKeyInfo => inr (uint8ArrayToBase64 (encode subjectPublicKeyInfo))
    | None => inl (undefined_property "raw")
    end.
Proof.
  intros Hcert Htbs Hfields Hothers Hvalue Htbsvalue Hfirst.
  unfold spkiFromX509.
  rewrite parseElement_encode by done. cbn [mbind Result_bind element_of contents].
  rewrite Hvalue.
  change (encode tbsCertificate ++ concat (encode <$> others))
    with (concat (encode <$> tbsCertificate :: others)).
  rewrite getElement_encoded by (cbn [forallb]; by rewrite Htbs, Hothers).
  cbn [mbind Result_bind fmap list_fmap lookup list_lookup element_of contents].
  rewrite Htbsvalue, getElement_encoded by done.
  cbn [mbind Result_bind]. rewrite !list_lookup_fmap, Hfirst.
  cbn [fmap option_fmap option_map element_of raw].
  change 0xa0 with (Byte.to_nat Byte.xa0).
  rewrite (bool_decide_ext _ _ (at_head (encode first) Byte.xa0)).
  rewrite list_lookup_fmap.
  by destruct (fields !! (if bool_decide _ then 6 else 5)).
Qed.

(** X10: [fromX509] on a certificate that is too short.  When the PEM body
    decodes to a certificate of well-formed TLVs whose [tbsCertificate] has
    no field at the index of the public key (6 behind a version field, else
    5), reading [raw] off [undefined] throws a [TypeError], [fromX509] throws
    "Failed to parse the X.509 certificate" with that error as its cause,
    and nothing is imported. *)
Theorem fromX509_too_few_fields input ctx
    (certificate tbsCertificate : Tlv) (fields others : list Tlv)
    (trailing : list byte) (first : Tlv) :
  base64ToUint8Array (strip "CERTIFICATE" (pem input)) = inr (encode certificate ++ trailing) →
  wf certificate = true →
  wf tbsCertificate = true →
  forallb wf fields = true →
  forallb wf others = true →
  value certificate = encode tbsCertificate ++ concat (encode <$> others) →
  value tbsCertificate = concat (encode <$> fields) →
  fields !! 0 = Some first →
  length fields ≤ (if bool_decide (head (encode first) = Some Byte.xa0) then 6 else 5) →
  fromX509 input ctx = inl (FailedToParse (undefined_property "raw"))
  ∧ ParseFailure_message (FailedToParse (undefined_property "raw"))
      = "Failed to parse the X.509 certificate".
Proof.
  intros Hraw Hcert Htbs Hfields Hothers Hvalue Htbsvalue Hfirst Hshort.
  split; [|done]. unfold fromX509, getSPKI. rewrite Hraw. cbn [mbind Result_bind].
  rewrite (spkiFromX509_fields _ _ _ _ _ _ Hcert Htbs Hfields Hothers Hvalue Htbsvalue Hfirst).
  by rewrite lookup_ge_None_2.
Qed.


End X509Import.

Lemma fromX509_too_few_fields_witness :
  @PemImport.fromX509 ImportFixture.imports CryptoFixture.imports
     (ImportFixture.es256 ImportFixture.short_pem) None
    = inl (PemImport.FailedToParse
             (TypeError "Cannot read properties of undefined (reading 'raw')")).
Proof.
  refine (proj1 (@fromX509_too_few_fields ImportFixture.imports CryptoFixture.imports
            (ImportFixture.es256 ImportFixture.short_pem) None
            ImportFixture.short_certificate ImportFixture.short_tbs
            ImportFixture.short_fields Der.sample_others [] Der.sample_version
            _ _ _ _ _ _ _ _ _));
    try (vm_compute; reflexivity).
  vm_compute. lia.
Defined.


(** The certificate of the test double through [fromX509]: one import of
    the encoding of its key, for ES256. *)
Example run_fromX509 :
  ∃ run,
    @PemImport.fromX509 ImportFixture.imports CryptoFixture.imports
       (ImportFixture.es256 ImportFixture.certificate_pem) None = inr run
    ∧ trace run =
        [PemImport.Call_importKey spki (Der.encode Der.sample_spki)
           (PemImport.EcKeyAlgorithm "ECDSA" "P-256") false ["verify"]]
    ∧ outcome run = inr ImportFixture.public_key.
Proof. eexists. split; [vm_compute; reflexivity|]. split; reflexivity. Qed.

Lemma import_curve_from_key_data_witness :
  trace (@PemImport.fromSPKI ImportFixture.imports
           (ImportFixture.input_of ImportFixture.p256_oid "EdDSA") None)
    = [PemImport.Call_importKey spki ImportFixture.p256_oid (PemImport.Algorithm "P-256")
         false ["verify"]].
Proof.
  refine (@import_curve_from_key_data ImportFixture.imports
           (ImportFixture.input_of ImportFixture.p256_oid "EdDSA") "PUBLIC KEY" spki None
           (String.string_of_list_ascii (Ascii.ascii_of_byte <$> ImportFixture.p256_oid))
           "P-256" _ _ _).
  - vm_compute. reflexivity.
  - vm_compute. do 5 constructor.
  - vm_compute. reflexivity.
Defined.

(** * Properties of the generation of secrets and of key pairs *)

Section SecretProperties.

Import Secret.

Context `{GlobalCrypto}.

Implicit Types (input : SecretInput) (ctx : SecretContext).

Lemma call_map {C A B} (c : C) (r : Result A) (f : A → B) :
  call c r ≫= (λ a, mret (f a))
    = ([c], match r with inl e => inl e | inr a => inr (f a) end).
Proof. by destruct r. Qed.

(** [generateSecret] by the [case] its [alg] falls under. *)
Lemma generateSecret_cases input ctx :
((alg input ∉ secret_algorithms)
   ∧ generateSecret input ctx = ([], inl UnsupportedJwkAlg))
  ∨ (∃ n : nat,
       (alg input, n) ∈ cbc_key_bytes
       ∧ generateSecret input ctx =
           ([Call_getRandomValues (replicate n Byte.x00)],
            inr (random_bytes (getRandomValues (replicate n Byte.x00)))))
  ∨ (∃ algorithm keyUsages,
       alg input ∈ secret_algorithms
       ∧ (alg input ∉ ["A128CBC-HS256"; "A192CBC-HS384"; "A256CBC-HS512"])
       ∧ (algorithm, keyUsages) ∈
           [(HmacKeyGenParams "HMAC" "SHA-256" (Some 256%Z), ["sign"; "verify"]);
            (HmacKeyGenParams "HMAC" "SHA-384" (Some 384%Z), ["sign"; "verify"]);
            (HmacKeyGenParams "HMAC" "SHA-512" (Some 512%Z), ["sign"; "verify"]);
            (AesKeyGenParams "AES-KW" (Some 128%Z), ["wrapKey"; "unwrapKey"]);
            (AesKeyGenParams "AES-KW" (Some 192%Z), ["wrapKey"; "unwrapKey"]);
            (AesKeyGenParams "AES-KW" (Some 256%Z), ["wrapKey"; "unwrapKey"]);
            (AesKeyGenParams "AES-GCM" (Some 128%Z), ["encrypt"; "decrypt"]);
            (AesKeyGenParams "AES-GCM" (Some 192%Z), ["encrypt"; "decrypt"]);
            (AesKeyGenParams "AES-GCM" (Some 256%Z), ["encrypt"; "decrypt"])]
       ∧ generateSecret input ctx =
           ([Call_generateKey algorithm (default false (extractable input)) keyUsages],
            match subtle_generateKey ctx algorithm (default false (extractable input))
                    keyUsages with
            | inl e => inl e
            | inr key => inr (secret_key key)
            end)).
Proof.
  unfold generateSecret.
  repeat match goal with
         | |- context [if bool_decide (alg input ∈ ?l) then _ else _] =>
             let Halg := fresh "Halg" in
             destruct (decide (alg input ∈ l)) as [Halg|Halg];
             [rewrite (bool_decide_eq_true_2 _ Halg)
             |rewrite (bool_decide_eq_false_2 _ Halg)]
         end.
  - right. right. cases_of Halg; rewrite Halg; eexists _, _;
      (split; [repeat constructor|]);
      (split; [intros Hin; cases_of Hin; discriminate|]);
      (split; [|rewrite call_map; reflexivity]);
      vm_compute; repeat constructor.
  - right. left. cases_of Halg0; rewrite Halg0;
      [exists 32|exists 48|exists 64]; (split; [repeat constructor|reflexivity]).
  - right. right. cases_of Halg1; rewrite Halg1; eexists _, _;
      (split; [repeat constructor|]);
      (split; [intros Hin; cases_of Hin; discriminate|]);
      (split; [|rewrite call_map; reflexivity]);
      vm_compute; repeat constructor.
  - right. right. cases_of Halg2; rewrite Halg2; eexists _, _;
      (split; [repeat constructor|]);
      (split; [intros Hin; cases_of Hin; discriminate|]);
      (split; [|rewrite call_map; reflexivity]);
      vm_compute; repeat constructor.
  - left. split; [|done]. intros Hin. unfold secret_algorithms in Hin.
    cases_of Hin;
      match goal with
      | Hn : _ |- _ => solve [apply Hn; rewrite Hin; repeat constructor]
      end.
Qed.

(** X12: for the three content-encryption algorithms with a CBC cipher,
    [generateSecret] returns random bytes, 32, 48 and 64 of them: it asks the
    global [crypto.getRandomValues] to fill a zeroed array of that length,
    and does not call [generateKey] of the context. *)
Theorem generateSecret_random_bytes input ctx :
  alg input ∈ ["A128CBC-HS256"; "A192CBC-HS384"; "A256CBC-HS512"] →
  ∃ n : nat,
    (alg input, n) ∈ cbc_key_bytes
    ∧ generateSecret input ctx =
        ([Call_getRandomValues (replicate n Byte.x00)],
         inr (random_bytes (getRandomValues (replicate n Byte.x00)))).
Proof.
  intros Halg.
  destruct (generateSecret_cases input ctx)
    as [[Hunknown _]|[(n & Hn & Hrun)|(algorithm & keyUsages & _ & Hother & _)]].
  - destruct Hunknown. by known_member Halg.
  - by exists n.
  - by destruct Hother.
Qed.

(** X13: what [generateSecret] asks of [generateKey]: an HMAC key of 256,
    384 or 512 bits with the SHA-2 hash of that size, for [sign] and
    [verify]; or an AES-KW key of 128, 192 or 256 bits for [wrapKey] and
    [unwrapKey]; or an AES-GCM key of these sizes for [encrypt] and
    [decrypt].  The length is never NaN, and the key is extractable only
    when the caller said so.  A call of [getRandomValues] passes 32, 48 or
    64 zero bytes. *)
Theorem generateSecret_key_parameters input ctx :
  Forall (λ c,
    match c with
    | Call_generateKey algorithm extractable' keyUsages =>
        extractable' = default false (extractable input)
        ∧ (algorithm, keyUsages) ∈
            [(HmacKeyGenParams "HMAC" "SHA-256" (Some 256%Z), ["sign"; "verify"]);
             (HmacKeyGenParams "HMAC" "SHA-384" (Some 384%Z), ["sign"; "verify"]);
             (HmacKeyGenParams "HMAC" "SHA-512" (Some 512%Z), ["sign"; "verify"]);
             (AesKeyGenParams "AES-KW" (Some 128%Z), ["wrapKey"; "unwrapKey"]);
             (AesKeyGenParams "AES-KW" (Some 192%Z), ["wrapKey"; "unwrapKey"]);
             (AesKeyGenParams "AES-KW" (Some 256%Z), ["wrapKey"; "unwrapKey"]);
             (AesKeyGenParams "AES-GCM" (Some 128%Z), ["encrypt"; "decrypt"]);
             (AesKeyGenParams "AES-GCM" (Some 192%Z), ["encrypt"; "decrypt"]);
             (AesKeyGenParams "AES-GCM" (Some 256%Z), ["encrypt"; "decrypt"])]
    | Call_getRandomValues array =>
        array ∈ [replicate 32 Byte.x00; replicate 48 Byte.x00; replicate 64 Byte.x00]
    end) (trace (generateSecret input ctx)).
Proof.
  destruct (generateSecret_cases input ctx)
    as [[_ ->]|[(n & Hn & ->)|(algorithm & keyUsages & _ & _ & Htable & ->)]].
  - constructor.
  - constructor; [|constructor]. unfold cbc_key_bytes in Hn.
    cases_of Hn; injection Hn as _ ->; repeat constructor.
  - constructor; [|constructor]. by split.
Qed.

(** X14: an [alg] that is none of the fifteen [case] labels makes
    [generateSecret] throw "Invalid or unsupported JWK "alg" (Algorithm)
    Parameter value"; neither [generateKey] nor [getRandomValues] is
    called. *)
Theorem generateSecret_unsupported input ctx :
  alg input ∉ secret_algorithms →
  generateSecret input ctx = ([], inl UnsupportedJwkAlg).
Proof.
  intros Halg.
  destruct (generateSecret_cases input ctx)
    as [[_ Hrun]|[(n & Hn & _)|(algorithm & keyUsages & Hknown & _)]].
  - exact Hrun.
  - destruct Halg. unfold cbc_key_bytes in Hn.
    cases_of Hn; injection Hn as -> _; repeat constructor.
  - by destruct Halg.
Qed.

End SecretProperties.

Lemma generateSecret_random_bytes_witness :
  ∃ n : nat,
    ("A192CBC-HS384", n) ∈ Secret.cbc_key_bytes
    ∧ @Secret.generateSecret SecretFixture.global
        {| Secret.alg := "A192CBC-HS384"; Secret.extractable := None |} SecretFixture.ctx
      = ([Secret.Call_getRandomValues (replicate n Byte.x00)],
         inr (Secret.random_bytes
                (@Secret.getRandomValues SecretFixture.global (replicate n Byte.x00)))).
Proof.
  apply (@generateSecret_random_bytes SecretFixture.global
           {| Secret.alg := "A192CBC-HS384"; Secret.extractable := None |}
           SecretFixture.ctx).
  do 2 constructor.
Defined.

Lemma generateSecret_unsupported_witness :
  @Secret.generateSecret SecretFixture.global
     {| Secret.alg := "RS256"; Secret.extractable := Some true |} SecretFixture.ctx
    = ([], inl Secret.UnsupportedJwkAlg).
Proof.
  apply (@generateSecret_unsupported SecretFixture.global
           {| Secret.alg := "RS256"; Secret.extractable := Some true |} SecretFixture.ctx).
  intros Hin. unfold Secret.secret_algorithms in Hin. cases_of Hin; discriminate.
Defined.


Section KeyPairProperties.
Context `{CryptoImports}.

Implicit Types (input : GenerateKeyPairInput) (ctx : option CryptoContext).

Lemma getModulusLengthOption_checked (o : GenerateKeyPairOptions) (m : jsval) :
  getModulusLengthOption (Some o) = inr m →
  m = coalesce (modulusLength o) (JNum (number_of_N 2048))
  ∧ typeof m = "number"
  ∧ less_than m (number_of_N 2048) = false.
Proof.
  unfold getModulusLengthOption. cbn [from_option].
  destruct (String.eqb_spec (typeof (coalesce (modulusLength o) (JNum (number_of_N 2048))))
                            "number") as [Htype|Htype]; [|discriminate].
  destruct (less_than _ _) eqn:Hless; [discriminate|].
  cbn [negb orb]. by intros [= <-].
Qed.

Lemma getModulusLengthOption_accepts (o : GenerateKeyPairOptions) :
  typeof (modulusLength o) = "number" →
  less_than (modulusLength o) (number_of_N 2048) = false →
  getModulusLengthOption (Some o) = inr (modulusLength o).
Proof.
  intros Htype Hless. unfold getModulusLengthOption, coalesce. cbn [from_option].
  destruct (modulusLength o); try discriminate. cbn [nullish].
  by rewrite Hless.
Qed.

(** X15: what [generateKeyPair] asks of [generateKey], whatever its input.
    An RSA key has the public exponent 65537, a SHA-1 or SHA-2 hash and a
    modulus length of type number that is not below 2048; an elliptic-curve
    key is on P-256, P-384 or P-521; any other key is an Ed25519, Ed448,
    X25519 or X448 key.  The key pair is extractable only when the caller
    said so. *)
Theorem generateKeyPair_parameters input ctx :
  Forall (λ c,
    match c with
    | Call_generateKey algorithm extractable' keyUsages =>
        extractable' = default false (extractable (options input))
        ∧ match algorithm with
          | RsaHashedKeyGenParams name hash publicExponent modulusLength =>
              hash ∈ ["SHA-1"; "SHA-256"; "SHA-384"; "SHA-512"]
              ∧ publicExponent = publicExponent_65537
              ∧ typeof modulusLength = "number"
              ∧ less_than modulusLength (number_of_N 2048) = false
          | EcKeyGenParams name namedCurve => namedCurve ∈ ["P-256"; "P-384"; "P-521"]
          | KeyAlgorithm name => name ∈ ["Ed25519"; "Ed448"; "X25519"; "X448"]
          end
    | Call_exportKey _ _ => False
    end) (trace (generateKeyPair input ctx)).
Proof.
  unfold generateKeyPair. switch_cases.
  1-3: destruct (getModulusLengthOption _) as [e|m] eqn:Hm;
    [cbn [mbind Result_bind]; rewrite bind_lift_thrown; apply Forall_nil_2|];
    apply getModulusLengthOption_checked in Hm as (_ & Htype & Hless);
    cbn [mbind Result_bind]; rewrite bind_lift_value;
    (apply Forall_cons_2; [|apply Forall_nil_2]); (split; [done|]);
    (split; [|done]);
    positive ltac:(fun Hp => cases_of Hp; rewrite Hp; vm_compute; repeat constructor).
  all: try (rewrite bind_lift_value; (apply Forall_cons_2; [|apply Forall_nil_2]);
            (split; [done|]);
            first [assumption|solve [repeat constructor]|positive known_member]).
  all: rewrite bind_lift_thrown; apply Forall_nil_2.
Qed.

(** X16: for the RSA algorithms, every [modulusLength] of type number that
    is not below 2048 is handed to [generateKey] as it is; the check is the
    comparison alone, so a fraction, an infinity and NaN, for which every
    comparison is false, pass it too. *)
Theorem rsa_modulus_passed_on input ctx :
  alg input ∈ rsa_algorithms →
  typeof (modulusLength (options input)) = "number" →
  less_than (modulusLength (options input)) (number_of_N 2048) = false →
  ∃ name hash keyUsages,
    generateKeyPair input ctx =
      ([Call_generateKey
          (RsaHashedKeyGenParams name hash publicExponent_65537
             (modulusLength (options input)))
          (default false (extractable (options input))) keyUsages],
       subtle_generateKey (withCryptoContext ctx)
         (RsaHashedKeyGenParams name hash publicExponent_65537
            (modulusLength (options input)))
         (default false (extractable (options input))) keyUsages).
Proof.
  intros Halg Htype Hless. destruct input as [a o]. cbn [alg options] in *.
  unfold generateKeyPair. cbn [alg options].
  rewrite (getModulusLengthOption_accepts o Htype Hless).
  unfold rsa_algorithms in Halg. cases_of Halg; rewrite Halg; by eexists _, _, _.
Qed.

(** X17: the [crv] option of [generateKeyPair].  For EdDSA a curve other
    than Ed25519 and Ed448 is refused, and for the ECDH-ES algorithms a curve
    other than P-256, P-384, P-521, X25519 and X448, each with its own
    message and without a call of [generateKey]; without the option the key
    is an Ed25519 key and a P-256 key. *)
Theorem generateKeyPair_curve_option input ctx :
  (∀ c, alg input = "EdDSA" →
        crv (options input) = Some c →
        c ∉ ["Ed25519"; "Ed448"] →
        generateKeyPair input ctx =
          ([], inl (PlainError "Invalid or unsupported crv option provided")))
  ∧ (∀ c, alg input ∈ ecdh_algorithms →
          crv (options input) = Some c →
          c ∉ ["P-256"; "P-384"; "P-521"; "X25519"; "X448"] →
          generateKeyPair input ctx = ([], inl UnsupportedCurve))
  ∧ (alg input = "EdDSA" →
     crv (options input) = None →
     trace (generateKeyPair input ctx) =
       [Call_generateKey (KeyAlgorithm "Ed25519")
          (default false (extractable (options input))) ["sign"; "verify"]])
  ∧ (alg input ∈ ecdh_algorithms →
     crv (options input) = None →
     trace (generateKeyPair input ctx) =
       [Call_generateKey (EcKeyGenParams "ECDH" "P-256")
          (default false (extractable (options input))) ["deriveKey"; "deriveBits"]]).
Proof.
  destruct input as [a o]. cbn [alg options]. unfold generateKeyPair. cbn [alg options].
  repeat split.
  - intros c -> -> Hc. cbn [default]. by rewrite (bool_decide_eq_false_2 _ Hc).
  - intros c Halg -> Hc. cbn [default].
    assert ((c ∉ ["P-256"; "P-384"; "P-521"]) ∧ (c ∉ ["X25519"; "X448"])) as [Hp Hx].
    { split; intros Hin; apply Hc; cases_of Hin; rewrite Hin; repeat constructor. }
    unfold ecdh_algorithms in Halg. cases_of Halg; rewrite Halg;
      by rewrite (bool_decide_eq_false_2 _ Hp), (bool_decide_eq_false_2 _ Hx).
  - by intros -> ->.
  - intros Halg ->. unfold ecdh_algorithms in Halg. by cases_of Halg; rewrite Halg.
Qed.

(** X18: an [alg] that is none of the [case] labels makes [generateKeyPair]
    throw "Invalid or unsupported JWK "alg" (Algorithm) Parameter value"
    without calling [generateKey], whatever the options. *)
Theorem generateKeyPair_unsupported_alg input ctx :
  alg input ∉ key_pair_algorithms →
  generateKeyPair input ctx = ([], inl UnsupportedKeyPairAlg).
Proof.
  intros Hunknown. unfold generateKeyPair. switch_cases.
  all: try (destruct Hunknown; positive known_member).
  done.
Qed.

End KeyPairProperties.

Lemma rsa_modulus_passed_on_witness :
  ∃ name hash keyUsages,
    @generateKeyPair CryptoFixture.imports (CryptoFixture.rs256 (JNum NaN))
       (Some CryptoFixture.ctx)
      = ([Call_generateKey
            (RsaHashedKeyGenParams name hash publicExponent_65537 (JNum NaN))
            false keyUsages],
         subtle_generateKey CryptoFixture.ctx
           (RsaHashedKeyGenParams name hash publicExponent_65537 (JNum NaN))
           false keyUsages).
Proof.
  apply (@rsa_modulus_passed_on CryptoFixture.imports
           (CryptoFixture.rs256 (JNum NaN)) (Some CryptoFixture.ctx)).
  - vm_compute. do 4 constructor.
  - reflexivity.
  - reflexivity.
Defined.

Lemma generateKeyPair_unsupported_alg_witness :
  @generateKeyPair CryptoFixture.imports
     {| alg := "HS256";
        options := {| crv := None; extractable := None; modulusLength := JUndefined |} |}
     None
    = ([], inl UnsupportedKeyPairAlg).
Proof.
  apply (@generateKeyPair_unsupported_alg CryptoFixture.imports).
  intros Hin. unfold key_pair_algorithms, rsa_algorithms, ecdh_algorithms in Hin.
  cbn [app] in Hin. cases_of Hin; discriminate.
Defined.

Lemma generateKeyPair_curve_option_witness :
  @generateKeyPair CryptoFixture.imports
     {| alg := "EdDSA";
        options := {| crv := Some "P-256"; extractable := None;
                      modulusLength := JUndefined |} |}
     (Some CryptoFixture.ctx)
    = ([], inl (PlainError "Invalid or unsupported crv option provided")).
Proof.
  apply (proj1 (@generateKeyPair_curve_option CryptoFixture.imports
                  {| alg := "EdDSA";
                     options := {| crv := Some "P-256"; extractable := None;
                                   modulusLength := JUndefined |} |}
                  (Some CryptoFixture.ctx)) "P-256"); [reflexivity|reflexivity|].
  intros Hin. cases_of Hin; discriminate.
Defined.

Section MoreExportProperties.
Context `{CryptoImports}.

Implicit Types (key : CryptoKey) (ctx : option CryptoContext).

(** X19: [toSPKI] returns a PEM exactly for an extractable public
    [CryptoKey] whose [spki] export the host grants, and the PEM is the
    base64 of that export under the label [PUBLIC KEY]; [exportKey] is
    called on no other key. *)
Theorem toSPKI_exports_public_keys (input : KeyInput) ctx (pem : string) :
  (outcome (toSPKI input ctx) = inr pem ↔
   ∃ key exported,
     input = a_CryptoKey key
     ∧ key_type key = public
     ∧ key_extractable key = true
     ∧ subtle_exportKey (withCryptoContext ctx) spki key = inr exported
     ∧ pem = formatPEM (uint8ArrayToBase64 exported) "PUBLIC KEY")
  ∧ Forall (λ c, ∃ key, c = Call_exportKey spki key
                        ∧ input = a_CryptoKey key
                        ∧ key_type key = public
                        ∧ key_extractable key = true)
           (trace (toSPKI input ctx)).
Proof.
  unfold toSPKI, genericExport. destruct input as [key|value].
  2: { split; [|constructor]. split; [discriminate|].
       intros (key & exported & Hkey & _). discriminate. }
  destruct (key_extractable key) eqn:Hext; cbn [negb].
  2: { split; [|constructor]. split; [discriminate|].
       intros (key' & exported & [= <-] & _ & Hext' & _). congruence. }
  destruct (key_type key) eqn:Htype; cbn [KeyType_string String.eqb Ascii.eqb Bool.eqb negb].
  2-3: split; [|constructor]; (split; [discriminate|]);
    intros (key' & exported & [= <-] & Htype' & _); congruence.
  rewrite call_map. split.
  - cbn [outcome snd]. split.
    + destruct (subtle_exportKey _ _ _) as [e|exported] eqn:Hexport; [discriminate|].
      intros [= <-]. by exists key, exported.
    + intros (key' & exported & [= <-] & _ & _ & -> & ->). reflexivity.
  - constructor; [|constructor]. by exists key.
Qed.

(** X20: the refusals of [genericExport], in their order, each a [TypeError]
    thrown before [exportKey] could be called: a value that is no
    [CryptoKey], with the message of [invalidKeyInput]; a key that is not
    extractable, whatever its type; and an extractable key of another type
    than the one asked for. *)
Theorem genericExport_refusals (keyType : KeyType) (keyFormat : KeyFormat) ctx :
  (∀ value,
     genericExport keyType keyFormat (not_a_CryptoKey value) ctx
       = ([], inl (TypeError (invalidKeyInput value ["CryptoKey"]))))
  ∧ (∀ key,
       key_extractable key = false →
       genericExport keyType keyFormat (a_CryptoKey key) ctx
         = ([], inl (TypeError "CryptoKey is not extractable")))
  ∧ (∀ key,
       key_extractable key = true →
       key_type key ≠ keyType →
       genericExport keyType keyFormat (a_CryptoKey key) ctx
         = ([], inl (TypeError ("key is not a " +:+ KeyType_string keyType +:+ " key"))))
  ∧ (∀ key e,
       key_extractable key = true →
       key_type key = keyType →
       subtle_exportKey (withCryptoContext ctx) keyFormat key = inl e →
       genericExport keyType keyFormat (a_CryptoKey key) ctx
         = ([Call_exportKey keyFormat key], inl e)).
Proof.
  unfold genericExport. repeat split.
  - by intros key ->.
  - intros key -> Htype. cbn [negb].
    by destruct (key_type key), keyType.
  - intros key e -> -> Hexport. cbn [negb]. rewrite Hexport.
    by destruct keyType.
Qed.

End MoreExportProperties.

Lemma genericExport_refusals_witness :
  @toSPKI CryptoFixture.imports (a_CryptoKey (CryptoFixture.rsa_private false))
          (Some CryptoFixture.ctx)
    = ([], inl (TypeError "CryptoKey is not extractable")).
Proof.
  apply (proj1 (proj2 (@genericExport_refusals CryptoFixture.imports public spki
                         (Some CryptoFixture.ctx)))).
  reflexivity.
Defined.

(** * More on the ASN.1 walk *)

Section WalkProperties.

Import Asn1 Der.

Implicit Types (bytes seq rest : list byte) (e : Tlv) (es : list Tlv).

(** X21: [parseElement] on the encoding of a well-formed definite-length
    TLV, followed by any bytes, gives back the TLV: its value as [contents],
    its encoding as [raw] and the length of the encoding as [byteLength].
    Well-formed includes that the encoding has fewer than 2^53 bytes, as
    every encoding in an array has: the sums of the source are then exact. *)
Theorem parseElement_round_trip e rest :
  wf e = true →
  ∃ el,
    parseElement (encode e ++ rest) = inr el
    ∧ contents el = value e
    ∧ raw el = encode e
    ∧ byteLength el = Some (N.of_nat (length (encode e))).
Proof.
  intros Hwf. exists (element_of e). by rewrite parseElement_encode.
Qed.

(** X22: [getElement] on the concatenated encodings of well-formed TLVs
    (each of fewer than 2^53 bytes, as every encoding in an array is)
    returns one element per TLV, in order, with their values as [contents]
    and their encodings as [raw]. *)
Theorem getElement_round_trip es :
  forallb wf es = true →
  ∃ elements,
    getElement (concat (encode <$> es)) = inr elements
    ∧ contents <$> elements = value <$> es
    ∧ raw <$> elements = encode <$> es.
Proof.
  intros Hwf. exists (element_of <$> es). rewrite getElement_encoded by done.
  split; [done|]. rewrite <- !list_fmap_compose. by split; apply list_fmap_ext.
Qed.

(** X24: the walk never throws.  [parseElement] returns an element for
    every array: the branch of the indefinite form tests [length === 0x80]
    while [length] is still 0, so its [TypeError] cannot be reached.
    [getElement] returns a list for every array, and the rounds of the model
    are never what ends its loop. *)
Theorem walk_never_throws bytes :
  (∃ el, parseElement bytes = inr el) ∧ (∃ elements, getElement bytes = inr elements).
Proof.
  split.
  - destruct (parseElement_total bytes) as (el & Hel & _). by exists el.
  - apply getElement_rounds.
Qed.

Lemma subarray_0 bytes (end_ : option N) :
  subarray bytes 0 (clamped bytes end_) = take (N.to_nat (default 0%N end_)) bytes.
Proof.
  unfold subarray, clamped. destruct end_ as [e|]; cbn [fmap option_fmap option_map default];
    unfold id; rewrite Nat.sub_0_r; [|done].
  rewrite N2Nat.inj_min, Nat2N.id.
  destruct (Nat.min_spec (N.to_nat e) (length bytes)) as [[_ ->]|[Hle ->]]; [done|].
  by rewrite !take_ge by (rewrite ?length_drop; lia).
Qed.

Lemma parseElement_raw bytes (el : Element) :
  parseElement bytes = inr el →
  raw el = take (N.to_nat (default 0%N (byteLength el))) bytes.
Proof.
  unfold parseElement. destruct (parse_tag bytes) as [tag position].
  destruct (less _ _).
  - intros [= <-]. cbn [raw byteLength]. exact (subarray_0 bytes (Some _)).
  - rewrite bool_decide_eq_false_2 by lia.
    destruct (length_loop _ _ _ _) as [l position'].
    intros [= <-]. cbn [raw byteLength]. exact (subarray_0 bytes _).
Qed.

Lemma getElement_loop_raws seq (rounds : nat) :
  ∀ (next : N) (result elements : list Element),
    getElement_loop rounds seq next result = inr elements →
    concat (raw <$> result) = take (N.to_nat next) seq →
    concat (raw <$> elements) `prefix_of` seq
    ∧ (Forall (λ el, is_Some (byteLength el)) elements →
       concat (raw <$> elements) = seq).
Proof.
  induction rounds as [|rounds IH]; intros next result elements;
    cbn [getElement_loop]; destruct (N.ltb_spec next (N.of_nat (length seq))) as [Hnext|Hnext];
    try discriminate.
  1,3: intros [= <-] Hresult; rewrite Hresult, take_ge by lia; by split.
  destruct (parseElement (drop (N.to_nat next) seq)) as [e|el] eqn:Hel; [discriminate|].
  cbn [mbind Result_bind]. apply parseElement_raw in Hel.
  destruct (byteLength el) as [n|] eqn:Hn; cbn [default] in Hel.
  - intros Hloop Hresult. apply (IH _ _ _ Hloop).
    rewrite fmap_app, concat_app, Hresult. cbn [fmap list_fmap concat].
    rewrite Hel, app_nil_r, N2Nat.inj_add. apply take_take_drop.
  - intros [= <-] Hresult.
    rewrite fmap_app, concat_app, Hresult. cbn [fmap list_fmap concat].
    rewrite Hel. change (N.to_nat 0) with 0. rewrite take_0, !app_nil_r. split.
    + apply prefix_take.
    + rewrite Forall_app, Forall_singleton, Hn. intros [_ [n Hsome]]. discriminate.
Qed.

(** X25: [getElement] loses no byte and reads none twice: the [raw] parts
    of the elements it returns, one after the other, are a prefix of the
    array, and the whole array unless the last element has a NaN length (its
    length octets run past the end of the array). *)
Theorem getElement_raws_tile seq :
  ∃ elements,
    getElement seq = inr elements
    ∧ concat (raw <$> elements) `prefix_of` seq
    ∧ (Forall (λ el, is_Some (byteLength el)) elements →
       concat (raw <$> elements) = seq).
Proof.
  destruct (getElement_rounds seq) as [elements Hrun]. exists elements.
  split; [done|]. by apply (getElement_loop_raws seq (length seq) 0%N []).
Qed.

End WalkProperties.

Lemma parseElement_round_trip_witness :
  ∃ el,
    Asn1.parseElement (Der.encode Der.sample_spki ++ [Byte.xff]) = inr el
    ∧ Asn1.contents el = Der.value Der.sample_spki
    ∧ Asn1.raw el = Der.encode Der.sample_spki
    ∧ Asn1.byteLength el = Some (N.of_nat (length (Der.encode Der.sample_spki))).
Proof. apply (parseElement_round_trip Der.sample_spki [Byte.xff]). reflexivity. Defined.

Lemma getElement_round_trip_witness :
  ∃ elements,
    Asn1.getElement (concat (Der.encode <$> Der.sample_fields)) = inr elements
    ∧ Asn1.contents <$> elements = Der.value <$> Der.sample_fields
    ∧ Asn1.raw <$> elements = Der.encode <$> Der.sample_fields.
Proof. apply (getElement_round_trip Der.sample_fields). reflexivity. Defined.

(** Above [2 ^ 53] a sum is rounded to the nearest double, a tie to the even
    significand. *)
Example round_double_ties :
  Asn1.round_double 9007199254740991 = 9007199254740991%N
  ∧ Asn1.round_double 9007199254740993 = 9007199254740992%N
  ∧ Asn1.round_double 9007199254740994 = 9007199254740994%N
  ∧ Asn1.round_double 9007199254740995 = 9007199254740996%N.
Proof. repeat split. Qed.

(** Seven length octets that spell [2 ^ 53 + 1]: the last sum of the digit
    loop is rounded to [2 ^ 53], and the sum with the position 9 to
    [2 ^ 53 + 8]; both ends of the two subarrays are clamped to the nine
    bytes there are. *)
Example parseElement_rounds_length :
  Asn1.parseElement
    [Byte.x30; Byte.x87; Byte.x20; Byte.x00; Byte.x00; Byte.x00; Byte.x00; Byte.x00;
     Byte.x01]
    = inr {| Asn1.byteLength := Some 9007199254741000%N;
             Asn1.contents := [];
             Asn1.raw := [Byte.x30; Byte.x87; Byte.x20; Byte.x00; Byte.x00; Byte.x00;
                          Byte.x00; Byte.x00; Byte.x01] |}.
Proof. vm_compute. reflexivity. Qed.

(** * More on the JARM response validation *)

Section JarmRuns.
Context `{JoseImports} `{JsonBuiltins} `{JarmSchemas} `{DirectPostImports}.

Implicit Types (input : JarmDirectPostJwtAuthResponseValidation).
Implicit Types (ctx : JarmDirectPostJwtAuthResponseValidationContext).

Lemma parse_cases (schema : object_schema) (payload : jsval) :
  parseJarmAuthResponseParams schema payload =
    if v_is vJarmAuthResponseErrorParams payload
    then ([], inl (ReceivedErrorResponse payload))
    else ([Call_v_parse schema payload], v_parse schema payload).
Proof. reflexivity. Qed.

(** A signed arm that returns went through all of its steps. *)
Lemma signed_arm_success ctx (d : string) (p : jsval * jsval) :
  outcome (signed_arm ctx d) = inr p →
  ∃ header payload,
    decodeProtectedHeader d = inr header
    ∧ decodeJwt d = inr payload
    ∧ v_is vJarmAuthResponseErrorParams payload = false
    ∧ v_parse strict_schema payload = inr p.2
    ∧ openid4vp_authRequest_getParams ctx p.2 = inr p.1
    ∧ truthy (prop header "kid") = true
    ∧ jose_jws_verifyJwt ctx d {| jwk_kid := prop header "kid"; jwk_kty := "auto" |}
        = inr ()
    ∧ trace (signed_arm ctx d) =
        [Call_v_parse strict_schema payload; Call_getParams p.2;
         Call_verifyJwt d {| jwk_kid := prop header "kid"; jwk_kty := "auto" |}].
Proof.
  unfold signed_arm, lift. fold strict_schema.
  destruct (decodeProtectedHeader d) as [e|header] eqn:Hheader; [discriminate|].
  rewrite bind_value. cbn [fst snd app].
  destruct (decodeJwt d) as [e|payload] eqn:Hpayload; [discriminate|].
  rewrite bind_value, parse_cases. cbn [fst snd app].
  destruct (v_is vJarmAuthResponseErrorParams payload) eqn:Hshape; [discriminate|].
  destruct (v_parse strict_schema payload) as [e|params] eqn:Hparse; [discriminate|].
  rewrite bind_value. cbn [fst snd app]. unfold call.
  destruct (openid4vp_authRequest_getParams ctx params) as [e|authRequest] eqn:Hget;
    [discriminate|].
  rewrite bind_value. cbn [fst snd app].
  destruct (truthy (prop header "kid")) eqn:Hkid; [|discriminate]. cbn [negb].
  destruct (jose_jws_verifyJwt ctx d _) as [e|[]] eqn:Hverify; [discriminate|].
  cbn. intros [= <-]. by exists header, payload.
Qed.

(** A plain arm that returns went through all of its steps. *)
Lemma plain_arm_success ctx (d : string) (p : jsval * jsval) :
  outcome (plain_arm ctx d) = inr p →
  ∃ payload,
    JSON_parse d = inr payload
    ∧ v_is vJarmAuthResponseErrorParams payload = false
    ∧ v_parse vJarmDirectPostJwtParams payload = inr p.2
    ∧ openid4vp_authRequest_getParams ctx p.2 = inr p.1
    ∧ trace (plain_arm ctx d) =
        [Call_v_parse vJarmDirectPostJwtParams payload; Call_getParams p.2].
Proof.
  unfold plain_arm, lift.
  destruct (JSON_parse d) as [e|payload] eqn:Hpayload; [discriminate|].
  rewrite bind_value, parse_cases. cbn [fst snd app].
  destruct (v_is vJarmAuthResponseErrorParams payload) eqn:Hshape; [discriminate|].
  destruct (v_parse vJarmDirectPostJwtParams payload) as [e|params] eqn:Hparse;
    [discriminate|].
  rewrite bind_value. cbn [fst snd app]. unfold call.
  destruct (openid4vp_authRequest_getParams ctx params) as [e|authRequest] eqn:Hget;
    [discriminate|].
  cbn. intros [= <-]. by exists payload.
Qed.

(** A decryption that returns used the key the header names. *)
Lemma decrypt_success input ctx (plaintext : string) :
  outcome (decryptJarmAuthResponse input ctx) = inr plaintext →
  ∃ jwk,
    resolved_by_kid (response input) jwk
    ∧ jose_jwe_decryptCompact ctx (response input) jwk = inr plaintext
    ∧ trace (decryptJarmAuthResponse input ctx) = [Call_decryptCompact (response input) jwk].
Proof.
  unfold decryptJarmAuthResponse, lift.
  destruct (decodeProtectedHeader (response input)) as [e|header] eqn:Hheader;
    [discriminate|].
  rewrite bind_value. cbn [fst snd app].
  destruct (truthy (prop header "kid")) eqn:Hkid; [|discriminate]. cbn [negb].
  unfold call.
  destruct (jose_jwe_decryptCompact ctx _ _) as [e|d] eqn:Hdecrypt; [discriminate|].
  cbn. intros [= <-]. eexists. split; [|split; [exact Hdecrypt|reflexivity]].
  split; [done|]. split; [done|]. by exists header.
Qed.

(** A run that returns, stage by stage. *)
Lemma validate_success input ctx (r : ValidationResult) :
  outcome (jarmAuthResponseDirectPostJwtValidate input ctx) = inr r →
  ∃ t0 d t1,
    decryptedResponse input ctx = (t0, inr d)
    ∧ (if isJws d then signed_arm ctx d else plain_arm ctx d)
        = (t1, inr (authRequestParams r, authResponseParams r))
    ∧ (isJwe (response input) || isJws d = true)
    ∧ jarmAuthResponseDirectPostValidateParams (authRequestParams r) (authResponseParams r)
        = inr ()
    ∧ type r = (if isJws d && isJwe (response input) then signed_encrypted
                else if isJwe (response input) then encrypted else signed)
    ∧ trace (jarmAuthResponseDirectPostJwtValidate input ctx) =
        t0 ++ t1 ++ [Call_validateParams (authRequestParams r) (authResponseParams r)].
Proof.
  rewrite validate_stages.
  destruct (decryptedResponse input ctx) as [t0 [e|d]]; [discriminate|].
  rewrite bind_value.
  destruct (negb (isJwe (response input)) && negb (isJws d)) eqn:Hneither;
    [discriminate|].
  destruct (if isJws d then signed_arm ctx d else plain_arm ctx d)
    as [t1 [e|[authRequest params]]] eqn:Harm; [discriminate|].
  rewrite bind_value. cbn [fst snd]. unfold call.
  destruct (jarmAuthResponseDirectPostValidateParams authRequest params)
    as [e|[]] eqn:Hcheck; [discriminate|].
  rewrite bind_value. unfold outcome, trace, mret, Traced_ret. cbn [fst snd].
  intros [= <-]. cbn [authRequestParams authResponseParams type].
  exists t0, d, t1. rewrite app_nil_r. repeat split; try done.
  by destruct (isJwe (response input)), (isJws d).
Qed.

(** X26: what a returned result has gone through.  The parameters of the
    auth request are what the host's [getParams] returned for the returned
    response parameters; the imported check of the response against the
    request accepted the two; and the response parameters are what [v.parse]
    made of a payload that does not have the shape of an error response. *)
Theorem validated_result_checked input ctx (r : ValidationResult) :
  outcome (jarmAuthResponseDirectPostJwtValidate input ctx) = inr r →
  openid4vp_authRequest_getParams ctx (authResponseParams r) = inr (authRequestParams r)
  ∧ jarmAuthResponseDirectPostValidateParams (authRequestParams r) (authResponseParams r)
      = inr ()
  ∧ ∃ schema payload,
      v_is vJarmAuthResponseErrorParams payload = false
      ∧ v_parse schema payload = inr (authResponseParams r)
      ∧ schema = match type r with
                 | encrypted => vJarmDirectPostJwtParams
                 | _ => strict_schema
                 end.
Proof.
  intros (t0 & d & t1 & _ & Harm & Heither & Hcheck & Htype & _)%validate_success.
  destruct (isJws d) eqn:Hjws.
  - apply (f_equal outcome) in Harm.
    apply signed_arm_success in Harm
      as (header & payload & _ & _ & Hshape & Hparse & Hget & _).
    split; [done|]. split; [done|]. exists strict_schema, payload.
    split; [done|]. split; [done|].
    rewrite Htype. by destruct (isJwe (response input)).
  - apply (f_equal outcome) in Harm.
    apply plain_arm_success in Harm as (payload & _ & Hshape & Hparse & Hget & _).
    split; [done|]. split; [done|]. exists vJarmDirectPostJwtParams, payload.
    split; [done|]. split; [done|].
    rewrite Htype. cbn [andb]. by destruct (isJwe (response input)).
Qed.

(** X27: the steps of a run that returns, in their order, and what each of
    them works on.  Unless the type is "signed", the response is decrypted
    first, with the key its own header names, and the token that is looked
    at from then on is the plaintext; for the type "signed" it is the
    response itself.  Then the payload is parsed and the auth request
    fetched: for the type "encrypted" the payload is the JSON of the token,
    parsed with the schema as it is, and no signature is verified; otherwise
    the token is a JWS, the payload is what [decodeJwt] makes of it, parsed
    with the strict schema, and behind the fetch [verifyJwt] is called on
    that same token with the key its header names, and has accepted it.
    The check of the response against the request comes last.  So a signed
    response is returned only after [verifyJwt] accepted it, and its payload
    is parsed and used for the fetch before that. *)
Theorem successful_run_steps input ctx (r : ValidationResult) :
  outcome (jarmAuthResponseDirectPostJwtValidate input ctx) = inr r →
  ∃ (token : string) (payload : jsval) (decrypt verify : list Call) (schema : object_schema),
    trace (jarmAuthResponseDirectPostJwtValidate input ctx) =
      decrypt
        ++ [Call_v_parse schema payload; Call_getParams (authResponseParams r)]
        ++ verify
        ++ [Call_validateParams (authRequestParams r) (authResponseParams r)]
    ∧ match type r with
      | signed =>
          isJwe (response input) = false ∧ token = response input ∧ decrypt = []
      | _ =>
          isJwe (response input) = true
          ∧ ∃ jwk,
              resolved_by_kid (response input) jwk
              ∧ decrypt = [Call_decryptCompact (response input) jwk]
              ∧ jose_jwe_decryptCompact ctx (response input) jwk = inr token
      end
    ∧ match type r with
      | encrypted =>
          isJws token = false
          ∧ JSON_parse token = inr payload
          ∧ schema = vJarmDirectPostJwtParams
          ∧ verify = []
      | _ =>
          isJws token = true
          ∧ decodeJwt token = inr payload
          ∧ schema = strict_schema
          ∧ ∃ jwk,
              resolved_by_kid token jwk
              ∧ verify = [Call_verifyJwt token jwk]
              ∧ jose_jws_verifyJwt ctx token jwk = inr ()
      end.
Proof.
  intros (t0 & d & t1 & Hd & Harm & Heither & _ & Htype & ->)%validate_success.
  assert (if isJwe (response input)
          then ∃ jwk, resolved_by_kid (response input) jwk
                      ∧ t0 = [Call_decryptCompact (response input) jwk]
                      ∧ jose_jwe_decryptCompact ctx (response input) jwk = inr d
          else d = response input ∧ t0 = []) as Hdecrypt.
  { unfold decryptedResponse in Hd.
    destruct (isJwe (response input)); [|by injection Hd as <- <-].
    apply (f_equal outcome) in Hd as Hout.
    apply decrypt_success in Hout as (jwk & Hkey & Hrun & Htrace).
    apply (f_equal trace) in Hd. rewrite Htrace in Hd. by exists jwk. }
  destruct (isJws d) eqn:Hjws.
  - apply (f_equal outcome) in Harm as Hout.
    apply signed_arm_success in Hout
      as (header & payload & Hheader & Hpayload & _ & _ & _ & Hkid & Hverify & Htrace).
    apply (f_equal trace) in Harm. rewrite Htrace in Harm.
    cbn [trace fst snd] in Harm. subst t1.
    assert (∃ jwk, resolved_by_kid d jwk
                   ∧ [Call_verifyJwt d {| jwk_kid := prop header "kid"; jwk_kty := "auto" |}]
                       = [Call_verifyJwt d jwk]
                   ∧ jose_jws_verifyJwt ctx d jwk = inr ()) as Hverified.
    { eexists. split; [|split; [reflexivity|exact Hverify]].
      split; [done|]. split; [done|]. by exists header. }
    eexists d, payload, t0, [_], strict_schema. split; [done|].
    destruct (isJwe (response input)) eqn:Hjwe; cbn [andb] in Htype; rewrite Htype.
    + by destruct Hdecrypt as (jwk & Hkey & -> & Hrun); eauto 10.
    + by destruct Hdecrypt as [-> ->].
  - apply (f_equal outcome) in Harm as Hout.
    apply plain_arm_success in Hout as (payload & Hjson & _ & _ & _ & Htrace).
    apply (f_equal trace) in Harm. rewrite Htrace in Harm.
    cbn [trace fst snd] in Harm. subst t1.
    exists d, payload, t0, [], vJarmDirectPostJwtParams. split; [done|].
    destruct (isJwe (response input)) eqn:Hjwe; [|discriminate].
    cbn [andb] in Htype. rewrite Htype.
    by destruct Hdecrypt as (jwk & Hkey & -> & Hrun); eauto 10.
Qed.

Lemma decrypt_calls input ctx :
  Forall (call_resolved_by_kid (response input)) (trace (decryptJarmAuthResponse input ctx)).
Proof.
  unfold decryptJarmAuthResponse, lift.
  destruct (decodeProtectedHeader (response input)) as [e|header] eqn:Hheader;
    [constructor|].
  rewrite bind_value. cbn [fst snd app].
  destruct (truthy (prop header "kid")) eqn:Hkid; [|constructor]. cbn [negb].
  unfold call. destruct (jose_jwe_decryptCompact ctx _ _);
    (apply Forall_cons_2; [|apply Forall_nil_2]);
    (split; [done|]); (split; [done|]); (split; [done|]); by exists header.
Qed.

Lemma parse_calls (response : string) (schema : object_schema) (payload : jsval) :
  Forall (call_resolved_by_kid response) (trace (parseJarmAuthResponseParams schema payload)).
Proof.
  rewrite parse_cases. destruct (v_is _ _); by repeat constructor.
Qed.

Lemma signed_arm_calls (response : string) ctx (d : string) :
  isJws d = true →
  Forall (call_resolved_by_kid response) (trace (signed_arm ctx d)).
Proof.
  intros Hjws. unfold signed_arm, lift.
  destruct (decodeProtectedHeader d) as [e|header] eqn:Hheader; [constructor|].
  rewrite bind_value. cbn [fst snd app].
  destruct (decodeJwt d) as [e|payload]; [constructor|].
  rewrite bind_value. cbn [fst snd app].
  pose proof (parse_calls response
                (v_required vJarmDirectPostJwtParams ["iss"; "aud"; "exp"]) payload)
    as Hparse.
  destruct (parseJarmAuthResponseParams _ payload) as [tp [e|params]]; [done|].
  rewrite bind_value. unfold trace in *. cbn [fst snd] in *.
  apply Forall_app_2; [done|]. unfold call.
  destruct (openid4vp_authRequest_getParams ctx params) as [e|authRequest];
    [by repeat constructor|].
  rewrite bind_value. cbn [fst snd app]. apply Forall_cons_2; [done|].
  destruct (truthy (prop header "kid")) eqn:Hkid; [|constructor]. cbn [negb].
  destruct (jose_jws_verifyJwt ctx d _) as [e|[]];
    (apply Forall_cons_2; [|apply Forall_nil_2]);
    (split; [done|]); (split; [done|]); (split; [done|]); by exists header.
Qed.

Lemma plain_arm_calls (response : string) ctx (d : string) :
  Forall (call_resolved_by_kid response) (trace (plain_arm ctx d)).
Proof.
  unfold plain_arm, lift.
  destruct (JSON_parse d) as [e|payload]; [constructor|].
  rewrite bind_value. cbn [fst snd app].
  pose proof (parse_calls response vJarmDirectPostJwtParams payload) as Hparse.
  destruct (parseJarmAuthResponseParams _ payload) as [tp [e|params]]; [done|].
  rewrite bind_value. unfold trace in *. cbn [fst snd] in *.
  apply Forall_app_2; [done|]. unfold call.
  destruct (openid4vp_authRequest_getParams ctx params); by repeat constructor.
Qed.

(** X28: how the validation resolves its keys, on every run, returning or
    not.  Whenever it calls [decryptCompact], it is on the response itself,
    and whenever it calls [verifyJwt], it is on a JWS; both times the key is
    named by the type ["auto"] and by the [kid] of the token's own protected
    header, and that [kid] is truthy: an absent, empty or otherwise falsy
    [kid] never reaches the host. *)
Theorem keys_resolved_by_kid input ctx :
  Forall (call_resolved_by_kid (response input))
         (trace (jarmAuthResponseDirectPostJwtValidate input ctx)).
Proof.
  rewrite validate_stages.
  assert (Forall (call_resolved_by_kid (response input))
                 (trace (decryptedResponse input ctx))) as Hdecrypt.
  { unfold decryptedResponse. destruct (isJwe (response input));
      [apply decrypt_calls|constructor]. }
  destruct (decryptedResponse input ctx) as [t0 [e|d]]; [done|].
  rewrite bind_value. unfold trace in *. cbn [fst snd] in *.
  apply Forall_app_2; [done|].
  destruct (negb (isJwe (response input)) && negb (isJws d)); [constructor|].
  assert (Forall (call_resolved_by_kid (response input))
                 (trace (if isJws d then signed_arm ctx d else plain_arm ctx d)))
    as Harm.
  { destruct (isJws d) eqn:Hjws; [by apply signed_arm_calls|apply plain_arm_calls]. }
  destruct (if isJws d then signed_arm ctx d else plain_arm ctx d)
    as [t1 [e|p]]; [done|].
  rewrite bind_value. unfold trace in *. cbn [fst snd] in *.
  apply Forall_app_2; [done|]. unfold call.
  destruct (jarmAuthResponseDirectPostValidateParams _ _); by repeat constructor.
Qed.

(** X29: a failure of the host ends the run with the host's own error.
    When [decryptCompact] throws, the validation throws the same error and
    nothing is parsed, fetched or verified.  When [verifyJwt] throws on a
    signed path, the validation throws the same error, after the parse and
    the fetch, and the response is not checked against the request. *)
Theorem host_failure_ends_run input ctx (e : Error) :
  (∀ header,
     isJwe (response input) = true →
     decodeProtectedHeader (response input) = inr header →
     truthy (prop header "kid") = true →
     jose_jwe_decryptCompact ctx (response input)
       {| jwk_kid := prop header "kid"; jwk_kty := "auto" |} = inl e →
     jarmAuthResponseDirectPostJwtValidate input ctx =
       ([Call_decryptCompact (response input)
           {| jwk_kid := prop header "kid"; jwk_kty := "auto" |}],
        inl e))
  ∧ (∀ t0 jws header payload params authRequest,
       decryptedResponse input ctx = (t0, inr jws) →
       isJws jws = true →
       decodeProtectedHeader jws = inr header →
       decodeJwt jws = inr payload →
       outcome (parseJarmAuthResponseParams strict_schema payload) = inr params →
       openid4vp_authRequest_getParams ctx params = inr authRequest →
       truthy (prop header "kid") = true →
       jose_jws_verifyJwt ctx jws {| jwk_kid := prop header "kid"; jwk_kty := "auto" |}
         = inl e →
       jarmAuthResponseDirectPostJwtValidate input ctx =
         (t0 ++ [Call_v_parse strict_schema payload; Call_getParams params;
                 Call_verifyJwt jws {| jwk_kid := prop header "kid"; jwk_kty := "auto" |}],
          inl e)).
Proof.
  split.
  - intros header Hjwe Hheader Hkid Hdecrypt.
    rewrite validate_stages. unfold decryptedResponse, decryptJarmAuthResponse, lift.
    rewrite Hjwe, Hheader, bind_value. cbn [fst snd app].
    rewrite Hkid. cbn [negb]. unfold call. by rewrite Hdecrypt.
  - intros t0 jws header payload params authRequest
      Hd Hjws Hheader Hpayload Hparse Hget Hkid Hverify.
    rewrite validate_stages, Hd, bind_value, Hjws, andb_false_r.
    unfold signed_arm, lift. fold strict_schema.
    rewrite Hheader, bind_value, Hpayload, bind_value, (parse_value _ _ _ Hparse),
      bind_value, Hget.
    unfold call. rewrite bind_value, Hkid. cbn [negb fst snd app].
    by rewrite Hverify.
Qed.

End JarmRuns.

Section EncryptedSchema.
Context `{JarmSchemas}.

Lemma encrypted_lookup_vp_token :
  entries vJarmAuthResponseEncrypted !! "vp_token" = Some v_string
  ∧ entries vJarmAuthResponseEncrypted !! "nonce" = Some (v_optional v_string).
Proof.
  unfold vJarmAuthResponseEncrypted. cbn [entries]. split.
  - rewrite !lookup_insert_ne by done. apply lookup_insert_eq.
  - apply lookup_insert_eq.
Qed.

(** X30: [vJarmAuthResponseEncrypted] and its strict form of the signed
    path accept only parameters whose [vp_token] is a string and whose
    [nonce] is absent or a string, whatever [vJarmAuthResponse] declares for
    these two names: the members written behind the spreads win. *)
Theorem encrypted_schema_members (input : jsval) :
  v_is vJarmAuthResponseEncrypted input = true
  ∨ v_is (v_required vJarmAuthResponseEncrypted ["iss"; "aud"; "exp"]) input = true →
  (∃ s, prop input "vp_token" = JStr s)
  ∧ (prop input "nonce" = JUndefined ∨ ∃ s, prop input "nonce" = JStr s).
Proof.
  intros Haccepts. destruct encrypted_lookup_vp_token as [Htoken Hnonce].
  assert (run v_string (prop input "vp_token") = true
          ∧ run (v_optional v_string) (prop input "nonce") = true) as [Hrun Hrun'].
  { destruct Haccepts as [His|His].
    - split; by eapply v_is_member.
    - split; eapply v_is_member; try exact His;
        rewrite required_lookup; [rewrite Htoken|rewrite Hnonce]; reflexivity. }
  split.
  - destruct (prop input "vp_token"); try discriminate. by eexists.
  - cbn [run] in Hrun'. destruct (prop input "nonce"); try discriminate;
      [by left|right; by eexists].
Qed.

End EncryptedSchema.

Lemma validated_result_checked_witness :
  ∃ r,
    outcome (Fixture.validate Fixture.jws_ok) = inr r
    ∧ openid4vp_authRequest_getParams Fixture.ctx (authResponseParams r)
        = inr (authRequestParams r).
Proof.
  destruct (outcome (Fixture.validate Fixture.jws_ok)) as [e|r] eqn:Hr;
    [vm_compute in Hr; discriminate|].
  exists r. split; [reflexivity|].
  exact (proj1 (@validated_result_checked Fixture.jose Fixture.json Fixture.schemas
                  Fixture.direct_post {| response := Fixture.jws_ok |} Fixture.ctx r Hr)).
Defined.

Lemma successful_run_steps_witness :
  ∃ r jwk,
    outcome (Fixture.validate Fixture.jws_ok) = inr r
    ∧ trace (Fixture.validate Fixture.jws_ok) =
        [Call_v_parse Fixture.strict Fixture.payload_full;
         Call_getParams (authResponseParams r);
         Call_verifyJwt Fixture.jws_ok jwk;
         Call_validateParams (authRequestParams r) (authResponseParams r)]
    ∧ jose_jws_verifyJwt Fixture.ctx Fixture.jws_ok jwk = inr ().
Proof.
  destruct (outcome (Fixture.validate Fixture.jws_ok)) as [e|r] eqn:Hr;
    [vm_compute in Hr; discriminate|].
  assert (type r = signed) as Htype.
  { pose proof Hr as Hcopy. vm_compute in Hcopy. by injection Hcopy as <-. }
  destruct (@successful_run_steps Fixture.jose Fixture.json Fixture.schemas
              Fixture.direct_post {| response := Fixture.jws_ok |} Fixture.ctx r Hr)
    as (token & payload & decrypt & verify & schema & Htrace & Hdecrypt & Hverify).
  rewrite Htype in Hdecrypt, Hverify.
  destruct Hdecrypt as (_ & -> & ->).
  destruct Hverify as (_ & Hpayload & -> & jwk & _ & -> & Haccepted).
  cbn [response] in *. vm_compute in Hpayload. injection Hpayload as <-.
  exists r, jwk. split; [reflexivity|]. split; [exact Htrace|exact Haccepted].
Defined.

Lemma host_failure_ends_run_witness :
  Fixture.validate "hE.k.iv.other.tag" =
    ([Call_decryptCompact "hE.k.iv.other.tag"
        {| jwk_kid := JStr "reader-key"; jwk_kty := "auto" |}],
     inl (Thrown "decryption failed")).
Proof.
  apply (proj1 (@host_failure_ends_run Fixture.jose Fixture.json Fixture.schemas
                  Fixture.direct_post {| response := "hE.k.iv.other.tag" |} Fixture.ctx
                  (Thrown "decryption failed")) Fixture.jwe_header);
    reflexivity.
Defined.

Lemma encrypted_schema_members_witness :
  ∃ s, prop Fixture.payload_plain "vp_token" = JStr s.
Proof.
  apply (@encrypted_schema_members Fixture.schemas Fixture.payload_plain).
  left. vm_compute. reflexivity.
Defined.
